(** * Spotify churn predictor (JangWansik/app.py): feature derivation and
    decision rule

    The Streamlit script collects ten widget values, builds a one-row pandas
    DataFrame, adds three derived float64 columns, scores the frame with a
    pickled scikit-learn pipeline and thresholds the probability at 0.35.

    Numbers are modelled as the code has them: int64 cells as [Z] with the
    wrap-around written out, float64 cells as IEEE 754 binary64 values
    ([spec_float] at precision 53, emax 1024, round to nearest even), so that
    every concrete run of the model can be evaluated. *)

From Stdlib Require Import ZArith Lia Bool List String Ascii QArith Qpower Qabs.
From Stdlib Require Import DecimalString.
From Stdlib Require Import Floats.SpecFloat.
Import ListNotations.

Local Open Scope string_scope.
Local Open Scope list_scope.
Local Open Scope Z_scope.

(** ** binary64 arithmetic *)

Module F64.

Definition prec : Z := 53.
Definition emax : Z := 1024.

Definition float64 := spec_float.

Definition add : float64 -> float64 -> float64 := SFadd prec emax.
Definition sub : float64 -> float64 -> float64 := SFsub prec emax.
Definition mul : float64 -> float64 -> float64 := SFmul prec emax.
Definition div : float64 -> float64 -> float64 := SFdiv prec emax.

Definition leb : float64 -> float64 -> bool := SFleb.
Definition ltb : float64 -> float64 -> bool := SFltb.
(** Python's [a >= b] on floats: false as soon as one side is NaN. *)
Definition geb (a b : float64) : bool := SFleb b a.

(** A well-formed binary64 datum: finite values carry the canonical
    mantissa/exponent pair. *)
Definition valid : float64 -> bool := valid_binary prec emax.

Definition is_finite (x : float64) : bool :=
  match x with
  | S754_zero _ | S754_finite _ _ _ => true
  | S754_infinity _ | S754_nan => false
  end.

(** int64 -> float64 conversion (round to nearest even; exact below 2^53). *)
Definition of_int (z : Z) : float64 := binary_normalize prec emax z 0 false.

Definition zero : float64 := S754_zero false.
Definition one : float64 := of_int 1.
Definition max_float : float64 := SFmax_float prec emax.

(** A Python decimal literal [n]e-[k] with [n < 2^53] and [k <= 22]: both
    [n] and [10^k] are exact in binary64, so one correctly rounded division
    yields the double nearest to the decimal, which is what the parser
    returns. *)
Definition lit (n : Z) (k : nat) : float64 :=
  div (of_int n) (of_int (10 ^ Z.of_nat k)).

(** The rational value of a finite float (0 for the others). *)
Definition to_Q (x : float64) : Q :=
  match x with
  | S754_finite s m e =>
      let v := (inject_Z (Zpos m) * Qpower 2 e)%Q in
      if s then Qopp v else v
  | _ => 0%Q
  end.

End F64.

Import F64.

(** ** Exceptions and results *)

Inductive exn_class :=
| FileNotFoundError
| KeyError
| TypeError
| ValueError
| IndexError
| UnpicklingError
| OtherException (name : string)
| KeyboardInterrupt
| SystemExit.

(** An exception object: its class and [str(e)]. *)
Record exn := { exn_cls : exn_class; exn_str : string }.

(** [except Exception] catches everything but the BaseException-only classes. *)
Definition is_Exception (e : exn) : bool :=
  match exn_cls e with
  | KeyboardInterrupt | SystemExit => false
  | _ => true
  end.

(** [except FileNotFoundError]. *)
Definition is_FileNotFoundError (e : exn) : bool :=
  match exn_cls e with
  | FileNotFoundError => true
  | _ => false
  end.

Inductive result (A : Type) :=
| Ok (a : A)
| Raise (e : exn).
Arguments Ok {A} a.
Arguments Raise {A} e.

Definition bind {A B} (r : result A) (k : A -> result B) : result B :=
  match r with
  | Ok a => k a
  | Raise e => Raise e
  end.

Notation "x <- c ;; k" := (bind c (fun x => k))
  (at level 61, c at next level, right associativity).

(** ** One-row DataFrames *)

(** The single cell of a column, by dtype.  These are the dtypes pandas
    infers for the Python ints, floats and strs that lines 92-103 put into
    the frame; no other dtype (float32, bool, ...) occurs in a frame of the
    script, and none is modelled. *)
Inductive cell :=
| CInt (z : Z)            (* int64 *)
| CFloat (f : float64)    (* float64 *)
| CObj (s : string).      (* object (str) *)

(** Columns in insertion order. *)
Definition DataFrame := list (string * cell).

Definition wrap64 (z : Z) : Z := (z + 2 ^ 63) mod 2 ^ 64 - 2 ^ 63.

(** [df[col]]; a missing column raises [KeyError(col)], whose [str] is the
    [repr] of the name (written out for names without quotes or escapes, as
    all column names of the script are). *)
Fixpoint getitem (df : DataFrame) (col : string) : result cell :=
  match df with
  | [] => Raise {| exn_cls := KeyError;
                   exn_str := String.concat "" ["'"; col; "'"] |}
  | (c, v) :: rest => if String.eqb c col then Ok v else getitem rest col
  end.

(** [df[col] = v]: an existing column is overwritten in place, a new one is
    appended. *)
Fixpoint setitem (df : DataFrame) (col : string) (v : cell) : DataFrame :=
  match df with
  | [] => [(col, v)]
  | (c, w) :: rest =>
      if String.eqb c col then (c, v) :: rest else (c, w) :: setitem rest col v
  end.

(** Python type names of the values in the cells, as error messages print
    them. *)
Definition type_name (c : cell) : string :=
  match c with
  | CInt _ => "int"
  | CFloat _ => "float"
  | CObj _ => "str"
  end.

Definition dquote : string := String (ascii_of_nat 34) "".

(** The TypeErrors of Python's operators on a [str] operand. *)
Definition unsupported (op : string) (a b : cell) : exn :=
  {| exn_cls := TypeError;
     exn_str := String.concat ""
                  [ "unsupported operand type(s) for "; op; ": '";
                    type_name a; "' and '"; type_name b; "'" ] |}.

Definition cannot_concatenate (b : cell) : exn :=
  {| exn_cls := TypeError;
     exn_str := String.concat ""
                  [ "can only concatenate str (not "; dquote; type_name b;
                    dquote; ") to str" ] |}.

Definition cannot_multiply (b : cell) : exn :=
  {| exn_cls := TypeError;
     exn_str := String.concat ""
                  [ "can't multiply sequence by non-int of type '";
                    type_name b; "'" ] |}.

(** [s * n] on a str: [n] copies of [s], none for [n <= 0] (memory
    permitting). *)
Definition repeat_str (s : string) (n : Z) : string :=
  Z.iter n (String.append s) "".

(** Element-wise arithmetic.  int64 and float64 operands follow NumPy's
    dtype promotion; an object cell holds a Python str, on which the
    operators are Python's own: [+] concatenates two strs, [*] repeats a str
    an integer number of times, everything else raises TypeError.  The frame
    built by the script has numeric dtypes in every column that enters the
    arithmetic. *)
Definition to_float (c : cell) : option float64 :=
  match c with
  | CInt z => Some (of_int z)
  | CFloat f => Some f
  | CObj _ => None
  end.

Definition float_op (op : string) (f : float64 -> float64 -> float64)
    (a b : cell) : result cell :=
  match to_float a, to_float b with
  | Some x, Some y => Ok (CFloat (f x y))
  | _, _ => Raise (unsupported op a b)
  end.

Definition cell_add (a b : cell) : result cell :=
  match a, b with
  | CInt x, CInt y => Ok (CInt (wrap64 (x + y)))
  | CObj s, CObj t => Ok (CObj (String.append s t))
  | CObj _, _ => Raise (cannot_concatenate b)
  | _, _ => float_op "+" add a b
  end.

Definition cell_sub (a b : cell) : result cell :=
  match a, b with
  | CInt x, CInt y => Ok (CInt (wrap64 (x - y)))
  | _, _ => float_op "-" sub a b
  end.

Definition cell_mul (a b : cell) : result cell :=
  match a, b with
  | CInt x, CInt y => Ok (CInt (wrap64 (x * y)))
  | CObj s, CInt n | CInt n, CObj s => Ok (CObj (repeat_str s n))
  | CObj _, _ => Raise (cannot_multiply b)
  | _, CObj _ => Raise (cannot_multiply a)
  | _, _ => float_op "*" mul a b
  end.

(** True division yields float64 on int64 and float64 operands. *)
Definition cell_truediv (a b : cell) : result cell := float_op "/" div a b.

(** ** The widget values *)

Record RawUserProfile := {
  age : Z;
  gender : string;
  country : string;
  subscription_type : string;
  device_type : string;
  listening_time : float64;
  songs_played : Z;
  skip_rate : float64;
  ads_listened : Z;
  offline_listening : Z
}.

(** Largest integer a Streamlit number input accepts (JS safe integer). *)
Definition max_safe_integer : Z := 2 ^ 53 - 1.

(** The domain enforced by the widgets of the form: the float inputs are
    finite binary64 values, [listening_time >= 0.0], [0.0 <= skip_rate <= 1.0],
    and the integer inputs lie in [0, 2^53 - 1]. *)
Definition valid_profile (p : RawUserProfile) : bool :=
  valid (listening_time p) && is_finite (listening_time p)
  && geb (listening_time p) zero
  && (0 <=? songs_played p) && (songs_played p <=? max_safe_integer)
  && valid (skip_rate p) && geb (skip_rate p) zero && leb (skip_rate p) one
  && (0 <=? ads_listened p) && (ads_listened p <=? max_safe_integer).

(** Lines 92-103. *)
Definition make_input_data (p : RawUserProfile) : DataFrame :=
  [ ("age", CInt (age p));
    ("gender", CObj (gender p));
    ("country", CObj (country p));
    ("subscription_type", CObj (subscription_type p));
    ("device_type", CObj (device_type p));
    ("listening_time", CFloat (listening_time p));
    ("songs_played_per_day", CInt (songs_played p));
    ("skip_rate", CFloat (skip_rate p));
    ("ads_listened_per_week", CInt (ads_listened p));
    ("offline_listening", CInt (offline_listening p)) ].

(** ** Feature engineering (lines 107-109) *)

Definition feature_engineering (input_data : DataFrame) : result DataFrame :=
  (* input_data['ad_burden'] = ads_listened_per_week / (listening_time + 1) *)
  ads <- getitem input_data "ads_listened_per_week" ;;
  lt <- getitem input_data "listening_time" ;;
  lt1 <- cell_add lt (CInt 1) ;;
  ad_burden <- cell_truediv ads lt1 ;;
  let input_data := setitem input_data "ad_burden" ad_burden in
  (* input_data['satisfaction_score'] = songs_played_per_day * (1 - skip_rate) *)
  songs <- getitem input_data "songs_played_per_day" ;;
  skip <- getitem input_data "skip_rate" ;;
  keep <- cell_sub (CInt 1) skip ;;
  satisfaction_score <- cell_mul songs keep ;;
  let input_data := setitem input_data "satisfaction_score" satisfaction_score in
  (* input_data['time_per_song'] = listening_time / (songs_played_per_day + 1) *)
  lt <- getitem input_data "listening_time" ;;
  songs <- getitem input_data "songs_played_per_day" ;;
  songs1 <- cell_add songs (CInt 1) ;;
  time_per_song <- cell_truediv lt songs1 ;;
  Ok (setitem input_data "time_per_song" time_per_song).

(** The three derived columns, as the data model names them. *)
Record DerivedFeatures := {
  ad_burden : float64;
  satisfaction_score : float64;
  time_per_song : float64
}.

(** The derivation formulas of the data model, on binary64 values. *)
Definition derived_formulas (p : RawUserProfile) : DerivedFeatures :=
  {| ad_burden :=
       div (of_int (ads_listened p)) (add (listening_time p) one);
     satisfaction_score :=
       mul (of_int (songs_played p)) (sub one (skip_rate p));
     time_per_song :=
       div (listening_time p) (of_int (songs_played p + 1)) |}.

(** Reading the derived columns back from a frame. *)
Definition float_column (df : DataFrame) (col : string) : option float64 :=
  match getitem df col with
  | Ok (CFloat f) => Some f
  | _ => None
  end.

Definition derived_of_frame (df : DataFrame) : option DerivedFeatures :=
  match float_column df "ad_burden",
        float_column df "satisfaction_score",
        float_column df "time_per_song" with
  | Some a, Some s, Some t =>
      Some {| ad_burden := a; satisfaction_score := s; time_per_song := t |}
  | _, _, _ => None
  end.

(** The Feature Deriver: widget values to the frame handed to the classifier. *)
Definition feature_deriver (p : RawUserProfile) : result DataFrame :=
  feature_engineering (make_input_data p).

(** ** Decision rule (lines 117-118) *)

Definition threshold : float64 := lit 35 2.

(** [1 if churn_proba >= threshold else 0]. *)
Definition classify (threshold churn_proba : float64) : Z :=
  if geb churn_proba threshold then 1 else 0.

Definition prediction (churn_proba : float64) : Z :=
  classify threshold churn_proba.

Definition is_churn_risk (churn_proba : float64) : bool :=
  prediction churn_proba =? 1.

(** ** Decimal text of a float *)

(** Location of a remainder [R] of a division by [M]: exact, or below, at
    or above one half. *)
Definition loc_of_remainder (R M : Z) : location :=
  if R =? 0 then loc_Exact else loc_Inexact (Z.compare (2 * R) M).

(** [N / M] rounded to the nearest integer, ties to even. *)
Definition rne (N M : Z) : Z :=
  round_nearest_even (N / M) (loc_of_remainder (N mod M) M).

(** Decimal digits of a non-negative integer. *)
Definition decimal (z : Z) : string :=
  NilZero.string_of_uint (N.to_uint (Z.to_N z)).

(** [|x| * 10^ndigits] rounded to the nearest integer, ties to even: the
    digits Python prints for a finite [x] with [ndigits] decimals. *)
Definition scaled_decimal (ndigits : nat) (x : float64) : Z :=
  match x with
  | S754_finite _ m e =>
      rne (Zpos m * 10 ^ Z.of_nat ndigits * 2 ^ Z.max e 0) (2 ^ Z.max (- e) 0)
  | _ => 0
  end.

(** Python's fixed-point formatting of a float with [ndigits >= 1] decimals,
    ['%f' % x] for 6 and [f'{x:.1f}'] for 1: the correctly rounded decimal,
    ties to even, with the sign of [x]. *)
Definition format_fixed (ndigits : nat) (x : float64) : string :=
  match x with
  | S754_nan => "nan"
  | S754_infinity s => if s then "-inf" else "inf"
  | S754_zero s | S754_finite s _ _ =>
      let q := scaled_decimal ndigits x in
      let p := 10 ^ Z.of_nat ndigits in
      String.concat ""
        [ if s then "-" else ""; decimal (q / p); ".";
          substring 1 ndigits (decimal (p + q mod p)) ]
  end.

(** ** The page: rendered elements *)

(** What a run of the script puts on the page.  The static layout of lines
    9-82 (page configuration, title, form widgets) is left out.  [st_metric]
    keeps the float [churn_proba*100]; the page shows its text
    ([metric_text]).  [st_exception] is the box in which Streamlit shows an
    exception that escapes the script. *)
Inductive element :=
| st_error (body : string)
| st_warning (body : string)
| st_success (body : string)
| st_header (body : string)
| st_write (body : string)
| st_metric (label : string) (percent : float64)
| st_progress (value : float64)
| st_expander (label : string) (content : DataFrame)
| st_exception (e : exn).

(** Line 126: the text of the metric, [f"{churn_proba*100:.1f}%"]. *)
Definition metric_text (percent : float64) : string :=
  String.append (format_fixed 1 percent) "%".

(** An exception that escapes the script ends the run.  Streamlit shows it
    when it is an [Exception]; a KeyboardInterrupt or SystemExit ends the
    run with nothing shown. *)
Definition uncaught (e : exn) : list element :=
  if is_Exception e then [ st_exception e ] else [].

Definition load_error_message : string :=
  "모델 파일('models/spotify_churn_model.pkl')을 찾을 수 없습니다. 먼저 모델 학습을 완료해주세요.".

Definition predict_error_prefix : string := "예측 중 오류가 발생했습니다: ".

Definition predict_warning_message : string := "입력 데이터 형식을 확인해주세요.".

Definition high_risk_message : string :=
  "⚠️ **'이탈 위험군 (High Risk)'** 으로 분류되었습니다.".

Definition loyal_message : string :=
  "✅ **'안정적 잔존 유저 (Loyal User)'** 입니다.".

(** ** The classifier artifact *)

(** The unpickled pipeline is a black box: [predict_proba(input_data)[0, 1]]
    either returns a float64 or raises. *)
Definition pipeline := DataFrame -> result float64.

(** [load_model_pipeline] (lines 39-46), given what [joblib.load] does: the
    returned value and the elements rendered while loading. *)
Definition load_model_pipeline (joblib_load : result pipeline)
    : result (option pipeline) * list element :=
  match joblib_load with
  | Ok pl => (Ok (Some pl), [])
  | Raise e =>
      if is_FileNotFoundError e
      then (Ok None, [st_error load_error_message])
      else (Raise e, [])
  end.

(** The [st.cache_resource] entry of [load_model_pipeline]: empty, or the value
    returned by the one call that completed. *)
Definition resource_cache := option (option pipeline).

(** Elements replayed on a cache hit: the ones the cached call rendered. *)
Definition replayed (v : option pipeline) : list element :=
  match v with
  | Some _ => []
  | None => [st_error load_error_message]
  end.

(** Line 48 under [st.cache_resource]: a hit returns the cached value and
    replays its elements; a miss runs the function and stores the value it
    returns; an exception is not stored. *)
Definition cached_load (cache : resource_cache) (joblib_load : result pipeline)
    : result (option pipeline) * list element * resource_cache :=
  match cache with
  | Some v => (Ok v, replayed v, cache)
  | None =>
      match load_model_pipeline joblib_load with
      | (Ok v, els) => (Ok v, els, Some v)
      | (Raise e, els) => (Raise e, els, None)
      end
  end.

(** ** Prediction section (lines 87-144) *)

Definition is_infinity (x : float64) : bool :=
  match x with
  | S754_infinity _ => true
  | _ => false
  end.

(** [math.isclose(a, b, rel_tol=rel_tol, abs_tol=abs_tol)]. *)
Definition isclose (a b rel_tol abs_tol : float64) : bool :=
  SFeqb a b
  || (negb (is_infinity a || is_infinity b)
      && let diff := SFabs (sub b a) in
         leb diff (SFabs (mul rel_tol b))
         || leb diff (SFabs (mul rel_tol a))
         || leb diff abs_tol).

(** [st.progress] on a float (line 127): Streamlit accepts a value in
    [0.0, 1.0], or within [1e-9] of one of the two bounds, and raises
    StreamlitAPIException for any other, NaN included. *)
Definition progress_accepts (value : float64) : bool :=
  (leb zero value && leb value one)
  || isclose value zero (lit 1 9) (lit 1 9)
  || isclose value one (lit 1 9) (lit 1 9).

Definition progress_error (value : float64) : exn :=
  {| exn_cls := OtherException "StreamlitAPIException";
     exn_str := String.append "Progress Value has invalid value [0.0, 1.0]: "
                  (format_fixed 6 value) |}.

(** Lines 123-140 for a probability that [st.progress] accepts: what is
    rendered once the probability is known. *)
Definition render_result (churn_proba : float64) (input_data : DataFrame)
    : list element :=
  let prediction := prediction churn_proba in
  [ st_header "당신의 유저는...";
    st_metric "이탈 확률 (Churn Probability)" (mul churn_proba (of_int 100));
    st_progress churn_proba ]
  ++ (if prediction =? 1
      then [ st_error high_risk_message;
             st_write "**[액션 플랜 제안]**";
             st_write "- 3개월 할인 쿠폰 푸시 알림 발송";
             st_write "- 최근 많이 스킵한 장르를 제외한 맞춤 플레이리스트 추천" ]
      else [ st_success loyal_message;
             st_write "현재 활동 패턴이 안정적입니다. 특별한 조치가 필요하지 않습니다." ])
  ++ [ st_expander "모델 입력 데이터 확인" input_data ].

(** The [try]/[except Exception] of lines 112-144 around the scoring call
    and the display of the result.  When [st.progress] rejects the
    probability, header and metric are on the page already and the handler
    adds its two messages. *)
Definition score_and_render (pl : pipeline) (input_data : DataFrame)
    : list element :=
  match pl input_data with
  | Ok churn_proba =>
      if progress_accepts churn_proba
      then render_result churn_proba input_data
      else [ st_header "당신의 유저는...";
             st_metric "이탈 확률 (Churn Probability)"
                       (mul churn_proba (of_int 100));
             st_error (String.append predict_error_prefix
                         (exn_str (progress_error churn_proba)));
             st_warning predict_warning_message ]
  | Raise e =>
      if is_Exception e
      then [ st_error (String.append predict_error_prefix (exn_str e));
             st_warning predict_warning_message ]
      else uncaught e
  end.

(** Body of [if st.button(...)]: the elements rendered, and the frames
    handed to [predict_proba].  With no pipeline loaded, [st.stop()] ends the
    run before anything is derived or scored. *)
Definition on_click (pl : option pipeline) (p : RawUserProfile)
    : list element * list DataFrame :=
  match pl with
  | None => ([], [])
  | Some pl =>
      match feature_deriver p with
      | Ok input_data => (score_and_render pl input_data, [input_data])
      | Raise e => (uncaught e, [])
      end
  end.

(** One run of the script (Streamlit reruns it on every interaction). *)
Record run_input := {
  joblib_load : result pipeline;   (* what joblib.load would do now *)
  profile : RawUserProfile;        (* the widget values *)
  clicked : bool                   (* the predict button *)
}.

Record run_output := {
  page : list element;             (* what the run rendered *)
  scored : list DataFrame;         (* the frames passed to predict_proba *)
  cache_after : resource_cache
}.

Definition script (cache : resource_cache) (i : run_input) : run_output :=
  match cached_load cache (joblib_load i) with
  | (Raise e, els, cache') =>
      {| page := els ++ uncaught e; scored := [];
         cache_after := cache' |}
  | (Ok pl, els, cache') =>
      let '(shown, frames) :=
        if clicked i then on_click pl (profile i) else ([], []) in
      {| page := els ++ shown; scored := frames; cache_after := cache' |}
  end.

(** A session: successive runs sharing the resource cache. *)
Fixpoint session (cache : resource_cache) (runs : list run_input)
    : list run_output :=
  match runs with
  | [] => []
  | i :: rest =>
      let out := script cache i in
      out :: session (cache_after out) rest
  end.

(** The elements that make up a displayed prediction: probability metric,
    progress bar, risk label, action list, feature view. *)
Definition is_prediction_element (el : element) : bool :=
  match el with
  | st_header _ | st_metric _ _ | st_progress _ | st_success _
  | st_write _ | st_expander _ _ => true
  | st_error body => String.eqb body high_risk_message
  | st_warning _ | st_exception _ => false
  end.

Definition shows_prediction (els : list element) : bool :=
  existsb is_prediction_element els.

(** The elements by which the page reports a failed artifact load. *)
Definition is_load_failure_element (el : element) : bool :=
  match el with
  | st_error body => String.eqb body load_error_message
  | st_exception _ => true
  | _ => false
  end.

(** The element by which the page reports a failed scoring call. *)
Definition is_scoring_failure_element (el : element) : bool :=
  match el with
  | st_error body => String.prefix predict_error_prefix body
  | _ => false
  end.

(** Each derived value is a finite binary64 number in canonical form, so
    that equal values have equal bit patterns. *)
Definition well_formed_features (d : DerivedFeatures) : bool :=
  forallb (fun x => valid x && is_finite x)
          [ ad_burden d; satisfaction_score d; time_per_song d ].

(** The three columns appended to the frame. *)
Definition derived_columns (d : DerivedFeatures) : DataFrame :=
  [ ("ad_burden", CFloat (ad_burden d));
    ("satisfaction_score", CFloat (satisfaction_score d));
    ("time_per_song", CFloat (time_per_song d)) ].

(** End-to-end scenarios of the test plan. *)
Definition scenario_1 : RawUserProfile :=
  {| age := 30; gender := "Male"; country := "US";
     subscription_type := "Free"; device_type := "Mobile";
     listening_time := of_int 60; songs_played := 20;
     skip_rate := lit 3 1; ads_listened := 5; offline_listening := 0 |}.

Definition scenario_2 : RawUserProfile :=
  {| age := 30; gender := "Female"; country := "DE";
     subscription_type := "Premium"; device_type := "Web";
     listening_time := zero; songs_played := 0;
     skip_rate := lit 3 1; ads_listened := 5; offline_listening := 1 |}.

(** The artifact load has failed and has not succeeded since: a missing
    file is remembered by the cache for the rest of the session, while any
    other load error is retried by the next run. *)
Fixpoint load_keeps_failing (cache : resource_cache) (runs : list run_input)
    : bool :=
  match runs with
  | [] => true
  | i :: rest =>
      match cache with
      | Some (Some _) => false
      | Some None => load_keeps_failing cache rest
      | None =>
          match joblib_load i with
          | Ok _ => false
          | Raise e =>
              load_keeps_failing
                (if is_FileNotFoundError e then Some None else None) rest
          end
      end
  end.

(** Loading is final once it has failed: whatever the later runs of the
    session would load, none of them scores a frame or shows anything of a
    prediction. *)
Definition load_failure_is_final : Prop :=
  forall (i : run_input) (e : exn) (later : list run_input),
    joblib_load i = Raise e ->
    Forall (fun out => scored out = [] /\ shows_prediction (page out) = false)
           (session None (i :: later)).

(** What a run in which loading fails leaves on the page: the missing-file
    message, or whatever Streamlit shows of the exception that escaped. *)
Definition load_failure_page (i : run_input) (out : run_output) : Prop :=
  page out = [ st_error load_error_message ]
  \/ exists e, joblib_load i = Raise e
               /\ is_FileNotFoundError e = false
               /\ page out = uncaught e.

(** Two scoring failures of different classes carrying the same text: the
    ValueError scikit-learn raises when a column of the frame is missing, and
    a TypeError with the same message. *)
Definition schema_mismatch_error : exn :=
  {| exn_cls := ValueError; exn_str := "columns are missing: {'ad_burden'}" |}.

Definition inference_error : exn :=
  {| exn_cls := TypeError; exn_str := "columns are missing: {'ad_burden'}" |}.

(** The kind of a scoring failure can be read off what the run produced. *)
Definition error_kind_observable : Prop :=
  exists kind_of : list element * list DataFrame -> exn_class,
    forall (pl : pipeline) (p : RawUserProfile) (df : DataFrame) (e : exn),
      feature_deriver p = Ok df ->
      pl df = Raise e ->
      is_Exception e = true ->
      kind_of (on_click (Some pl) p) = exn_cls e.

(** Sample artifacts for concrete runs. *)
Definition constant_pipeline (churn_proba : float64) : pipeline :=
  fun _ => Ok churn_proba.

Definition failing_pipeline (e : exn) : pipeline :=
  fun _ => Raise e.

Definition missing_artifact : exn :=
  {| exn_cls := FileNotFoundError;
     exn_str := "[Errno 2] No such file or directory: 'models/spotify_churn_model.pkl'" |}.

Definition corrupt_artifact : exn :=
  {| exn_cls := UnpicklingError; exn_str := "invalid load key" |}.

(** ** Vocabulary of the frame and session properties *)

(** The frame has a column of this name. *)
Definition has_column (df : DataFrame) (col : string) : bool :=
  match getitem df col with
  | Ok _ => true
  | Raise _ => false
  end.

(** The right-hand sides of lines 107-109, all read from one frame. *)
Definition derived_cells (df : DataFrame) : result (cell * cell * cell) :=
  ads <- getitem df "ads_listened_per_week" ;;
  lt <- getitem df "listening_time" ;;
  lt1 <- cell_add lt (CInt 1) ;;
  ad_burden <- cell_truediv ads lt1 ;;
  songs <- getitem df "songs_played_per_day" ;;
  skip <- getitem df "skip_rate" ;;
  keep <- cell_sub (CInt 1) skip ;;
  satisfaction_score <- cell_mul songs keep ;;
  songs1 <- cell_add songs (CInt 1) ;;
  time_per_song <- cell_truediv lt songs1 ;;
  Ok (ad_burden, satisfaction_score, time_per_song).

(** The columns lines 107-109 assign to. *)
Definition is_derived_column (col : string) : bool :=
  String.eqb col "ad_burden" || String.eqb col "satisfaction_score"
  || String.eqb col "time_per_song".

(** The frame holds the profile's values in the four columns that lines
    107-109 read. *)
Definition holds_inputs (df : DataFrame) (p : RawUserProfile) : Prop :=
  getitem df "ads_listened_per_week" = Ok (CInt (ads_listened p))
  /\ getitem df "listening_time" = Ok (CFloat (listening_time p))
  /\ getitem df "songs_played_per_day" = Ok (CInt (songs_played p))
  /\ getitem df "skip_rate" = Ok (CFloat (skip_rate p)).

(** The three assignments of lines 107-109. *)
Definition assign_derived (df : DataFrame) (cells : cell * cell * cell)
    : DataFrame :=
  let '(a, s, t) := cells in
  setitem (setitem (setitem df "ad_burden" a) "satisfaction_score" s)
          "time_per_song" t.

(** The same run with another outcome of [joblib.load]. *)
Definition with_joblib_load (jl : result pipeline) (i : run_input) : run_input :=
  {| joblib_load := jl; profile := profile i; clicked := clicked i |}.

(** Number of runs in which the button was pressed. *)
Definition clicks (runs : list run_input) : nat :=
  List.length (filter clicked runs).

(** Number of calls of [predict_proba] in a session. *)
Definition calls (outs : list run_output) : nat :=
  List.length (List.concat (map scored outs)).

(** ** Vocabulary of the rounding proofs *)

(** [r'] is the record [r] shifted right by [n] bits: the mantissa is divided
    by [2^n], and the shifted-out part is all zero exactly when the location
    stays exact. *)
Definition shifted (n : Z) (r r' : shr_record) : Prop :=
  0 <= shr_m r'
  /\ shr_m r' = shr_m r / 2 ^ n
  /\ (loc_of_shr_record r' = loc_Exact <->
      loc_of_shr_record r = loc_Exact /\ shr_m r mod 2 ^ n = 0).

(** [m * 2^(e - c)]: the value [m * 2^e] counted in units of [2^c]. *)
Definition scaled (c m e : Z) : Z := m * 2 ^ (e - c).

(** A finite, well-formed binary64 value that is [>= 0.0]. *)
Definition nonneg_finite (x : float64) : bool :=
  valid x && is_finite x && geb x zero.

(** The record holds the quotient [N / M] and the location of its
    remainder. *)
Definition represents (r : shr_record) (N M : Z) : Prop :=
  shr_m r = N / M /\ loc_of_shr_record r = loc_of_remainder (N mod M) M.

Ltac order_cases :=
  repeat match goal with
         | H : context [Z.compare ?a ?b] |- _ => destruct (Z.compare_spec a b)
         | |- context [Z.compare ?a ?b] => destruct (Z.compare_spec a b)
         | H : context [Pos.compare ?a ?b] |- _ => destruct (Pos.compare_spec a b)
         | |- context [Pos.compare ?a ?b] => destruct (Pos.compare_spec a b)
         end.

(** * binary64: ordering and rounding

    The claims about finiteness and bounds rest on one fact about
    [binary_round_aux], the rounding step shared by [SFadd], [SFsub], [SFmul]
    and [SFdiv]: rounding never crosses a representable number.  If the exact
    result is at most (at least) some binary64 value, so is the rounded
    result.  Values are compared as integers, counted in units of [2^c] for an
    exponent [c] below every exponent in play ([scaled]). *)

Section Compare.

Lemma compare_antisym x y :
  SFcompare y x = option_map CompOpp (SFcompare x y).
Proof.
  destruct x as [[|]|[|]| |[|] m1 e1], y as [[|]|[|]| |[|] m2 e2];
    try reflexivity; cbn [SFcompare option_map];
    rewrite (Z.compare_antisym e1 e2);
    change (Pos.compare_cont Eq m2 m1) with (Pos.compare m2 m1);
    change (Pos.compare_cont Eq m1 m2) with (Pos.compare m1 m2);
    rewrite (Pos.compare_antisym m1 m2);
    destruct (e1 ?= e2); cbn; try reflexivity;
    destruct (m1 ?= m2)%positive; reflexivity.
Qed.

(** A comparison fails only on NaN. *)
Lemma compare_none x y :
  SFcompare x y = None -> x = S754_nan \/ y = S754_nan.
Proof.
  destruct x as [[|]|[|]| |[|] mx ex], y as [[|]|[|]| |[|] my ey];
    cbn [SFcompare]; intros H; try discriminate; auto;
    destruct (Z.compare ex ey); discriminate.
Qed.

Lemma ltb_not_geb x y : SFltb x y = true -> SFleb y x = false.
Proof.
  unfold SFltb, SFleb. rewrite (compare_antisym x y).
  destruct (SFcompare x y) as [[ | | ]|]; cbn; congruence.
Qed.

Lemma leb_trans x y z :
  SFleb x y = true -> SFleb y z = true -> SFleb x z = true.
Proof.
  unfold SFleb.
  destruct x as [[|]|[|]| |[|] m1 e1], y as [[|]|[|]| |[|] m2 e2],
           z as [[|]|[|]| |[|] m3 e3];
    cbn [SFcompare]; try reflexivity; try discriminate;
    change (Pos.compare_cont Eq) with Pos.compare;
    intros H1 H2; order_cases; cbn in *; subst;
    try reflexivity; try discriminate; try lia.
Qed.

End Compare.

Section Pow2.

Lemma pow2_pos n : 0 <= n -> 0 < 2 ^ n.
Proof. intros; apply Z.pow_pos_nonneg; lia. Qed.

Lemma pow2_split a b : 0 <= a -> 0 <= b -> 2 ^ (a + b) = 2 ^ a * 2 ^ b.
Proof. intros; apply Z.pow_add_r; assumption. Qed.

Lemma pow2_le a b : 0 <= a <= b -> 2 ^ a <= 2 ^ b.
Proof. intros; apply Z.pow_le_mono_r; lia. Qed.

Lemma pow2_lt a b : 0 <= a < b -> 2 ^ a < 2 ^ b.
Proof. intros; apply Z.pow_lt_mono_r; lia. Qed.

Lemma pow2_lt_inv a b : 0 <= a -> 0 <= b -> 2 ^ a < 2 ^ b -> a < b.
Proof.
  intros Ha Hb H. destruct (Z_lt_le_dec a b) as [|Hle]; [assumption|].
  pose proof (pow2_le b a (conj Hb Hle)). lia.
Qed.

Lemma mod_mul_zero m a b :
  0 < a -> 0 < b ->
  (m mod (a * b) = 0 <-> m mod a = 0 /\ (m / a) mod b = 0).
Proof.
  intros Ha Hb. rewrite Z.rem_mul_r by lia.
  pose proof (Z.mod_pos_bound m a Ha).
  pose proof (Z.mod_pos_bound (m / a) b Hb).
  split; [intros | intros [-> ->]; lia]. split; nia.
Qed.

End Pow2.

Section Digits.

Lemma digits2_pos_bounds m :
  2 ^ (Zpos (digits2_pos m) - 1) <= Zpos m < 2 ^ Zpos (digits2_pos m).
Proof.
  induction m as [m IH | m IH |]; cbn [digits2_pos].
  - rewrite Pos2Z.inj_succ, Z.pow_succ_r by lia.
    replace (Z.succ (Zpos (digits2_pos m)) - 1)
      with (Z.succ (Zpos (digits2_pos m) - 1)) by lia.
    rewrite Z.pow_succ_r by lia. lia.
  - rewrite Pos2Z.inj_succ, Z.pow_succ_r by lia.
    replace (Z.succ (Zpos (digits2_pos m)) - 1)
      with (Z.succ (Zpos (digits2_pos m) - 1)) by lia.
    rewrite Z.pow_succ_r by lia. lia.
  - simpl. lia.
Qed.

Lemma Zdigits2_bounds m :
  0 < m -> 2 ^ (Zdigits2 m - 1) <= m < 2 ^ Zdigits2 m.
Proof.
  destruct m as [|p|p]; try lia. intros _. apply digits2_pos_bounds.
Qed.

Lemma Zdigits2_pos m : 0 < m -> 0 < Zdigits2 m.
Proof. destruct m; simpl; lia. Qed.

Lemma Zdigits2_unique m d :
  0 < d -> 2 ^ (d - 1) <= m < 2 ^ d -> Zdigits2 m = d.
Proof.
  intros Hd [Hlo Hhi].
  assert (Hm : 0 < m) by (pose proof (pow2_pos (d - 1)); lia).
  pose proof (Zdigits2_bounds m Hm) as [Hlo' Hhi'].
  pose proof (Zdigits2_pos m Hm) as Hd'.
  assert (Zdigits2 m - 1 < d).
  { apply pow2_lt_inv; lia. }
  assert (d - 1 < Zdigits2 m).
  { apply pow2_lt_inv; lia. }
  lia.
Qed.

End Digits.

Section Shift.

Lemma loc_record_roundtrip m l :
  loc_of_shr_record (shr_record_of_loc m l) = l.
Proof. destruct l as [|[ | | ]]; reflexivity. Qed.

Lemma shr_m_record_of_loc m l : shr_m (shr_record_of_loc m l) = m.
Proof. destruct l as [|[ | | ]]; reflexivity. Qed.

Lemma shifted_0 r : 0 <= shr_m r -> shifted 0 r r.
Proof.
  intros H. unfold shifted. rewrite Z.pow_0_r, Z.div_1_r, Z.mod_1_r.
  tauto.
Qed.

Lemma loc_exact_iff r :
  loc_of_shr_record r = loc_Exact <-> shr_r r = false /\ shr_s r = false.
Proof.
  destruct r as [m [|] [|]]; cbn; split; intros H;
    try discriminate; try (destruct H; discriminate); auto.
Qed.

Lemma xO_mod2 p : Zpos p~0 mod 2 = 0.
Proof. rewrite Pos2Z.inj_xO, Z.mul_comm. apply Z.mod_mul. lia. Qed.

Lemma xI_mod2 p : Zpos p~1 mod 2 = 1.
Proof.
  rewrite Pos2Z.inj_xI, Z.add_comm, Z.mul_comm, Z.mod_add by lia. reflexivity.
Qed.

Lemma shifted_1 r : 0 <= shr_m r -> shifted 1 r (shr_1 r).
Proof.
  destruct r as [m b s]. cbn [shr_m]. intros Hm. unfold shifted.
  change (2 ^ 1) with 2. rewrite !loc_exact_iff.
  destruct m as [|[p|p|]|]; try lia; cbn [shr_1 shr_m shr_r shr_s];
    rewrite <- ?Z.div2_div, ?xO_mod2, ?xI_mod2, orb_false_iff;
    cbn [Z.div2 Pos.div2]; repeat split; try lia; try tauto.
  match goal with
  | H : _ /\ 1 mod 2 = 0 |- _ => destruct H as [_ H]; cbv in H; discriminate
  end.
Qed.

Lemma shifted_trans a b r1 r2 r3 :
  0 <= a -> 0 <= b ->
  shifted a r1 r2 -> shifted b r2 r3 -> shifted (a + b) r1 r3.
Proof.
  intros Ha Hb (H1 & E1 & X1) (H2 & E2 & X2). unfold shifted.
  pose proof (pow2_pos a Ha). pose proof (pow2_pos b Hb).
  rewrite pow2_split by assumption.
  split; [assumption|]. split.
  - rewrite E2, E1. apply Z.div_div; lia.
  - rewrite X2, X1, E1, mod_mul_zero by lia. tauto.
Qed.

Lemma shifted_iter p r :
  0 <= shr_m r -> shifted (Zpos p) r (iter_pos shr_1 p r).
Proof.
  revert r. induction p as [p IH | p IH |]; intros r Hr; cbn [iter_pos].
  - pose proof (shifted_1 r Hr) as S1.
    assert (H1 : 0 <= shr_m (shr_1 r)) by apply S1.
    pose proof (IH _ H1) as S2.
    assert (H2 : 0 <= shr_m (iter_pos shr_1 p (shr_1 r))) by apply S2.
    pose proof (IH _ H2) as S3.
    replace (Zpos p~1) with (1 + Zpos p + Zpos p) by lia.
    eapply shifted_trans; [lia | lia | | exact S3].
    eapply shifted_trans; [lia | lia | exact S1 | exact S2].
  - pose proof (IH _ Hr) as S2.
    assert (H2 : 0 <= shr_m (iter_pos shr_1 p r)) by apply S2.
    pose proof (IH _ H2) as S3.
    replace (Zpos p~0) with (Zpos p + Zpos p) by lia.
    eapply shifted_trans; [lia | lia | exact S2 | exact S3].
  - apply shifted_1; assumption.
Qed.

(** [shr] by a non-negative amount. *)
Lemma shr_shifted r e n :
  0 <= shr_m r -> 0 <= n ->
  shifted n r (fst (shr r e n)) /\ snd (shr r e n) = e + n.
Proof.
  intros Hr Hn. destruct n as [|p|p]; try lia; cbn [shr fst snd].
  - split; [apply shifted_0; assumption | lia].
  - split; [apply shifted_iter; assumption | reflexivity].
Qed.

End Shift.

Section RoundAux.

Lemma fexp_eq e : fexp prec emax e = Z.max (e - 53) (-1074).
Proof. reflexivity. Qed.

Lemma canonical_iff m e :
  canonical_mantissa prec emax m e = true <->
  Z.max (Zpos (digits2_pos m) + e - 53) (-1074) = e.
Proof.
  unfold canonical_mantissa. rewrite fexp_eq, Z.eqb_eq. reflexivity.
Qed.

Lemma round_nearest_even_cases m l :
  round_nearest_even m l = m
  \/ (round_nearest_even m l = m + 1 /\ l <> loc_Exact).
Proof.
  destruct l as [|[ | | ]]; cbn [round_nearest_even]; auto;
    try (right; split; [reflexivity | discriminate]).
  destruct (Z.even m); auto. right; split; [reflexivity | discriminate].
Qed.

(** Packaging of a rounded mantissa [m] at exponent [e] (second
    [shr_fexp] of [binary_round_aux] and the overflow test). *)
Lemma round_aux_finish s m e :
  (0 <= m <= 2 ^ 52 /\ e = -1074) \/ (2 ^ 52 <= m <= 2 ^ 53 /\ -1074 <= e) ->
  let '(mrs, e') := shr_fexp prec emax m e loc_Exact in
  let r := match shr_m mrs with
           | Z0 => S754_zero s
           | Zpos p => if e' <=? emax - prec then S754_finite s p e' else S754_infinity s
           | Zneg _ => S754_nan
           end in
  (m = 0 /\ r = S754_zero s)
  \/ exists mf ef,
       canonical_mantissa prec emax mf ef = true /\ e <= ef
       /\ Zpos mf * 2 ^ (ef - e) = m
       /\ r = if ef <=? 971 then S754_finite s mf ef else S754_infinity s.
Proof.
  intros H. unfold shr_fexp. rewrite fexp_eq.
  destruct (Z.eq_dec m 0) as [-> | Hm0].
  { cbn [Zdigits2 shr_record_of_loc].
    assert (Hn : Z.max (0 + e - 53) (-1074) - e <= 0) by lia.
    destruct (Z.max (0 + e - 53) (-1074) - e) as [|p|p] eqn:En; try lia;
      cbn [shr shr_m]; left; split; reflexivity. }
  destruct (Z.eq_dec m (2 ^ 53)) as [-> | Hm53].
  { change (Zdigits2 (2 ^ 53)) with 54.
    assert (En : Z.max (54 + e - 53) (-1074) - e = 1) by lia.
    rewrite En. cbn [shr shr_record_of_loc iter_pos shr_1 shr_m].
    right. exists (2 ^ 52)%positive, (e + 1). split; [|split; [lia | split]].
    - apply canonical_iff. change (Zpos (digits2_pos (2 ^ 52))) with 53. lia.
    - replace (e + 1 - e) with 1 by lia. reflexivity.
    - reflexivity. }
  assert (Hpos : 0 < m) by lia.
  destruct m as [|p|p]; try lia.
  pose proof (digits2_pos_bounds p) as Hd.
  assert (Hd53 : Zpos (digits2_pos p) <= 53).
  { assert (Zpos (digits2_pos p) - 1 < 53); [|lia].
    apply pow2_lt_inv; lia. }
  assert (Hcan : Z.max (Zpos (digits2_pos p) + e - 53) (-1074) = e).
  { destruct H as [[_ ->] | [[Hlo _] He]]; [lia|].
    assert (52 < Zpos (digits2_pos p)); [|lia].
    apply pow2_lt_inv; lia. }
  cbn [Zdigits2 shr_record_of_loc]. rewrite Hcan, Z.sub_diag.
  cbn [shr shr_m]. right. exists p, e.
  split; [apply canonical_iff; assumption|]. split; [lia|]. split.
  - rewrite Z.sub_diag. lia.
  - reflexivity.
Qed.

(** What [binary_round_aux] returns on a non-negative mantissa that has at
    least as many digits as the format keeps. *)
Lemma round_aux_cases s m e l :
  0 <= m -> e <= fexp prec emax (Zdigits2 m + e) ->
  let e' := fexp prec emax (Zdigits2 m + e) in
  let m' := m / 2 ^ (e' - e) in
  exists m'',
    (m'' = m' \/ (m'' = m' + 1 /\ ~ (l = loc_Exact /\ m mod 2 ^ (e' - e) = 0)))
    /\ (e' = -1074 \/ 2 ^ 52 <= m')
    /\ ((m'' = 0 /\ binary_round_aux prec emax s m e l = S754_zero s)
        \/ exists mf ef,
             canonical_mantissa prec emax mf ef = true /\ e' <= ef
             /\ Zpos mf * 2 ^ (ef - e') = m''
             /\ binary_round_aux prec emax s m e l =
                if ef <=? 971 then S754_finite s mf ef else S754_infinity s).
Proof.
  intros Hm Hn e' m'.
  assert (Hn' : 0 <= e' - e) by (subst e'; lia).
  remember (binary_round_aux prec emax s m e l) as r eqn:Er.
  unfold binary_round_aux in Er.
  assert (E1 : shr_fexp prec emax m e l = shr (shr_record_of_loc m l) e (e' - e))
    by reflexivity.
  rewrite E1 in Er. clear E1.
  pose proof (shr_shifted (shr_record_of_loc m l) e (e' - e)) as Hs.
  rewrite shr_m_record_of_loc in Hs. specialize (Hs Hm Hn').
  destruct (shr (shr_record_of_loc m l) e (e' - e)) as [mrs e1].
  cbn [fst snd] in Hs. destruct Hs as [(Hs0 & Hs1 & Hs2) He1].
  rewrite shr_m_record_of_loc in Hs1. rewrite shr_m_record_of_loc in Hs2.
  rewrite loc_record_roundtrip in Hs2.
  replace e1 with e' in Er by lia. fold m' in Hs1.
  set (m'' := round_nearest_even (shr_m mrs) (loc_of_shr_record mrs)) in *.
  assert (Hcases : m'' = m' \/ (m'' = m' + 1 /\ ~ (l = loc_Exact /\ m mod 2 ^ (e' - e) = 0))).
  { subst m''. rewrite <- Hs1.
    destruct (round_nearest_even_cases (shr_m mrs) (loc_of_shr_record mrs))
      as [-> | [-> Hl]]; [left; reflexivity | right].
    split; [reflexivity|]. intros Hex. apply Hl, Hs2, Hex. }
  assert (Hm' : (0 <= m' < 2 ^ 52 /\ e' = -1074) \/ (2 ^ 52 <= m' < 2 ^ 53 /\ -1074 <= e')).
  { pose proof (pow2_pos (e' - e) Hn') as Hp.
    assert (He' : e' = Z.max (Zdigits2 m + e - 53) (-1074)) by reflexivity.
    destruct (Z.eq_dec m 0) as [Hz | Hz].
    - left. subst m. subst m'. rewrite Z.div_0_l by lia. cbn [Zdigits2] in He'. lia.
    - assert (Hmp : 0 < m) by lia.
      pose proof (Zdigits2_bounds m Hmp) as [Hlo Hhi].
      pose proof (Zdigits2_pos m Hmp) as Hdp.
      destruct (Z_lt_le_dec (Zdigits2 m + e - 53) (-1074)) as [Hsub | Hnorm].
      + left. split; [|lia]. split; [lia|].
        subst m'. apply Z.div_lt_upper_bound; [lia|].
        rewrite Z.mul_comm, <- pow2_split by lia.
        eapply Z.lt_le_trans; [exact Hhi|]. apply pow2_le. lia.
      + right. split; [|lia].
        assert (En : e' - e = Zdigits2 m - 53) by lia.
        subst m'. rewrite En in *. split.
        * apply Z.div_le_lower_bound; [lia|].
          rewrite Z.mul_comm, <- pow2_split by lia.
          replace (52 + (Zdigits2 m - 53)) with (Zdigits2 m - 1) by lia. exact Hlo.
        * apply Z.div_lt_upper_bound; [lia|].
          rewrite Z.mul_comm, <- pow2_split by lia.
          replace (53 + (Zdigits2 m - 53)) with (Zdigits2 m) by lia. exact Hhi. }
  exists m''. split; [exact Hcases|]. split; [lia|].
  assert (Hfin : (0 <= m'' <= 2 ^ 52 /\ e' = -1074) \/ (2 ^ 52 <= m'' <= 2 ^ 53 /\ -1074 <= e')) by lia.
  pose proof (round_aux_finish s m'' e' Hfin) as Hf.
  destruct (shr_fexp prec emax m'' e' loc_Exact) as [mrs2 e2].
  subst r. exact Hf.
Qed.

End RoundAux.

Section Order.

Lemma pow2_shift c e1 e2 :
  c <= e1 <= e2 -> 2 ^ (e2 - c) = 2 ^ (e2 - e1) * 2 ^ (e1 - c).
Proof.
  intros H. rewrite <- pow2_split by lia. f_equal. lia.
Qed.

Lemma bounded_iff m e :
  bounded prec emax m e = true <->
  canonical_mantissa prec emax m e = true /\ e <= 971.
Proof.
  unfold bounded. rewrite andb_true_iff, Z.leb_le. reflexivity.
Qed.

Lemma canonical_range m e :
  canonical_mantissa prec emax m e = true ->
  Zpos m < 2 ^ 53 /\ -1074 <= e /\ (-1074 < e -> 2 ^ 52 <= Zpos m).
Proof.
  rewrite canonical_iff. intros H.
  pose proof (digits2_pos_bounds m) as [Hlo Hhi].
  assert (Hd : Zpos (digits2_pos m) <= 53) by lia.
  split; [|split; [lia|]].
  - eapply Z.lt_le_trans; [exact Hhi|]. apply pow2_le. lia.
  - intros He. assert (Ed : Zpos (digits2_pos m) = 53) by lia.
    rewrite Ed in Hlo. exact Hlo.
Qed.

Lemma scaled_pos c m e : c <= e -> 0 < m -> 0 < scaled c m e.
Proof.
  intros Hc Hm. unfold scaled. pose proof (pow2_pos (e - c)). nia.
Qed.

(** A mantissa of 53 bits at a higher exponent dominates any mantissa
    below [2^53] at a lower one. *)
Lemma scaled_exp_lt c m1 e1 m2 e2 :
  m1 < 2 ^ 53 -> 2 ^ 52 <= m2 -> c <= e1 -> e1 < e2 ->
  scaled c m1 e1 < scaled c m2 e2.
Proof.
  intros H1 H2 Hc He.
  unfold scaled. rewrite (pow2_shift c e1 e2) by lia.
  pose proof (pow2_pos (e1 - c) ltac:(lia)) as HA.
  pose proof (pow2_le 1 (e2 - e1) ltac:(lia)) as HK. change (2 ^ 1) with 2 in HK.
  set (A := 2 ^ (e1 - c)) in *. set (K := 2 ^ (e2 - e1)) in *.
  assert (m1 * A < 2 ^ 53 * A) by nia.
  assert (2 ^ 53 * A <= 2 ^ 52 * K * A) by nia.
  assert (2 ^ 52 * K * A <= m2 * K * A) by nia.
  lia.
Qed.

(** Across exponents, canonical floats are ordered by exponent first. *)
Lemma canonical_exp_lt c m1 e1 m2 e2 :
  canonical_mantissa prec emax m1 e1 = true ->
  canonical_mantissa prec emax m2 e2 = true ->
  c <= e1 -> e1 < e2 ->
  scaled c (Zpos m1) e1 < scaled c (Zpos m2) e2.
Proof.
  intros C1 C2 Hc He.
  apply canonical_range in C1 as (H1 & L1 & _).
  apply canonical_range in C2 as (_ & _ & H2). specialize (H2 ltac:(lia)).
  apply scaled_exp_lt; assumption.
Qed.

Lemma scaled_same_exp c m1 m2 e :
  c <= e -> (scaled c m1 e <= scaled c m2 e <-> m1 <= m2).
Proof.
  intros Hc. unfold scaled. pose proof (pow2_pos (e - c) ltac:(lia)). nia.
Qed.

Lemma leb_pos_scaled c m1 e1 m2 e2 :
  canonical_mantissa prec emax m1 e1 = true ->
  canonical_mantissa prec emax m2 e2 = true ->
  c <= e1 -> c <= e2 ->
  (SFleb (S754_finite false m1 e1) (S754_finite false m2 e2) = true <->
   scaled c (Zpos m1) e1 <= scaled c (Zpos m2) e2).
Proof.
  intros C1 C2 H1 H2. unfold SFleb, SFcompare.
  destruct (Z.compare_spec e1 e2) as [-> | Hlt | Hgt].
  - rewrite scaled_same_exp by assumption.
    change (Pos.compare_cont Eq m1 m2) with (Pos.compare m1 m2).
    destruct (Pos.compare_spec m1 m2); split; intros; try reflexivity; try discriminate; lia.
  - pose proof (canonical_exp_lt c m1 e1 m2 e2 C1 C2 H1 Hlt).
    split; intros; [lia | reflexivity].
  - pose proof (canonical_exp_lt c m2 e2 m1 e1 C2 C1 H2 Hgt).
    split; intros; [discriminate | lia].
Qed.

End Order.

Section Sandwich.

Variables (s : bool) (m e : Z) (l : location) (mb : positive) (eb c : Z).
Hypothesis Hm : 0 <= m.
Hypothesis Hdigits : e <= fexp prec emax (Zdigits2 m + e).
Hypothesis Hb : bounded prec emax mb eb = true.
Hypothesis Hce : c <= e.
Hypothesis Hcb : c <= eb.

(** Rounding never crosses a representable upper bound. *)
Lemma round_aux_upper :
  scaled c m e <= scaled c (Zpos mb) eb ->
  (l <> loc_Exact -> scaled c m e < scaled c (Zpos mb) eb) ->
  binary_round_aux prec emax s m e l = S754_zero s
  \/ exists mf ef,
       binary_round_aux prec emax s m e l = S754_finite s mf ef
       /\ bounded prec emax mf ef = true /\ c <= ef
       /\ scaled c (Zpos mf) ef <= scaled c (Zpos mb) eb.
Proof.
  intros Hle Hlt.
  destruct (round_aux_cases s m e l Hm Hdigits) as (m'' & Hc & Hn & Hr).
  set (e' := fexp prec emax (Zdigits2 m + e)) in *.
  set (n := e' - e) in *. assert (Hn0 : 0 <= n) by (subst n; lia).
  apply bounded_iff in Hb as [Cb Eb].
  pose proof (canonical_range _ _ Cb) as (Hmb & Hebmin & _).
  pose proof (pow2_pos n Hn0) as HP.
  pose proof (pow2_pos (e - c) ltac:(lia)) as HA.
  pose proof (Z.div_mod m (2 ^ n) ltac:(lia)) as Hdm.
  pose proof (Z.mod_pos_bound m (2 ^ n) HP) as Hmod.
  assert (Hval : scaled c m'' e' <= scaled c (Zpos mb) eb).
  { assert (Ee' : 2 ^ (e' - c) = 2 ^ n * 2 ^ (e - c)).
    { subst n. apply pow2_shift. lia. }
    destruct Hc as [-> | [-> Hinex]].
    - unfold scaled in *. rewrite Ee'.
      set (P := 2 ^ n) in *. set (A := 2 ^ (e - c)) in *.
      set (q := m / P) in *. nia.
    - assert (Hstrict : scaled c (m / 2 ^ n) e' < scaled c (Zpos mb) eb).
      { destruct (Z.eq_dec (m mod 2 ^ n) 0) as [Hz | Hnz].
        - assert (Hl : l <> loc_Exact) by tauto. specialize (Hlt Hl).
          unfold scaled in *. rewrite Ee'.
          set (P := 2 ^ n) in *. set (A := 2 ^ (e - c)) in *.
          set (q := m / P) in *. nia.
        - unfold scaled in *. rewrite Ee'.
          set (P := 2 ^ n) in *. set (A := 2 ^ (e - c)) in *.
          set (q := m / P) in *. set (r := m mod P) in *.
          assert (q * P < m) by lia. nia. }
      destruct (Z_lt_le_dec eb e') as [Hlow | Hhigh].
      + exfalso. destruct Hn as [Hn | Hn]; [lia|].
        pose proof (scaled_exp_lt c (Zpos mb) eb (m / 2 ^ n) e' Hmb Hn Hcb Hlow).
        lia.
      + unfold scaled in *. rewrite (pow2_shift c e' eb) in * by lia.
        pose proof (pow2_pos (e' - c) ltac:(lia)) as HB.
        pose proof (pow2_pos (eb - e') ltac:(lia)) as HK.
        set (B := 2 ^ (e' - c)) in *. set (K := 2 ^ (eb - e')) in *.
        set (q := m / 2 ^ n) in *.
        assert (Hq : q < Zpos mb * K)
          by (apply (Z.mul_lt_mono_pos_r B); lia).
        assert ((q + 1) * B <= Zpos mb * K * B)
          by (apply Z.mul_le_mono_nonneg_r; lia).
        lia. }
  destruct Hr as [[_ Hr] | (mf & ef & Cf & Hef & Emf & Hr)]; [left; exact Hr|].
  right. exists mf, ef.
  assert (Hsc : scaled c (Zpos mf) ef = scaled c m'' e').
  { unfold scaled. rewrite <- Emf, (pow2_shift c e' ef) by lia. ring. }
  assert (Hefb : ef <= eb).
  { destruct (Z_lt_le_dec eb ef) as [Hgt|]; [|assumption].
    pose proof (canonical_exp_lt c mb eb mf ef Cb Cf Hcb Hgt). lia. }
  assert (Hle971 : (ef <=? 971) = true) by (apply Z.leb_le; lia).
  rewrite Hle971 in Hr. split; [exact Hr|]. split; [|split; [lia|lia]].
  apply bounded_iff. split; [assumption | lia].
Qed.

(** Rounding never crosses a representable lower bound. *)
Lemma round_aux_lower :
  scaled c (Zpos mb) eb <= scaled c m e ->
  binary_round_aux prec emax s m e l = S754_infinity s
  \/ exists mf ef,
       binary_round_aux prec emax s m e l = S754_finite s mf ef
       /\ bounded prec emax mf ef = true /\ c <= ef
       /\ scaled c (Zpos mb) eb <= scaled c (Zpos mf) ef.
Proof.
  intros Hle.
  destruct (round_aux_cases s m e l Hm Hdigits) as (m'' & Hc & Hn & Hr).
  set (e' := fexp prec emax (Zdigits2 m + e)) in *.
  set (n := e' - e) in *. assert (Hn0 : 0 <= n) by (subst n; lia).
  apply bounded_iff in Hb as [Cb Eb].
  pose proof (canonical_range _ _ Cb) as (Hmb & Hebmin & _).
  pose proof (pow2_pos n Hn0) as HP.
  pose proof (pow2_pos (e - c) ltac:(lia)) as HA.
  pose proof (Z.div_mod m (2 ^ n) ltac:(lia)) as Hdm.
  pose proof (Z.mod_pos_bound m (2 ^ n) HP) as Hmod.
  pose proof (scaled_pos c (Zpos mb) eb Hcb ltac:(lia)) as Hbpos.
  assert (Hfloor : scaled c (Zpos mb) eb <= scaled c (m / 2 ^ n) e').
  { assert (Ee' : 2 ^ (e' - c) = 2 ^ n * 2 ^ (e - c)).
    { subst n. apply pow2_shift. lia. }
    destruct (Z_lt_le_dec eb e') as [Hlow | Hhigh].
    - destruct Hn as [Hn | Hn]; [lia|].
      pose proof (scaled_exp_lt c (Zpos mb) eb (m / 2 ^ n) e' Hmb Hn Hcb Hlow).
      lia.
    - unfold scaled in *. rewrite (pow2_shift c e' eb) in * by lia.
      rewrite Ee' in *.
      pose proof (pow2_pos (eb - e') ltac:(lia)) as HK.
      set (P := 2 ^ n) in *. set (A := 2 ^ (e - c)) in *.
      set (K := 2 ^ (eb - e')) in *. set (q := m / P) in *.
      assert (Hq : Zpos mb * K < q + 1) by nia.
      assert (Zpos mb * K <= q) by lia. nia. }
  assert (Hval : scaled c (Zpos mb) eb <= scaled c m'' e').
  { eapply Z.le_trans; [exact Hfloor|]. apply scaled_same_exp; [lia|].
    destruct Hc as [-> | [-> _]]; lia. }
  destruct Hr as [[Hz _] | (mf & ef & Cf & Hef & Emf & Hr)].
  - exfalso. subst m''. unfold scaled in Hval at 2. lia.
  - assert (Hsc : scaled c (Zpos mf) ef = scaled c m'' e').
    { unfold scaled. rewrite <- Emf, (pow2_shift c e' ef) by lia. ring. }
    destruct (ef <=? 971) eqn:E971; [right | left; exact Hr].
    exists mf, ef. split; [exact Hr|]. split; [|split; [lia|lia]].
    apply bounded_iff. split; [assumption | apply Z.leb_le; assumption].
Qed.

End Sandwich.

Section Align.

Lemma iter_xO_pow2 m d : Zpos (Pos.iter xO m d) = Zpos m * 2 ^ Zpos d.
Proof.
  rewrite (Pos.iter_swap_gen _ _ Zpos xO (Z.mul 2)) by reflexivity.
  change (Pos.iter (Z.mul 2) (Zpos m) d) with (Z.shiftl (Zpos m) (Zpos d)).
  apply Z.shiftl_mul_pow2. lia.
Qed.

Lemma shl_align_spec mx ex ex' :
  snd (shl_align mx ex ex') = Z.min ex ex'
  /\ Zpos (fst (shl_align mx ex ex')) = Zpos mx * 2 ^ (ex - Z.min ex ex').
Proof.
  unfold shl_align. destruct (ex' - ex) as [|d|d] eqn:Ed; cbn [fst snd].
  - replace (Z.min ex ex') with ex by lia. rewrite Z.sub_diag. lia.
  - replace (Z.min ex ex') with ex by lia. rewrite Z.sub_diag. lia.
  - replace (Z.min ex ex') with ex' by lia. split; [reflexivity|].
    rewrite iter_xO_pow2. f_equal. f_equal. lia.
Qed.

Lemma Zdigits2_shift m k :
  0 < m -> 0 <= k -> Zdigits2 (m * 2 ^ k) = Zdigits2 m + k.
Proof.
  intros Hm Hk. pose proof (Zdigits2_bounds m Hm) as [Hlo Hhi].
  pose proof (Zdigits2_pos m Hm). pose proof (pow2_pos k Hk).
  apply Zdigits2_unique; [lia|].
  replace (Zdigits2 m + k - 1) with (Zdigits2 m - 1 + k) by lia.
  rewrite !pow2_split by lia. nia.
Qed.

(** [binary_round] is [binary_round_aux] on an aligned mantissa of the same
    value, with enough digits for the rounding lemmas. *)
Lemma binary_round_aligned s mx ex :
  exists mz ez,
    binary_round prec emax s mx ex
    = binary_round_aux prec emax s (Zpos mz) ez loc_Exact
    /\ ez = Z.min ex (fexp prec emax (Zpos (digits2_pos mx) + ex))
    /\ Zpos mz = Zpos mx * 2 ^ (ex - ez)
    /\ ez <= fexp prec emax (Zdigits2 (Zpos mz) + ez).
Proof.
  unfold binary_round.
  pose proof (shl_align_spec mx ex (fexp prec emax (Zpos (digits2_pos mx) + ex)))
    as [He Hm].
  destruct (shl_align mx ex (fexp prec emax (Zpos (digits2_pos mx) + ex)))
    as [mz ez]. cbn [fst snd] in He, Hm.
  exists mz, ez. split; [reflexivity|]. split; [exact He|].
  rewrite <- He in Hm. split; [exact Hm|].
  rewrite Hm, Zdigits2_shift by lia. cbn [Zdigits2].
  replace (Zpos (digits2_pos mx) + (ex - ez) + ez)
    with (Zpos (digits2_pos mx) + ex) by lia.
  lia.
Qed.

Lemma scaled_aligned c mx ex mz ez :
  c <= ez <= ex -> mz = mx * 2 ^ (ex - ez) -> scaled c mz ez = scaled c mx ex.
Proof.
  intros H ->. unfold scaled. rewrite (pow2_shift c ez ex) by lia. ring.
Qed.

Lemma binary_round_upper s mx ex mb eb c :
  bounded prec emax mb eb = true -> c <= ex -> c <= -1074 ->
  scaled c (Zpos mx) ex <= scaled c (Zpos mb) eb ->
  binary_round prec emax s mx ex = S754_zero s
  \/ exists mf ef,
       binary_round prec emax s mx ex = S754_finite s mf ef
       /\ bounded prec emax mf ef = true /\ c <= ef
       /\ scaled c (Zpos mf) ef <= scaled c (Zpos mb) eb.
Proof.
  intros Hb Hc Hc' Hle.
  destruct (binary_round_aligned s mx ex) as (mz & ez & -> & Ez & Em & Hd).
  assert (Hcz : c <= ez) by (rewrite Ez, fexp_eq; lia).
  pose proof (proj1 (bounded_iff _ _) Hb) as [Cb _].
  pose proof (canonical_range _ _ Cb) as (_ & Hebmin & _).
  rewrite <- (scaled_aligned c (Zpos mx) ex (Zpos mz) ez) in Hle by (auto; lia).
  apply round_aux_upper; try assumption; try lia. intros H; now elim H.
Qed.

Lemma binary_round_lower s mx ex mb eb c :
  bounded prec emax mb eb = true -> c <= ex -> c <= -1074 ->
  scaled c (Zpos mb) eb <= scaled c (Zpos mx) ex ->
  binary_round prec emax s mx ex = S754_infinity s
  \/ exists mf ef,
       binary_round prec emax s mx ex = S754_finite s mf ef
       /\ bounded prec emax mf ef = true /\ c <= ef
       /\ scaled c (Zpos mb) eb <= scaled c (Zpos mf) ef.
Proof.
  intros Hb Hc Hc' Hle.
  destruct (binary_round_aligned s mx ex) as (mz & ez & -> & Ez & Em & Hd).
  assert (Hcz : c <= ez) by (rewrite Ez, fexp_eq; lia).
  pose proof (proj1 (bounded_iff _ _) Hb) as [Cb _].
  pose proof (canonical_range _ _ Cb) as (_ & Hebmin & _).
  rewrite <- (scaled_aligned c (Zpos mx) ex (Zpos mz) ez) in Hle by (auto; lia).
  apply round_aux_lower; try assumption; try lia.
Qed.

End Align.

Section Operations.

Lemma one_eq : one = S754_finite false (2 ^ 52) (-52).
Proof. reflexivity. Qed.

Lemma one_bounded : bounded prec emax (2 ^ 52) (-52) = true.
Proof. reflexivity. Qed.

Lemma nonneg_finite_cases x :
  nonneg_finite x = true ->
  (exists s, x = S754_zero s)
  \/ (exists m e, x = S754_finite false m e /\ bounded prec emax m e = true).
Proof.
  unfold nonneg_finite. intros H.
  apply andb_true_iff in H as [H Hge]. apply andb_true_iff in H as [Hv Hf].
  destruct x as [s | s | | s m e]; try discriminate.
  - left. exists s. reflexivity.
  - destruct s; [discriminate|]. right. exists m, e. split; [reflexivity|exact Hv].
Qed.

Lemma nonneg_finite_zero s : nonneg_finite (S754_zero s) = true.
Proof. reflexivity. Qed.

Lemma nonneg_finite_pos m e :
  bounded prec emax m e = true -> nonneg_finite (S754_finite false m e) = true.
Proof. intros H. unfold nonneg_finite, valid. cbn. rewrite H. reflexivity. Qed.

(** Both sandwiches at once. *)
Lemma round_aux_between s m e l m1 e1 m2 e2 c :
  0 <= m -> e <= fexp prec emax (Zdigits2 m + e) ->
  bounded prec emax m1 e1 = true -> bounded prec emax m2 e2 = true ->
  c <= e -> c <= e1 -> c <= e2 ->
  scaled c (Zpos m1) e1 <= scaled c m e ->
  scaled c m e <= scaled c (Zpos m2) e2 ->
  (l <> loc_Exact -> scaled c m e < scaled c (Zpos m2) e2) ->
  exists mf ef,
    binary_round_aux prec emax s m e l = S754_finite s mf ef
    /\ bounded prec emax mf ef = true /\ c <= ef
    /\ scaled c (Zpos m1) e1 <= scaled c (Zpos mf) ef
    /\ scaled c (Zpos mf) ef <= scaled c (Zpos m2) e2.
Proof.
  intros Hm Hd B1 B2 Hc Hc1 Hc2 Hlo Hhi Hlt.
  destruct (round_aux_upper s m e l m2 e2 c Hm Hd B2 Hc Hc2 Hhi Hlt)
    as [Hz | (mf & ef & Hr & Bf & Hcf & Hle)];
  destruct (round_aux_lower s m e l m1 e1 c Hm Hd B1 Hc Hc1 Hlo)
    as [Hi | (mf' & ef' & Hr' & Bf' & Hcf' & Hge)]; try congruence.
  exists mf, ef. rewrite Hr in Hr'. injection Hr' as <- <-. auto.
Qed.

Lemma binary_round_between s mx ex m1 e1 m2 e2 c :
  bounded prec emax m1 e1 = true -> bounded prec emax m2 e2 = true ->
  c <= ex -> c <= -1074 ->
  scaled c (Zpos m1) e1 <= scaled c (Zpos mx) ex ->
  scaled c (Zpos mx) ex <= scaled c (Zpos m2) e2 ->
  exists mf ef,
    binary_round prec emax s mx ex = S754_finite s mf ef
    /\ bounded prec emax mf ef = true /\ c <= ef
    /\ scaled c (Zpos m1) e1 <= scaled c (Zpos mf) ef
    /\ scaled c (Zpos mf) ef <= scaled c (Zpos m2) e2.
Proof.
  intros B1 B2 Hc Hc' Hlo Hhi.
  destruct (binary_round_upper s mx ex m2 e2 c B2 Hc Hc' Hhi)
    as [Hz | (mf & ef & Hr & Bf & Hcf & Hle)];
  destruct (binary_round_lower s mx ex m1 e1 c B1 Hc Hc' Hlo)
    as [Hi | (mf' & ef' & Hr' & Bf' & Hcf' & Hge)]; try congruence.
  exists mf, ef. rewrite Hr in Hr'. injection Hr' as <- <-. auto.
Qed.

Lemma leb_one_scaled c m e :
  bounded prec emax m e = true -> c <= e -> c <= -52 ->
  (leb one (S754_finite false m e) = true <->
   scaled c (2 ^ 52) (-52) <= scaled c (Zpos m) e).
Proof.
  intros B Hc Hc'. apply bounded_iff in B as [C _].
  rewrite one_eq. unfold leb.
  apply (leb_pos_scaled c (2 ^ 52) (-52) m e); auto.
Qed.

Lemma leb_scaled_one c m e :
  bounded prec emax m e = true -> c <= e -> c <= -52 ->
  (leb (S754_finite false m e) one = true <->
   scaled c (Zpos m) e <= scaled c (2 ^ 52) (-52)).
Proof.
  intros B Hc Hc'. apply bounded_iff in B as [C _].
  rewrite one_eq. unfold leb.
  apply (leb_pos_scaled c m e (2 ^ 52) (-52)); auto.
Qed.

(** int64 -> float64 on the integers the form can produce. *)
Lemma of_int_range z :
  1 <= z <= 2 ^ 53 ->
  exists m e, of_int z = S754_finite false m e
              /\ bounded prec emax m e = true
              /\ leb one (of_int z) = true.
Proof.
  intros Hz. destruct z as [|p|p]; try lia.
  unfold of_int. cbn [binary_normalize].
  assert (B2 : bounded prec emax (2 ^ 52) 1 = true) by reflexivity.
  destruct (binary_round_between false p 0 (2 ^ 52) (-52) (2 ^ 52) 1 (-1074)
              one_bounded B2) as (mf & ef & Hr & Bf & Hcf & Hlo & Hhi);
    try lia.
  - unfold scaled. change (-52 - -1074) with 1022. change (0 - -1074) with (52 + 1022).
    rewrite pow2_split by lia. pose proof (pow2_pos 1022). nia.
  - unfold scaled. change (1 - -1074) with (1 + 1074). change (0 - -1074) with 1074.
    rewrite (pow2_split 1 1074) by lia. pose proof (pow2_pos 1074).
    change (2 ^ 1) with 2. nia.
  - exists mf, ef. rewrite Hr. split; [reflexivity|]. split; [assumption|].
    apply (leb_one_scaled (-1074)); auto; lia.
Qed.

Lemma of_int_nonneg z :
  0 <= z <= 2 ^ 53 -> nonneg_finite (of_int z) = true.
Proof.
  intros Hz. destruct (Z.eq_dec z 0) as [-> | Hnz]; [reflexivity|].
  destruct (of_int_range z ltac:(lia)) as (m & e & -> & B & _).
  apply nonneg_finite_pos; assumption.
Qed.

Lemma max_float_eq : max_float = S754_finite false (2 ^ 53 - 1) 971.
Proof. reflexivity. Qed.

Lemma max_float_bounded : bounded prec emax (2 ^ 53 - 1) 971 = true.
Proof. reflexivity. Qed.

(** The aligned mantissas of [SFadd]/[SFsub], in units of [2^c]. *)
Lemma scaled_shl_align c mx ex ez :
  c <= ez -> ez <= ex ->
  scaled c (Zpos (fst (shl_align mx ex ez))) ez = scaled c (Zpos mx) ex.
Proof.
  intros Hc He. destruct (shl_align_spec mx ex ez) as [_ Hm].
  replace (Z.min ex ez) with ez in Hm by lia.
  apply scaled_aligned; [lia | exact Hm].
Qed.

Lemma scaled_add c a b e : scaled c (a + b) e = scaled c a e + scaled c b e.
Proof. unfold scaled. ring. Qed.

Lemma scaled_sub c a b e : scaled c (a - b) e = scaled c a e - scaled c b e.
Proof. unfold scaled. ring. Qed.

(** Every finite binary64 but the largest leaves room for adding one. *)
Lemma below_max_float mx ex :
  bounded prec emax mx ex = true ->
  S754_finite false mx ex <> max_float ->
  scaled (-1074) (Zpos mx) ex + 2 ^ 1074
  <= scaled (-1074) (2 ^ 53 - 1) 971.
Proof.
  intros Bx Hne.
  pose proof (proj1 (bounded_iff _ _) Bx) as [Cx Ex].
  pose proof (canonical_range _ _ Cx) as (Hmx & Hex & _).
  unfold scaled.
  pose proof (pow2_pos (ex - -1074) ltac:(lia)) as HA.
  destruct (Z.eq_dec ex 971) as [-> | Ne].
  - assert (Zpos mx <> 2 ^ 53 - 1).
    { intros E. apply Hne. rewrite max_float_eq. f_equal. lia. }
    pose proof (pow2_le 1074 (971 - -1074) ltac:(lia)).
    set (T := 2 ^ (971 - -1074)) in *.
    assert (Zpos mx <= 2 ^ 53 - 2) by lia.
    assert (Zpos mx * T <= (2 ^ 53 - 2) * T) by nia.
    lia.
  - change (971 - -1074) with (1 + 2044).
    rewrite (pow2_split 1 2044) by lia. change (2 ^ 1) with 2.
    pose proof (pow2_le (ex - -1074) 2044 ltac:(lia)).
    pose proof (pow2_le 1074 2044 ltac:(lia)).
    set (A := 2 ^ (ex - -1074)) in *. set (T := 2 ^ 2044) in *.
    assert (Zpos mx * A <= (2 ^ 53 - 1) * T) by nia.
    lia.
Qed.

(** [x + 1] for a finite [x >= 0.0]: finite again, and at least [1.0]. *)
Lemma add_one_range x :
  nonneg_finite x = true ->
  exists m e, add x one = S754_finite false m e
              /\ bounded prec emax m e = true
              /\ leb one (add x one) = true.
Proof.
  intros Hx. destruct (nonneg_finite_cases x Hx) as [[s ->] | (mx & ex & -> & Bx)].
  { exists (2 ^ 52)%positive, (-52). repeat split. }
  destruct (Pos.eq_dec mx (2 ^ 53 - 1)) as [Em | Nm];
    [destruct (Z.eq_dec ex 971) as [Ee | Ne] |].
  { subst. exists (2 ^ 53 - 1)%positive, 971. repeat split. }
  all: assert (Hne : S754_finite false mx ex <> max_float)
         by (rewrite max_float_eq; congruence);
    pose proof (below_max_float mx ex Bx Hne) as Hroom;
    pose proof (proj1 (bounded_iff _ _) Bx) as [Cx Ex];
    pose proof (canonical_range _ _ Cx) as (Hmx & Hex & _);
    rewrite one_eq; unfold add; cbn [SFadd cond_Zopp];
    set (ez := Z.min ex (-52));
    set (p1 := fst (shl_align mx ex ez));
    set (p2 := fst (shl_align (2 ^ 52) (-52) ez));
    change (Zpos p1 + Zpos p2) with (Zpos (p1 + p2)); cbn [binary_normalize];
    assert (H1 : scaled (-1074) (Zpos p1) ez = scaled (-1074) (Zpos mx) ex)
      by (apply scaled_shl_align; lia);
    assert (H2 : scaled (-1074) (Zpos p2) ez = scaled (-1074) (2 ^ 52) (-52))
      by (apply scaled_shl_align; lia);
    assert (Hsum : scaled (-1074) (Zpos (p1 + p2)) ez
                   = scaled (-1074) (Zpos mx) ex + scaled (-1074) (2 ^ 52) (-52))
      by (rewrite Pos2Z.inj_add, scaled_add; lia);
    pose proof (scaled_pos (-1074) (Zpos mx) ex ltac:(lia) ltac:(lia)) as Hxpos;
    assert (Hone : scaled (-1074) (2 ^ 52) (-52) = 2 ^ 1074) by reflexivity;
    assert (Hlo' : scaled (-1074) (2 ^ 52) (-52) <= scaled (-1074) (Zpos (p1 + p2)) ez)
      by lia;
    assert (Hhi' : scaled (-1074) (Zpos (p1 + p2)) ez <= scaled (-1074) (2 ^ 53 - 1) 971)
      by lia;
    destruct (binary_round_between false (p1 + p2) ez (2 ^ 52) (-52) (2 ^ 53 - 1) 971
                (-1074) one_bounded max_float_bounded ltac:(lia) ltac:(lia) Hlo' Hhi')
      as (mf & ef & Hr & Bf & Hcf & Hlo & Hhi);
    exists mf, ef; split; [exact Hr|]; split; [assumption|];
    rewrite Hr; apply (leb_one_scaled (-1074)); auto; lia.
Qed.

Lemma leb_zero_l s x : nonneg_finite x = true -> leb (S754_zero s) x = true.
Proof.
  intros H. destruct (nonneg_finite_cases x H) as [[s' ->] | (m & e & -> & _)];
    reflexivity.
Qed.

(** [1 - y] for [0.0 <= y <= 1.0] stays in [0.0, 1.0]. *)
Lemma one_minus_range y :
  valid y = true -> geb y zero = true -> leb y one = true ->
  nonneg_finite (sub one y) = true /\ leb (sub one y) one = true.
Proof.
  intros Hv Hge Hle.
  destruct y as [s | s | | s my ey]; try discriminate;
    [split; reflexivity | destruct s; try discriminate |].
  destruct s; [discriminate|]. change (bounded prec emax my ey = true) in Hv.
  pose proof (proj1 (bounded_iff _ _) Hv) as [Cy Ey].
  pose proof (canonical_range _ _ Cy) as (Hmy & Hey & _).
  pose proof (proj1 (bounded_iff _ _) one_bounded) as [C1 _].
  apply (leb_scaled_one (-1074)) in Hle; try assumption; try lia.
  rewrite one_eq. unfold sub. cbn [SFsub cond_Zopp].
  set (ez := Z.min (-52) ey).
  set (p1 := fst (shl_align (2 ^ 52) (-52) ez)).
  set (p2 := fst (shl_align my ey ez)).
  assert (H1 : scaled (-1074) (Zpos p1) ez = scaled (-1074) (2 ^ 52) (-52))
    by (apply scaled_shl_align; lia).
  assert (H2 : scaled (-1074) (Zpos p2) ez = scaled (-1074) (Zpos my) ey)
    by (apply scaled_shl_align; lia).
  pose proof (scaled_pos (-1074) (Zpos p2) ez ltac:(lia) ltac:(lia)) as Hp2.
  destruct (Zpos p1 - Zpos p2) as [|d|d] eqn:Ed; cbn [binary_normalize].
  - split; reflexivity.
  - assert (Hd : scaled (-1074) (Zpos d) ez <= scaled (-1074) (2 ^ 52) (-52)).
    { rewrite <- Ed, scaled_sub. lia. }
    destruct (binary_round_upper false d ez (2 ^ 52) (-52) (-1074) one_bounded
                ltac:(lia) ltac:(lia) Hd) as [-> | (mf & ef & -> & Bf & Hcf & Hf)].
    + split; reflexivity.
    + split; [apply nonneg_finite_pos; assumption|].
      apply (leb_scaled_one (-1074)); auto; lia.
  - exfalso.
    assert (scaled (-1074) (Zpos p1 - Zpos p2) ez < 0).
    { rewrite Ed. unfold scaled. apply Z.mul_neg_pos; [lia|]. apply pow2_pos. lia. }
    rewrite scaled_sub in *. lia.
Qed.

Lemma Zdigits2_mul_ge a b :
  0 < a -> 0 < b -> Zdigits2 a + Zdigits2 b - 1 <= Zdigits2 (a * b).
Proof.
  intros Ha Hb.
  pose proof (Zdigits2_bounds a Ha) as [La _].
  pose proof (Zdigits2_bounds b Hb) as [Lb _].
  pose proof (Zdigits2_bounds (a * b) ltac:(nia)) as [_ Hab].
  pose proof (Zdigits2_pos a Ha). pose proof (Zdigits2_pos b Hb).
  pose proof (Zdigits2_pos (a * b) ltac:(nia)).
  assert (Zdigits2 a - 1 + (Zdigits2 b - 1) < Zdigits2 (a * b)); [|lia].
  apply pow2_lt_inv; try lia. rewrite pow2_split by lia.
  pose proof (pow2_pos (Zdigits2 a - 1) ltac:(lia)).
  pose proof (pow2_pos (Zdigits2 b - 1) ltac:(lia)).
  nia.
Qed.

(** [x * y] for a finite [x >= 0.0] and [0.0 <= y <= 1.0] stays in
    [0.0, x]. *)
Lemma mul_fraction_range x y :
  nonneg_finite x = true -> nonneg_finite y = true -> leb y one = true ->
  nonneg_finite (mul x y) = true /\ leb (mul x y) x = true.
Proof.
  intros Hx Hy Hle.
  destruct (nonneg_finite_cases x Hx) as [[sx ->] | (mx & ex & -> & Bx)];
    destruct (nonneg_finite_cases y Hy) as [[sy ->] | (my & ey & -> & By)];
    try (split; reflexivity).
  pose proof (proj1 (bounded_iff _ _) Bx) as [Cx Ex].
  pose proof (proj1 (bounded_iff _ _) By) as [Cy Ey].
  pose proof (canonical_range _ _ Cx) as (Hmx & Hex & Nx).
  pose proof (canonical_range _ _ Cy) as (Hmy & Hey & Ny).
  pose proof (proj1 (bounded_iff _ _) one_bounded) as [C1 _].
  assert (Hey52 : ey <= -52).
  { destruct (Z_lt_le_dec (-52) ey) as [Hgt|]; [|assumption].
    apply (leb_scaled_one (-1074)) in Hle; try assumption; try lia.
    pose proof (scaled_exp_lt (-1074) (2 ^ 52) (-52) (Zpos my) ey
                  ltac:(lia) (Ny ltac:(lia)) ltac:(lia) Hgt).
    lia. }
  assert (Hfrac : Zpos my <= 2 ^ (- ey)).
  { apply (leb_scaled_one ey) in Hle; [| assumption | lia | lia].
    unfold scaled in Hle. rewrite Z.sub_diag, Z.pow_0_r, Z.mul_1_r in Hle.
    replace (-52 - ey) with (- ey - 52) in Hle by lia.
    replace (- ey) with (52 + (- ey - 52)) by lia.
    rewrite pow2_split by lia. exact Hle. }
  unfold mul, leb. cbn [SFmul xorb].
  set (c := Z.min (ex + ey) (-1074)).
  assert (Hd : ex + ey <= fexp prec emax (Zdigits2 (Zpos (mx * my)) + (ex + ey))).
  { rewrite fexp_eq, Pos2Z.inj_mul.
    pose proof (Zdigits2_mul_ge (Zpos mx) (Zpos my) ltac:(lia) ltac:(lia)) as Hdig.
    pose proof (Zdigits2_pos (Zpos my) ltac:(lia)).
    apply canonical_iff in Cx. cbn [Zdigits2] in *. lia. }
  assert (Hval : scaled c (Zpos (mx * my)) (ex + ey) <= scaled c (Zpos mx) ex).
  { unfold scaled. rewrite Pos2Z.inj_mul.
    replace (ex - c) with (- ey + (ex + ey - c)) by lia.
    rewrite pow2_split by lia.
    pose proof (pow2_pos (ex + ey - c) ltac:(lia)).
    set (A := 2 ^ (ex + ey - c)) in *. set (F := 2 ^ (- ey)) in *.
    assert (Zpos mx * Zpos my <= Zpos mx * F) by nia. nia. }
  destruct (round_aux_upper false (Zpos (mx * my)) (ex + ey) loc_Exact mx ex c
              ltac:(lia) Hd Bx ltac:(lia) ltac:(lia) Hval)
    as [-> | (mf & ef & -> & Bf & Hcf & Hf)].
  - intros H; now elim H.
  - split; reflexivity.
  - split; [apply nonneg_finite_pos; assumption|].
    pose proof (proj1 (bounded_iff _ _) Bf) as [Cf _].
    apply (leb_pos_scaled c); auto; lia.
Qed.

Lemma Zdigits2_div_ge a b :
  0 < a -> 0 < b -> Zdigits2 a - Zdigits2 b <= Zdigits2 (a / b).
Proof.
  intros Ha Hb.
  pose proof (Zdigits2_bounds a Ha) as [La _].
  pose proof (Zdigits2_bounds b Hb) as [_ Ub].
  pose proof (Zdigits2_pos a Ha). pose proof (Zdigits2_pos b Hb).
  pose proof (Z.div_mod a b ltac:(lia)) as Hdm.
  pose proof (Z.mod_pos_bound a b Hb) as Hmod.
  pose proof (Z.div_pos a b ltac:(lia) Hb) as Hq.
  destruct (Z.eq_dec (a / b) 0) as [E0 | N0].
  - rewrite E0 in *. cbn [Zdigits2].
    assert (Zdigits2 a - 1 < Zdigits2 b); [|lia].
    apply pow2_lt_inv; lia.
  - pose proof (Zdigits2_bounds (a / b) ltac:(lia)) as [_ Uq].
    pose proof (Zdigits2_pos (a / b) ltac:(lia)).
    assert (Zdigits2 a - 1 < Zdigits2 (a / b) + Zdigits2 b); [|lia].
    apply pow2_lt_inv; try lia. rewrite pow2_split by lia.
    set (q := a / b) in *. set (Q := 2 ^ Zdigits2 q) in *.
    set (B := 2 ^ Zdigits2 b) in *.
    assert (a < (q + 1) * b) by nia.
    assert ((q + 1) * b <= Q * b) by nia.
    assert (Q * b < Q * B) by nia.
    lia.
Qed.

(** The integer quotient computed by [SFdiv_core_binary]. *)
Lemma div_core_spec mx ex my ey :
  exists q e' l,
    SFdiv_core_binary prec emax (Zpos mx) ex (Zpos my) ey = (q, e', l)
    /\ 0 <= q /\ e' <= ex - ey
    /\ e' <= fexp prec emax (Zdigits2 q + e')
    /\ q * Zpos my <= Zpos mx * 2 ^ (ex - ey - e')
    /\ (l <> loc_Exact -> q * Zpos my < Zpos mx * 2 ^ (ex - ey - e')).
Proof.
  unfold SFdiv_core_binary.
  set (d1 := Zdigits2 (Zpos mx)). set (d2 := Zdigits2 (Zpos my)).
  set (e' := Z.min (fexp prec emax (d1 + ex - (d2 + ey))) (ex - ey)).
  set (s := ex - ey - e').
  assert (Hs : 0 <= s) by (subst s e'; lia).
  set (m' := match s with
             | 0 => Zpos mx
             | Zpos _ => Z.shiftl (Zpos mx) s
             | Zneg _ => 0
             end).
  assert (Em : m' = Zpos mx * 2 ^ s).
  { subst m'. destruct s as [|p|p]; try lia.
    apply Z.shiftl_mul_pow2. lia. }
  pose proof (pow2_pos s Hs) as HP.
  pose proof (Z_div_mod m' (Zpos my) ltac:(lia)) as Hdm.
  destruct (Z.div_eucl m' (Zpos my)) as [q r] eqn:Eqr.
  destruct Hdm as [Hdm Hr].
  assert (Hq : q = m' / Zpos my) by (unfold Z.div; rewrite Eqr; reflexivity).
  exists q, e', (new_location (Zpos my) r). split; [reflexivity|].
  assert (Hm'pos : 0 < m') by nia.
  assert (Hq0 : 0 <= q) by (rewrite Hq; apply Z.div_pos; lia).
  split; [assumption|]. split; [subst e'; lia|]. split; [|split].
  - pose proof (Zdigits2_div_ge m' (Zpos my) Hm'pos ltac:(lia)) as Hdig.
    rewrite <- Hq in Hdig. rewrite Em, Zdigits2_shift in Hdig by lia.
    fold d1 d2 in Hdig.
    assert (Ee : e' = Z.min (Z.max (d1 + ex - (d2 + ey) - 53) (-1074)) (ex - ey))
      by reflexivity.
    assert (Es : s = ex - ey - e') by reflexivity.
    rewrite fexp_eq. lia.
  - fold s. rewrite <- Em. nia.
  - intros Hl. fold s. rewrite <- Em.
    assert (r <> 0); [|nia].
    intros ->. apply Hl. unfold new_location, new_location_even, new_location_odd.
    destruct (Z.even (Zpos my)); reflexivity.
Qed.

(** [x / y] for a finite [x >= 0.0] and a finite [y >= 1.0] stays in
    [0.0, x]. *)
Lemma div_by_ge_one_range x y :
  nonneg_finite x = true -> nonneg_finite y = true -> leb one y = true ->
  nonneg_finite (div x y) = true /\ leb (div x y) x = true.
Proof.
  intros Hx Hy Hle.
  destruct (nonneg_finite_cases y Hy) as [[sy ->] | (my & ey & -> & By)];
    [discriminate|].
  destruct (nonneg_finite_cases x Hx) as [[sx ->] | (mx & ex & -> & Bx)];
    [split; reflexivity|].
  pose proof (proj1 (bounded_iff _ _) Bx) as [Cx Ex].
  pose proof (proj1 (bounded_iff _ _) By) as [Cy Ey].
  pose proof (canonical_range _ _ Cx) as (Hmx & Hex & Nx).
  pose proof (canonical_range _ _ Cy) as (Hmy & Hey & Ny).
  assert (Hey52 : -52 <= ey).
  { destruct (Z_lt_le_dec ey (-52)) as [Hlt|]; [|assumption].
    apply (leb_one_scaled (-1074)) in Hle; try assumption; try lia.
    pose proof (scaled_exp_lt (-1074) (Zpos my) ey (2 ^ 52) (-52)
                  Hmy ltac:(lia) ltac:(lia) Hlt).
    lia. }
  assert (Hbig : 2 ^ 52 <= Zpos my * 2 ^ (ey + 52)).
  { apply (leb_one_scaled (-52)) in Hle; [| assumption | lia | lia].
    unfold scaled in Hle. rewrite Z.sub_diag, Z.pow_0_r, Z.mul_1_r in Hle.
    replace (ey + 52) with (ey - -52) by lia. exact Hle. }
  unfold div, leb. cbn [SFdiv xorb].
  destruct (div_core_spec mx ex my ey)
    as (q & e' & l & -> & Hq0 & He' & Hd & Hqle & Hqlt).
  set (c := Z.min e' (-1074)).
  set (s := ex - ey - e') in *.
  assert (Hs : 0 <= s) by (subst s; lia).
  assert (Hpow : 2 ^ (ex - c) * 2 ^ 52 = 2 ^ s * 2 ^ (ey + 52) * 2 ^ (e' - c)).
  { rewrite <- !pow2_split by lia. f_equal. lia. }
  pose proof (pow2_pos s Hs) as HS.
  pose proof (pow2_pos (ey + 52) ltac:(lia)) as HY.
  pose proof (pow2_pos (e' - c) ltac:(lia)) as HC.
  pose proof (pow2_pos (ex - c) ltac:(lia)) as HX.
  assert (Hval : scaled c q e' <= scaled c (Zpos mx) ex
                 /\ (l <> loc_Exact -> scaled c q e' < scaled c (Zpos mx) ex)).
  { unfold scaled.
    set (S := 2 ^ s) in *. set (Y := 2 ^ (ey + 52)) in *.
    set (C := 2 ^ (e' - c)) in *. set (X := 2 ^ (ex - c)) in *.
    assert (H1 : q * 2 ^ 52 <= q * (Zpos my * Y)) by nia.
    split.
    - assert (H2 : q * (Zpos my * Y) <= Zpos mx * S * Y) by nia.
      assert (H3 : q * C * 2 ^ 52 <= Zpos mx * S * Y * C) by nia.
      nia.
    - intros Hl. specialize (Hqlt Hl).
      assert (H2 : q * (Zpos my * Y) < Zpos mx * S * Y) by nia.
      assert (H3 : q * C * 2 ^ 52 < Zpos mx * S * Y * C) by nia.
      nia. }
  destruct Hval as [Hval Hvalt].
  destruct (round_aux_upper false q e' l mx ex c Hq0 Hd Bx ltac:(lia) ltac:(lia)
              Hval Hvalt) as [-> | (mf & ef & -> & Bf & Hcf & Hf)].
  - split; reflexivity.
  - split; [apply nonneg_finite_pos; assumption|].
    pose proof (proj1 (bounded_iff _ _) Bf) as [Cf _].
    apply (leb_pos_scaled c); auto; lia.
Qed.

End Operations.

Section Rational.

Lemma Qpow2_pos e : (0 < 2 ^ e)%Q.
Proof. apply Qpower_0_lt. reflexivity. Qed.

Lemma to_Q_scaled c m e :
  c <= e ->
  (to_Q (S754_finite false m e) == inject_Z (scaled c (Zpos m) e) * 2 ^ c)%Q.
Proof.
  intros Hc. unfold to_Q, scaled.
  rewrite inject_Z_mult, Zpower_Qpower by lia.
  rewrite <- Qmult_assoc, <- Qpower_plus by discriminate.
  replace (e - c + c) with e by lia. reflexivity.
Qed.

Lemma to_Q_pos m e : (0 < to_Q (S754_finite false m e))%Q.
Proof.
  unfold to_Q. apply Qmult_lt_0_compat; [reflexivity | apply Qpow2_pos].
Qed.

Lemma scaled_le_to_Q c m1 e1 m2 e2 :
  c <= e1 -> c <= e2 ->
  (scaled c (Zpos m1) e1 <= scaled c (Zpos m2) e2 <->
   (to_Q (S754_finite false m1 e1) <= to_Q (S754_finite false m2 e2))%Q).
Proof.
  intros H1 H2. rewrite (to_Q_scaled c m1 e1 H1), (to_Q_scaled c m2 e2 H2).
  rewrite Qmult_le_r by apply Qpow2_pos. rewrite Zle_Qle. reflexivity.
Qed.

(** On well-formed non-negative values, the float comparison is the
    comparison of the rational values. *)
Lemma leb_to_Q x y :
  nonneg_finite x = true -> nonneg_finite y = true ->
  (leb x y = true <-> (to_Q x <= to_Q y)%Q).
Proof.
  intros Hx Hy.
  destruct (nonneg_finite_cases x Hx) as [[sx ->] | (mx & ex & -> & Bx)];
    destruct (nonneg_finite_cases y Hy) as [[sy ->] | (my & ey & -> & By)].
  - split; [intros _; apply Qle_refl | reflexivity].
  - split; [intros _; apply Qlt_le_weak, to_Q_pos | reflexivity].
  - split; [discriminate|]. intros H. exfalso.
    apply (Qlt_not_le _ _ (to_Q_pos mx ex)). exact H.
  - apply bounded_iff in Bx as [Cx _]. apply bounded_iff in By as [Cy _].
    unfold leb. rewrite (leb_pos_scaled (Z.min ex ey)) by (auto; lia).
    apply scaled_le_to_Q; lia.
Qed.

End Rational.

Section Representable.

Lemma canonical_unique c m1 e1 m2 e2 :
  canonical_mantissa prec emax m1 e1 = true ->
  canonical_mantissa prec emax m2 e2 = true ->
  c <= e1 -> c <= e2 ->
  scaled c (Zpos m1) e1 = scaled c (Zpos m2) e2 ->
  m1 = m2 /\ e1 = e2.
Proof.
  intros C1 C2 H1 H2 E.
  destruct (Z.lt_trichotomy e1 e2) as [Hlt | [-> | Hgt]].
  - pose proof (canonical_exp_lt c m1 e1 m2 e2 C1 C2 H1 Hlt). lia.
  - split; [|reflexivity].
    pose proof (proj1 (scaled_same_exp c (Zpos m1) (Zpos m2) e2 H2) ltac:(lia)).
    pose proof (proj1 (scaled_same_exp c (Zpos m2) (Zpos m1) e2 H2) ltac:(lia)).
    lia.
  - pose proof (canonical_exp_lt c m2 e2 m1 e1 C2 C1 H2 Hgt). lia.
Qed.

(** A value that is already a binary64 number rounds to itself. *)
Lemma round_aux_representable s m e mb eb c :
  0 <= m -> e <= fexp prec emax (Zdigits2 m + e) ->
  bounded prec emax mb eb = true -> c <= e -> c <= eb ->
  scaled c m e = scaled c (Zpos mb) eb ->
  binary_round_aux prec emax s m e loc_Exact = S754_finite s mb eb.
Proof.
  intros Hm Hd Bb Hc Hcb E.
  destruct (round_aux_between s m e loc_Exact mb eb mb eb c Hm Hd Bb Bb Hc Hcb Hcb)
    as (mf & ef & -> & Bf & Hcf & Hlo & Hhi); try lia.
  { intros H; now elim H. }
  apply bounded_iff in Bf as [Cf _]. apply bounded_iff in Bb as [Cb _].
  destruct (canonical_unique c mf ef mb eb Cf Cb Hcf Hcb ltac:(lia)) as [-> ->].
  reflexivity.
Qed.

Lemma binary_round_representable s mx ex mb eb c :
  bounded prec emax mb eb = true -> c <= ex -> c <= -1074 ->
  scaled c (Zpos mx) ex = scaled c (Zpos mb) eb ->
  binary_round prec emax s mx ex = S754_finite s mb eb.
Proof.
  intros Bb Hc Hc' E.
  destruct (binary_round_between s mx ex mb eb mb eb c Bb Bb Hc Hc')
    as (mf & ef & -> & Bf & Hcf & Hlo & Hhi); try lia.
  apply bounded_iff in Bf as [Cf _].
  pose proof (proj1 (bounded_iff _ _) Bb) as [Cb _].
  pose proof (canonical_range _ _ Cb) as (_ & Heb & _).
  destruct (canonical_unique c mf ef mb eb Cf Cb Hcf ltac:(lia) ltac:(lia)) as [-> ->].
  reflexivity.
Qed.

(** Integers below [2^53] convert without rounding. *)
Lemma of_int_exact z :
  0 <= z <= 2 ^ 53 -> (to_Q (of_int z) == inject_Z z)%Q.
Proof.
  intros Hz.
  destruct (Z.eq_dec z 0) as [-> | Hz0]; [reflexivity|].
  destruct (Z.eq_dec z (2 ^ 53)) as [-> | Hz53]; [reflexivity|].
  destruct z as [|p|p]; try lia.
  pose proof (digits2_pos_bounds p) as [Hlo Hhi].
  set (d := Zpos (digits2_pos p)) in *.
  assert (Hd : 1 <= d <= 53).
  { split; [subst d; lia|]. assert (d - 1 < 53); [|lia].
    apply pow2_lt_inv; subst d; lia. }
  pose proof (pow2_pos (53 - d) ltac:(lia)) as Hk.
  set (mb := Z.to_pos (Zpos p * 2 ^ (53 - d))).
  assert (Emb : Zpos mb = Zpos p * 2 ^ (53 - d)) by (subst mb; apply Z2Pos.id; nia).
  assert (Bb : bounded prec emax mb (d - 53) = true).
  { apply bounded_iff. split; [|lia]. apply canonical_iff.
    change (Zpos (digits2_pos mb)) with (Zdigits2 (Zpos mb)).
    rewrite Emb, Zdigits2_shift by lia. cbn [Zdigits2]. fold d. lia. }
  unfold of_int. cbn [binary_normalize].
  rewrite (binary_round_representable false p 0 mb (d - 53) (-1074) Bb); try lia.
  - rewrite (to_Q_scaled (d - 53)) by lia. unfold scaled.
    rewrite Z.sub_diag, Z.pow_0_r, Z.mul_1_r, Emb, inject_Z_mult.
    rewrite Zpower_Qpower by lia.
    rewrite <- Qmult_assoc, <- Qpower_plus by discriminate.
    replace (53 - d + (d - 53)) with 0 by lia. apply Qmult_1_r.
  - unfold scaled. rewrite Emb.
    replace (0 - -1074) with (53 - d + (d - 53 - -1074)) by lia.
    rewrite pow2_split by lia. ring.
Qed.

(** Dividing by [1.0] changes nothing. *)
Lemma div_one x : nonneg_finite x = true -> div x one = x \/ exists s, x = S754_zero s.
Proof.
  intros Hx.
  destruct (nonneg_finite_cases x Hx) as [[sx ->] | (mx & ex & -> & Bx)];
    [right; exists sx; reflexivity | left].
  pose proof (proj1 (bounded_iff _ _) Bx) as [Cx Ex].
  pose proof (canonical_range _ _ Cx) as (Hmx & Hex & Nx).
  rewrite one_eq. unfold div. cbn [SFdiv xorb].
  destruct (div_core_spec mx ex (2 ^ 52) (-52))
    as (q & e' & l & Hcore & Hq0 & He' & Hd & Hqle & Hqlt).
  rewrite Hcore.
  (* the shift is at least 52 bits, so the quotient is exact *)
  unfold SFdiv_core_binary in Hcore.
  change (Zdigits2 (Zpos (2 ^ 52))) with 53 in Hcore.
  cbn [Zdigits2] in Hcore.
  pose proof (digits2_pos_bounds mx) as [Dlo Dhi].
  set (d := Zpos (digits2_pos mx)) in *.
  assert (Hd53 : 1 <= d <= 53).
  { split; [subst d; lia|]. assert (d - 1 < 53); [|lia].
    apply pow2_lt_inv; subst d; lia. }
  rewrite fexp_eq in Hcore.
  set (e0 := Z.min (Z.max (d + ex - (53 + -52) - 53) (-1074)) (ex - -52)) in *.
  assert (He0 : e0 = Z.max (d + ex - 54) (-1074)) by lia.
  set (s := ex - -52 - e0) in *.
  assert (Hs : 52 <= s) by lia.
  assert (Em : match s with
               | 0 => Zpos mx
               | Zpos _ => Z.shiftl (Zpos mx) s
               | Zneg _ => 0
               end = Zpos mx * 2 ^ (s - 52) * 2 ^ 52).
  { destruct s as [|ps|ps] eqn:Es; try lia.
    rewrite Z.shiftl_mul_pow2 by lia. rewrite <- Es.
    rewrite <- Z.mul_assoc, <- pow2_split by lia. f_equal. f_equal. lia. }
  rewrite Em in Hcore.
  pose proof (pow2_pos (s - 52) ltac:(lia)) as HP.
  assert (EP : 2 ^ (ex - Z.min e0 (-1074))
               = 2 ^ (s - 52) * 2 ^ (e0 - Z.min e0 (-1074))).
  { rewrite <- pow2_split by lia. f_equal. lia. }
  remember (2 ^ (s - 52)) as P eqn:HeqP.
  remember (Zpos mx * P) as q0 eqn:Hq0'.
  assert (Hdiv : Z.div_eucl (q0 * 2 ^ 52) (Zpos (2 ^ 52)) = (q0, 0)).
  { pose proof (Z_div_mod (q0 * 2 ^ 52) (Zpos (2 ^ 52)) ltac:(lia)) as H.
    destruct (Z.div_eucl _ _) as [q' r']. destruct H as [H Hr].
    change (Zpos (2 ^ 52)) with (2 ^ 52) in *.
    assert (q' = q0) by nia. subst q'. f_equal. lia. }
  rewrite Hdiv in Hcore. injection Hcore as <- <- <-.
  apply (round_aux_representable false _ _ mx ex (Z.min e0 (-1074)));
    try assumption; try lia.
  unfold scaled. rewrite EP, Hq0'. ring.
Qed.

End Representable.

(** * The feature deriver *)

Section Deriver.

Lemma wrap64_small z : - 2 ^ 63 <= z < 2 ^ 63 -> wrap64 z = z.
Proof.
  intros H. unfold wrap64. rewrite Z.mod_small by lia. lia.
Qed.

(** The frame after lines 107-109, for any widget values. *)
Lemma feature_deriver_columns p :
  feature_deriver p =
  Ok (make_input_data p ++
      [ ("ad_burden",
         CFloat (div (of_int (ads_listened p)) (add (listening_time p) one)));
        ("satisfaction_score",
         CFloat (mul (of_int (songs_played p)) (sub one (skip_rate p))));
        ("time_per_song",
         CFloat (div (listening_time p)
                     (of_int (wrap64 (songs_played p + 1))))) ]).
Proof. reflexivity. Qed.

Lemma valid_profile_fields p :
  valid_profile p = true ->
  nonneg_finite (listening_time p) = true
  /\ 0 <= songs_played p <= max_safe_integer
  /\ valid (skip_rate p) = true /\ geb (skip_rate p) zero = true
  /\ leb (skip_rate p) one = true
  /\ 0 <= ads_listened p <= max_safe_integer.
Proof.
  unfold valid_profile, nonneg_finite. rewrite !andb_true_iff, !Z.leb_le.
  tauto.
Qed.

Lemma feature_deriver_formulas p :
  - 2 ^ 63 <= songs_played p + 1 < 2 ^ 63 ->
  feature_deriver p
  = Ok (make_input_data p ++ derived_columns (derived_formulas p)).
Proof.
  intros H. rewrite feature_deriver_columns. unfold derived_columns,
    derived_formulas. cbn [ad_burden satisfaction_score time_per_song].
  rewrite (wrap64_small _ H). reflexivity.
Qed.

Lemma derived_of_frame_columns p d :
  derived_of_frame (make_input_data p ++ derived_columns d) = Some d.
Proof. destruct d. reflexivity. Qed.

Lemma valid_profile_derived p :
  valid_profile p = true ->
  exists df, feature_deriver p = Ok df
             /\ derived_of_frame df = Some (derived_formulas p).
Proof.
  intros Hv. apply valid_profile_fields in Hv as (_ & Hs & _).
  unfold max_safe_integer in Hs.
  eexists. split; [apply feature_deriver_formulas; lia|].
  apply derived_of_frame_columns.
Qed.

End Deriver.

(** * Claims about the feature deriver *)

(** C1. For every profile the form can submit, the deriver returns the
    ten raw columns unchanged, followed by exactly three new float64 columns
    holding [ads / (listening_time + 1)], [songs * (1 - skip_rate)] and
    [listening_time / (songs + 1)], in this order. *)
Theorem feature_deriver_adds_three_formulas (p : RawUserProfile) :
  valid_profile p = true ->
  exists df,
    feature_deriver p = Ok df
    /\ df = make_input_data p ++
            [ ("ad_burden",
               CFloat (div (of_int (ads_listened p)) (add (listening_time p) one)));
              ("satisfaction_score",
               CFloat (mul (of_int (songs_played p)) (sub one (skip_rate p))));
              ("time_per_song",
               CFloat (div (listening_time p) (of_int (songs_played p + 1)))) ]
    /\ List.length df = (List.length (make_input_data p) + 3)%nat
    /\ derived_of_frame df = Some (derived_formulas p).
Proof.
  intros Hv. apply valid_profile_fields in Hv as (_ & Hs & _).
  unfold max_safe_integer in Hs.
  assert (Hw : - 2 ^ 63 <= songs_played p + 1 < 2 ^ 63) by lia.
  eexists. split; [apply feature_deriver_formulas; exact Hw|].
  split; [reflexivity|]. split; [reflexivity|].
  apply derived_of_frame_columns.
Qed.

Lemma feature_deriver_adds_three_formulas_witness :
  exists df,
    feature_deriver scenario_1 = Ok df
    /\ df = make_input_data scenario_1 ++
            [ ("ad_burden",
               CFloat (div (of_int (ads_listened scenario_1))
                           (add (listening_time scenario_1) one)));
              ("satisfaction_score",
               CFloat (mul (of_int (songs_played scenario_1))
                           (sub one (skip_rate scenario_1))));
              ("time_per_song",
               CFloat (div (listening_time scenario_1)
                           (of_int (songs_played scenario_1 + 1)))) ]
    /\ List.length df = (List.length (make_input_data scenario_1) + 3)%nat
    /\ derived_of_frame df = Some (derived_formulas scenario_1).
Proof.
  apply (feature_deriver_adds_three_formulas scenario_1). vm_compute. reflexivity.
Defined.

(** C7. With listening time 60, 20 songs per day, skip rate 0.3 and 5 ads
    per week (whatever the other fields), the deriver yields
    [ad_burden = 5/61] (the double nearest to it, about 0.0820),
    [satisfaction_score = 20 * 0.7 = 14.0] exactly, and
    [time_per_song = 60/21] (the double nearest to it, about 2.857). *)
Theorem scenario_1_derived_values (p : RawUserProfile) :
  listening_time p = of_int 60 ->
  songs_played p = 20 ->
  skip_rate p = lit 3 1 ->
  ads_listened p = 5 ->
  exists df d,
    feature_deriver p = Ok df
    /\ derived_of_frame df = Some d
    /\ ad_burden d = div (of_int 5) (of_int 61)
    /\ (Qabs (to_Q (ad_burden d) - (5 # 61)) <= 1 # (2 ^ 57))%Q
    /\ ((8195 # 100000) <= to_Q (ad_burden d) <= (8205 # 100000))%Q
    /\ satisfaction_score d = mul (of_int 20) (lit 7 1)
    /\ satisfaction_score d = of_int 14
    /\ time_per_song d = div (of_int 60) (of_int 21)
    /\ (Qabs (to_Q (time_per_song d) - (60 # 21)) <= 1 # (2 ^ 52))%Q
    /\ ((28565 # 10000) <= to_Q (time_per_song d) <= (28575 # 10000))%Q.
Proof.
  intros Hl Hs Hk Ha.
  exists (make_input_data p ++ derived_columns (derived_formulas p)),
         (derived_formulas p).
  split; [apply feature_deriver_formulas; rewrite Hs; lia|].
  split; [apply derived_of_frame_columns|].
  unfold derived_formulas. cbn [ad_burden satisfaction_score time_per_song].
  rewrite Hl, Hs, Hk, Ha.
  repeat split; try (vm_compute; reflexivity);
    try (apply Qle_bool_iff; vm_compute; reflexivity).
Qed.

Lemma scenario_1_derived_values_witness :
  exists df d,
    feature_deriver scenario_1 = Ok df
    /\ derived_of_frame df = Some d
    /\ ad_burden d = div (of_int 5) (of_int 61)
    /\ (Qabs (to_Q (ad_burden d) - (5 # 61)) <= 1 # (2 ^ 57))%Q
    /\ ((8195 # 100000) <= to_Q (ad_burden d) <= (8205 # 100000))%Q
    /\ satisfaction_score d = mul (of_int 20) (lit 7 1)
    /\ satisfaction_score d = of_int 14
    /\ time_per_song d = div (of_int 60) (of_int 21)
    /\ (Qabs (to_Q (time_per_song d) - (60 # 21)) <= 1 # (2 ^ 52))%Q
    /\ ((28565 # 10000) <= to_Q (time_per_song d) <= (28575 # 10000))%Q.
Proof.
  apply (scenario_1_derived_values scenario_1); reflexivity.
Defined.

Section Ranges.

Lemma nonneg_finite_is_finite x : nonneg_finite x = true -> is_finite x = true.
Proof.
  unfold nonneg_finite. rewrite !andb_true_iff. tauto.
Qed.

Lemma nonneg_finite_geb_zero x : nonneg_finite x = true -> geb x zero = true.
Proof.
  unfold nonneg_finite. rewrite !andb_true_iff. tauto.
Qed.

Lemma nonneg_finite_to_Q x : nonneg_finite x = true -> (0 <= to_Q x)%Q.
Proof.
  intros H. destruct (nonneg_finite_cases x H) as [[s ->] | (m & e & -> & _)].
  - apply Qle_refl.
  - apply Qlt_le_weak, to_Q_pos.
Qed.

(** [songs * (1 - skip)] on the widget domain. *)
Lemma satisfaction_range songs skip :
  0 <= songs <= max_safe_integer ->
  valid skip = true -> geb skip zero = true -> leb skip one = true ->
  nonneg_finite (mul (of_int songs) (sub one skip)) = true
  /\ leb (mul (of_int songs) (sub one skip)) (of_int songs) = true.
Proof.
  intros Hs Hv Hge Hle. unfold max_safe_integer in Hs.
  destruct (one_minus_range skip Hv Hge Hle) as [Hk Hk1].
  apply mul_fraction_range; try assumption.
  apply of_int_nonneg. lia.
Qed.

(** [ads / (listening_time + 1)]. *)
Lemma ad_burden_range ads lt :
  0 <= ads <= max_safe_integer -> nonneg_finite lt = true ->
  nonneg_finite (div (of_int ads) (add lt one)) = true.
Proof.
  intros Ha Hl. unfold max_safe_integer in Ha.
  destruct (add_one_range lt Hl) as (m & e & E & B & H1).
  apply div_by_ge_one_range; try assumption.
  - apply of_int_nonneg. lia.
  - rewrite E. apply nonneg_finite_pos. exact B.
Qed.

(** [listening_time / (songs + 1)]. *)
Lemma time_per_song_range lt songs :
  nonneg_finite lt = true -> 0 <= songs <= max_safe_integer ->
  nonneg_finite (div lt (of_int (songs + 1))) = true.
Proof.
  intros Hl Hs. unfold max_safe_integer in Hs.
  destruct (of_int_range (songs + 1) ltac:(lia)) as (m & e & E & B & H1).
  apply div_by_ge_one_range; try assumption.
  rewrite E. apply nonneg_finite_pos. exact B.
Qed.

Lemma div_one_of_int ads :
  0 <= ads <= max_safe_integer -> div (of_int ads) one = of_int ads.
Proof.
  intros Ha. unfold max_safe_integer in Ha.
  destruct (div_one (of_int ads) (of_int_nonneg ads ltac:(lia))) as [E | [s E]];
    [exact E|].
  rewrite E. destruct s; reflexivity.
Qed.

Lemma nonneg_finite_well_formed x :
  nonneg_finite x = true -> valid x && is_finite x = true.
Proof.
  unfold nonneg_finite. rewrite !andb_true_iff. tauto.
Qed.

Lemma valid_profile_well_formed p :
  valid_profile p = true -> well_formed_features (derived_formulas p) = true.
Proof.
  intros Hv.
  apply valid_profile_fields in Hv as (Hl & Hs & Hkv & Hk0 & Hk1 & Ha).
  unfold well_formed_features, derived_formulas.
  cbn [forallb ad_burden satisfaction_score time_per_song].
  rewrite (nonneg_finite_well_formed _ (ad_burden_range _ _ Ha Hl)).
  rewrite (nonneg_finite_well_formed _
             (proj1 (satisfaction_range _ _ Hs Hkv Hk0 Hk1))).
  rewrite (nonneg_finite_well_formed _ (time_per_song_range _ _ Hl Hs)).
  reflexivity.
Qed.

End Ranges.

(** C4. On the widget domain (in particular listening time and songs per
    day non-negative) the deriver returns a frame, both divisors are finite
    and at least 1.0, and the three derived values are finite; with listening
    time 0 and 0 songs it yields [ad_burden = ads / 1 = ads] and
    [time_per_song = 0]. *)
Theorem feature_deriver_total_and_finite (p : RawUserProfile) :
  valid_profile p = true ->
  exists df d,
    feature_deriver p = Ok df
    /\ derived_of_frame df = Some d
    /\ d = derived_formulas p
    /\ is_finite (add (listening_time p) one) = true
    /\ leb one (add (listening_time p) one) = true
    /\ is_finite (of_int (songs_played p + 1)) = true
    /\ leb one (of_int (songs_played p + 1)) = true
    /\ is_finite (ad_burden d) = true
    /\ is_finite (satisfaction_score d) = true
    /\ is_finite (time_per_song d) = true
    /\ (listening_time p = zero -> songs_played p = 0 ->
        ad_burden d = div (of_int (ads_listened p)) one
        /\ ad_burden d = of_int (ads_listened p)
        /\ time_per_song d = zero).
Proof.
  intros Hv.
  apply valid_profile_fields in Hv as (Hl & Hs & Hkv & Hk0 & Hk1 & Ha).
  exists (make_input_data p ++ derived_columns (derived_formulas p)),
         (derived_formulas p).
  split; [apply feature_deriver_formulas; unfold max_safe_integer in Hs; lia|].
  split; [apply derived_of_frame_columns|]. split; [reflexivity|].
  destruct (add_one_range _ Hl) as (m1 & e1 & E1 & B1 & L1).
  destruct (of_int_range (songs_played p + 1)
              ltac:(unfold max_safe_integer in Hs; lia))
    as (m2 & e2 & E2 & B2 & L2).
  split; [rewrite E1; reflexivity|]. split; [exact L1|].
  split; [rewrite E2; reflexivity|]. split; [exact L2|].
  unfold derived_formulas. cbn [ad_burden satisfaction_score time_per_song].
  split; [apply nonneg_finite_is_finite, ad_burden_range; assumption|].
  split; [apply nonneg_finite_is_finite, satisfaction_range; assumption|].
  split; [apply nonneg_finite_is_finite, time_per_song_range; assumption|].
  intros El Es. rewrite El, Es.
  change (add zero one) with one. change (of_int (0 + 1)) with one.
  split; [reflexivity|]. split; [apply div_one_of_int; assumption | reflexivity].
Qed.

Lemma feature_deriver_total_and_finite_witness :
  exists df d,
    feature_deriver scenario_2 = Ok df
    /\ derived_of_frame df = Some d
    /\ is_finite (ad_burden d) = true
    /\ is_finite (satisfaction_score d) = true
    /\ is_finite (time_per_song d) = true
    /\ ad_burden d = div (of_int 5) one
    /\ ad_burden d = of_int 5
    /\ time_per_song d = zero.
Proof.
  destruct (feature_deriver_total_and_finite scenario_2 eq_refl)
    as (df & d & Hdf & Hd & _ & _ & _ & _ & _ & Fa & Fs & Ft & Hzero).
  destruct (Hzero eq_refl eq_refl) as (Ha1 & Ha2 & Ht).
  exists df, d. repeat split; assumption.
Defined.

(** C10. For a skip rate in [0.0, 1.0] and a non-negative number of songs,
    the satisfaction score is finite and lies between 0 and the number of
    songs, both in float64 comparison and as exact rational values. *)
Theorem satisfaction_score_bounds (p : RawUserProfile) :
  valid (skip_rate p) = true ->
  geb (skip_rate p) zero = true ->
  leb (skip_rate p) one = true ->
  0 <= songs_played p <= max_safe_integer ->
  exists df s,
    feature_deriver p = Ok df
    /\ float_column df "satisfaction_score" = Some s
    /\ s = mul (of_int (songs_played p)) (sub one (skip_rate p))
    /\ is_finite s = true
    /\ geb s zero = true
    /\ leb s (of_int (songs_played p)) = true
    /\ (0 <= to_Q s <= inject_Z (songs_played p))%Q.
Proof.
  intros Hv Hge Hle Hs.
  destruct (satisfaction_range _ _ Hs Hv Hge Hle) as [Hn Hb].
  eexists. eexists. split; [apply feature_deriver_columns|].
  split; [reflexivity|]. split; [reflexivity|].
  split; [apply nonneg_finite_is_finite; exact Hn|].
  split; [apply nonneg_finite_geb_zero; exact Hn|].
  split; [exact Hb|]. split; [apply nonneg_finite_to_Q; exact Hn|].
  unfold max_safe_integer in Hs.
  rewrite <- (of_int_exact (songs_played p)) by lia.
  apply leb_to_Q; try assumption. apply of_int_nonneg. lia.
Qed.

Lemma satisfaction_score_bounds_witness :
  exists df s,
    feature_deriver scenario_1 = Ok df
    /\ float_column df "satisfaction_score" = Some s
    /\ s = mul (of_int (songs_played scenario_1)) (sub one (skip_rate scenario_1))
    /\ is_finite s = true
    /\ geb s zero = true
    /\ leb s (of_int (songs_played scenario_1)) = true
    /\ (0 <= to_Q s <= inject_Z (songs_played scenario_1))%Q.
Proof.
  apply (satisfaction_score_bounds scenario_1);
    [reflexivity | reflexivity | reflexivity | vm_compute; split; discriminate].
Defined.

(** * Claims about the decision rule *)

Section Decision.

Lemma is_churn_risk_geb t p : (classify t p =? 1) = geb p t.
Proof. unfold classify. destruct (geb p t); reflexivity. Qed.

Lemma to_Q_neg m e : (to_Q (S754_finite true m e) < 0)%Q.
Proof.
  pose proof (to_Q_pos m e) as H. apply Qopp_lt_compat in H. exact H.
Qed.

Lemma threshold_nonneg_finite : nonneg_finite threshold = true.
Proof. reflexivity. Qed.

(** The threshold is the double nearest to 35/100. *)
Lemma threshold_value :
  threshold = S754_finite false 6305039478318694 (-54)
  /\ (Qabs (to_Q threshold - (35 # 100)) <= 1 # (2 ^ 55))%Q.
Proof.
  split; [reflexivity|]. apply Qle_bool_iff. vm_compute. reflexivity.
Qed.

End Decision.

(** C2. The comparison is inclusive: a probability is flagged exactly when
    it is [>=] the threshold, which for a well-formed float64 means that it is
    [+inf] or a finite value whose exact rational value is at least that of
    the threshold; the threshold itself (0.35) is flagged and 0.349999 is
    not. *)
Theorem threshold_comparison_inclusive (churn_proba : float64) :
  valid churn_proba = true ->
  (is_churn_risk churn_proba = true <-> geb churn_proba threshold = true)
  /\ (is_churn_risk churn_proba = true <->
      churn_proba = S754_infinity false
      \/ (is_finite churn_proba = true /\ (to_Q threshold <= to_Q churn_proba)%Q))
  /\ threshold = lit 35 2
  /\ is_churn_risk (lit 35 2) = true
  /\ is_churn_risk (lit 349999 6) = false.
Proof.
  intros Hv. unfold is_churn_risk, prediction. rewrite is_churn_risk_geb.
  split; [reflexivity|]. split; [|repeat split].
  pose proof threshold_nonneg_finite as Ht.
  rewrite (proj1 threshold_value) in *.
  destruct churn_proba as [s | [|] | | [|] m e].
  - split; [discriminate|]. intros [H | [_ H]]; [discriminate|].
    exfalso. revert H. apply Qlt_not_le. reflexivity.
  - split; [discriminate|]. intros [H | [H _]]; discriminate.
  - split; [left; reflexivity | reflexivity].
  - split; [discriminate|]. intros [H | [H _]]; discriminate.
  - split; [discriminate|]. intros [H | [_ H]]; [discriminate|].
    exfalso. revert H. apply Qlt_not_le.
    apply Qlt_trans with 0%Q; [apply to_Q_neg | reflexivity].
  - assert (Hp : nonneg_finite (S754_finite false m e) = true)
      by (apply nonneg_finite_pos; exact Hv).
    unfold geb. change SFleb with leb.
    rewrite (leb_to_Q _ _ Ht Hp).
    split; [intros H; right; split; [reflexivity | exact H]|].
    intros [H | [_ H]]; [discriminate | exact H].
Qed.

Lemma threshold_comparison_inclusive_witness :
  (is_churn_risk threshold = true <-> geb threshold threshold = true)
  /\ (is_churn_risk threshold = true <->
      threshold = S754_infinity false
      \/ (is_finite threshold = true /\ (to_Q threshold <= to_Q threshold)%Q))
  /\ threshold = lit 35 2
  /\ is_churn_risk (lit 35 2) = true
  /\ is_churn_risk (lit 349999 6) = false.
Proof.
  apply (threshold_comparison_inclusive threshold). reflexivity.
Defined.

(** C3. The threshold is the constant 0.35 (the double nearest to it) and
    not 0.5, and the classification is the comparison with this constant, for
    every float64: [prediction] is 1 exactly when [churn_proba >= 0.35] and 0
    exactly when not.  With 0.5 in its place the decision would change for
    the probabilities in [0.35, 0.5), where the script flags and 0.5 would
    not, and for no other value. *)
Theorem threshold_is_035_not_half (churn_proba : float64) :
  threshold = lit 35 2
  /\ threshold <> lit 5 1
  /\ (Qabs (to_Q threshold - (35 # 100)) <= 1 # (2 ^ 55))%Q
  /\ (prediction churn_proba = 1 <-> geb churn_proba (lit 35 2) = true)
  /\ (prediction churn_proba = 0 <-> geb churn_proba (lit 35 2) = false)
  /\ (prediction churn_proba <> classify (lit 5 1) churn_proba
      <-> geb churn_proba (lit 35 2) = true
          /\ ltb churn_proba (lit 5 1) = true)
  /\ (geb churn_proba (lit 35 2) = true ->
      ltb churn_proba (lit 5 1) = true ->
      prediction churn_proba = 1 /\ classify (lit 5 1) churn_proba = 0).
Proof.
  split; [reflexivity|]. split; [discriminate|].
  split; [exact (proj2 threshold_value)|].
  unfold prediction, classify. change threshold with (lit 35 2).
  assert (Hth : leb (lit 35 2) (lit 5 1) = true) by reflexivity.
  assert (Hup : geb churn_proba (lit 5 1) = true ->
                geb churn_proba (lit 35 2) = true).
  { unfold geb. intros H. exact (leb_trans _ _ _ Hth H). }
  assert (Hlt : geb churn_proba (lit 35 2) = true ->
                geb churn_proba (lit 5 1) = false ->
                ltb churn_proba (lit 5 1) = true).
  { unfold geb, ltb, SFleb, SFltb.
    rewrite (compare_antisym churn_proba (lit 5 1)).
    destruct (SFcompare churn_proba (lit 5 1)) as [[ | | ]|] eqn:Ec;
      cbn [option_map CompOpp]; intros H1 H2; try discriminate; try reflexivity.
    apply compare_none in Ec as [-> | Ec]; [discriminate H1 | discriminate Ec]. }
  destruct (geb churn_proba (lit 35 2)) eqn:E1;
    destruct (geb churn_proba (lit 5 1)) eqn:E2.
  - split; [tauto|]. split; [split; discriminate|]. split.
    + split; [intros H; now elim H|]. intros [_ H].
      apply ltb_not_geb in H. unfold geb in E2. congruence.
    + intros _ H. apply ltb_not_geb in H. unfold geb in E2. congruence.
  - split; [tauto|]. split; [split; discriminate|]. split.
    + split; [intros _; split; [reflexivity | apply Hlt; reflexivity]
             | intros _; discriminate].
    + intros _ _. split; reflexivity.
  - specialize (Hup eq_refl). discriminate.
  - split; [split; discriminate|]. split; [tauto|]. split.
    + split; [intros H; now elim H | intros [H _]; discriminate].
    + intros H; discriminate.
Qed.

Lemma threshold_is_035_not_half_witness :
  threshold = lit 35 2
  /\ threshold <> lit 5 1
  /\ (Qabs (to_Q threshold - (35 # 100)) <= 1 # (2 ^ 55))%Q
  /\ (prediction (lit 4 1) = 1 <-> geb (lit 4 1) (lit 35 2) = true)
  /\ (prediction (lit 4 1) = 0 <-> geb (lit 4 1) (lit 35 2) = false)
  /\ (prediction (lit 4 1) <> classify (lit 5 1) (lit 4 1)
      <-> geb (lit 4 1) (lit 35 2) = true /\ ltb (lit 4 1) (lit 5 1) = true)
  /\ (geb (lit 4 1) (lit 35 2) = true ->
      ltb (lit 4 1) (lit 5 1) = true ->
      prediction (lit 4 1) = 1 /\ classify (lit 5 1) (lit 4 1) = 0).
Proof.
  apply (threshold_is_035_not_half (lit 4 1)).
Defined.

(** C5. With the threshold held fixed (the script's 0.35 or any other),
    raising the probability never turns a flagged user into an unflagged
    one: if [p1 <= p2] and [p1] is flagged then [p2] is flagged. *)
Theorem churn_risk_monotone (t p1 p2 : float64) :
  leb p1 p2 = true ->
  classify t p1 = 1 ->
  classify t p2 = 1
  /\ is_churn_risk p1 && negb (is_churn_risk p2) = false.
Proof.
  intros Hle H1.
  assert (Hmono : forall t', geb p1 t' = true -> geb p2 t' = true).
  { intros t' H. unfold geb in *. exact (leb_trans _ _ _ H Hle). }
  split.
  - unfold classify in *. destruct (geb p1 t) eqn:E1; [|discriminate].
    rewrite (Hmono t E1). reflexivity.
  - unfold is_churn_risk, prediction. rewrite !is_churn_risk_geb.
    destruct (geb p1 threshold) eqn:E1; [|reflexivity].
    rewrite (Hmono threshold E1). reflexivity.
Qed.

Lemma churn_risk_monotone_witness :
  classify threshold (lit 6 1) = 1
  /\ is_churn_risk (lit 4 1) && negb (is_churn_risk (lit 6 1)) = false.
Proof.
  apply (churn_risk_monotone threshold (lit 4 1) (lit 6 1)); reflexivity.
Defined.

(** * Frames: reading and assigning columns *)

Section Frames.

Lemma getitem_setitem_same df col v : getitem (setitem df col v) col = Ok v.
Proof.
  induction df as [|[c w] rest IH]; cbn [setitem getitem].
  - rewrite String.eqb_refl. reflexivity.
  - destruct (String.eqb c col) eqn:E; cbn [getitem]; rewrite E;
      [reflexivity | exact IH].
Qed.

Lemma getitem_setitem_other df col col' v :
  String.eqb col col' = false ->
  getitem (setitem df col v) col' = getitem df col'.
Proof.
  intros Hne. induction df as [|[c w] rest IH]; cbn [setitem getitem].
  - rewrite Hne. reflexivity.
  - destruct (String.eqb c col) eqn:E; cbn [getitem].
    + apply String.eqb_eq in E. subst c. rewrite Hne. reflexivity.
    + destruct (String.eqb c col'); [reflexivity | exact IH].
Qed.

(** Writing back the value a column already holds changes nothing. *)
Lemma setitem_getitem_id df col v :
  getitem df col = Ok v -> setitem df col v = df.
Proof.
  induction df as [|[c w] rest IH]; cbn [setitem getitem]; [discriminate|].
  destruct (String.eqb c col) eqn:E.
  - intros H. injection H as ->. reflexivity.
  - intros H. rewrite (IH H). reflexivity.
Qed.

(** Assigning to a column the frame does not have appends it. *)
Lemma setitem_absent df col v :
  has_column df col = false -> setitem df col v = df ++ [(col, v)].
Proof.
  unfold has_column.
  induction df as [|[c w] rest IH]; cbn [setitem getitem app]; [reflexivity|].
  destruct (String.eqb c col); [discriminate|].
  intros H. rewrite (IH H). reflexivity.
Qed.

Lemma has_column_app df col col' v :
  has_column df col' = false -> String.eqb col col' = false ->
  has_column (df ++ [(col, v)]) col' = false.
Proof.
  unfold has_column. intros H Hne.
  induction df as [|[c w] rest IH]; cbn [app getitem].
  - rewrite Hne. reflexivity.
  - cbn [getitem] in H. destruct (String.eqb c col'); [discriminate|].
    exact (IH H).
Qed.

(** Lines 107-109 compute the three cells from the raw columns only: the
    assignments in between do not change what the later lines read. *)
Lemma feature_engineering_factor df :
  feature_engineering df
  = (cells <- derived_cells df ;; Ok (assign_derived df cells)).
Proof.
  unfold feature_engineering, derived_cells, assign_derived.
  destruct (getitem df "ads_listened_per_week") as [ads|]; [|reflexivity].
  destruct (getitem df "listening_time") as [lt|] eqn:Elt; [|reflexivity].
  cbn [bind]. destruct (cell_add lt (CInt 1)) as [lt1|]; [|reflexivity].
  cbn [bind]. destruct (cell_truediv ads lt1) as [a|]; [|reflexivity].
  cbn [bind].
  rewrite !(getitem_setitem_other df "ad_burden") by reflexivity.
  destruct (getitem df "songs_played_per_day") as [songs|] eqn:Es;
    [|reflexivity].
  destruct (getitem df "skip_rate") as [skip|]; [|reflexivity].
  cbn [bind]. destruct (cell_sub (CInt 1) skip) as [keep|]; [|reflexivity].
  cbn [bind]. destruct (cell_mul songs keep) as [sat|]; [|reflexivity].
  cbn [bind].
  rewrite !(getitem_setitem_other _ "satisfaction_score") by reflexivity.
  rewrite !(getitem_setitem_other df "ad_burden") by reflexivity.
  rewrite Elt, Es. cbn [bind].
  destruct (cell_add songs (CInt 1)) as [songs1|]; [|reflexivity].
  cbn [bind]. destruct (cell_truediv lt songs1); reflexivity.
Qed.

Lemma derived_cells_setitem df col v :
  String.eqb col "ads_listened_per_week" = false ->
  String.eqb col "listening_time" = false ->
  String.eqb col "songs_played_per_day" = false ->
  String.eqb col "skip_rate" = false ->
  derived_cells (setitem df col v) = derived_cells df.
Proof.
  intros H1 H2 H3 H4. unfold derived_cells.
  rewrite !getitem_setitem_other by assumption. reflexivity.
Qed.

Lemma derived_cells_assign df cells :
  derived_cells (assign_derived df cells) = derived_cells df.
Proof.
  destruct cells as [[a s] t]. unfold assign_derived.
  rewrite !derived_cells_setitem by reflexivity. reflexivity.
Qed.

Lemma assign_derived_again df cells :
  assign_derived (assign_derived df cells) cells = assign_derived df cells.
Proof.
  destruct cells as [[a s] t]. unfold assign_derived.
  set (d1 := setitem df "ad_burden" a).
  set (d2 := setitem d1 "satisfaction_score" s).
  set (d3 := setitem d2 "time_per_song" t).
  assert (Ha : getitem d3 "ad_burden" = Ok a).
  { subst d3 d2 d1. rewrite !getitem_setitem_other by reflexivity.
    apply getitem_setitem_same. }
  rewrite (setitem_getitem_id d3 _ _ Ha).
  assert (Hs : getitem d3 "satisfaction_score" = Ok s).
  { subst d3 d2. rewrite getitem_setitem_other by reflexivity.
    apply getitem_setitem_same. }
  rewrite (setitem_getitem_id d3 _ _ Hs).
  apply setitem_getitem_id. subst d3. apply getitem_setitem_same.
Qed.

Lemma truediv_is_float a b c :
  cell_truediv a b = Ok c -> exists f, c = CFloat f.
Proof.
  unfold cell_truediv, float_op.
  destruct (to_float a), (to_float b); try discriminate.
  intros H. injection H as <-. eauto.
Qed.

End Frames.

(** * Claims about loading, scoring and rendering *)

Section Page.

Lemma prefix_append a b : String.prefix a (String.append a b) = true.
Proof.
  induction a as [|c a IH]; cbn [String.append String.prefix].
  - destruct b; reflexivity.
  - destruct (ascii_dec c c); [exact IH | congruence].
Qed.

Lemma scored_on_click pl p df :
  In df (snd (on_click pl p)) -> feature_deriver p = Ok df.
Proof.
  unfold on_click. destruct pl as [pl|]; [|contradiction].
  destruct (feature_deriver p) as [input_data | e]; cbn [snd In].
  - intros [-> | []]. reflexivity.
  - contradiction.
Qed.

(** Whatever a run hands to the classifier is the deriver's output for the
    profile of that run. *)
Lemma scored_in_script cache i df :
  In df (scored (script cache i)) -> feature_deriver (profile i) = Ok df.
Proof.
  unfold script.
  destruct (cached_load cache (joblib_load i)) as [[[pl | e] els] cache'].
  - destruct (clicked i).
    + pose proof (scored_on_click pl (profile i) df) as H.
      destruct (on_click pl (profile i)) as [shown frames]. exact H.
    + contradiction.
  - contradiction.
Qed.

(** A failed scoring call, as rendered by the generic handler. *)
Lemma score_and_render_failure pl input_data e :
  pl input_data = Raise e -> is_Exception e = true ->
  score_and_render pl input_data
  = [ st_error (String.append predict_error_prefix (exn_str e));
      st_warning predict_warning_message ].
Proof.
  intros Hpl He. unfold score_and_render. rewrite Hpl, He. reflexivity.
Qed.

(** One run in which no pipeline can be obtained. *)
Lemma script_load_failure cache i rest :
  load_keeps_failing cache (i :: rest) = true ->
  load_keeps_failing (cache_after (script cache i)) rest = true
  /\ scored (script cache i) = []
  /\ load_failure_page i (script cache i).
Proof.
  unfold script, cached_load, load_model_pipeline, load_failure_page.
  cbn [load_keeps_failing].
  destruct cache as [[pl|]|]; try discriminate.
  - intros H. cbn [replayed on_click]. destruct (clicked i); cbn; auto.
  - destruct (joblib_load i) as [pl | e]; [discriminate|].
    destruct (is_FileNotFoundError e) eqn:Ef; intros H.
    + cbn [on_click]. destruct (clicked i); cbn; auto.
    + cbn. split; [exact H|]. split; [reflexivity|]. right. exists e. auto.
Qed.

Lemma load_failure_page_shape i out :
  load_failure_page i out ->
  shows_prediction (page out) = false
  /\ existsb is_scoring_failure_element (page out) = false.
Proof.
  intros [-> | (e & _ & _ & ->)]; [split; vm_compute; reflexivity|].
  unfold uncaught. destruct (is_Exception e); split; reflexivity.
Qed.

(** The remembered missing file blocks every later load. *)
Lemma missing_file_keeps_failing runs :
  load_keeps_failing (Some None) runs = true.
Proof. induction runs as [|i runs IH]; [reflexivity | exact IH]. Qed.

(** The derived cells of a frame that holds the inputs of a profile. *)
Lemma derived_cells_inputs df p :
  holds_inputs df p ->
  derived_cells df
  = Ok (CFloat (div (of_int (ads_listened p)) (add (listening_time p) one)),
        CFloat (mul (of_int (songs_played p)) (sub one (skip_rate p))),
        CFloat (div (listening_time p)
                    (of_int (wrap64 (songs_played p + 1))))).
Proof.
  intros (Ha & Hl & Hs & Hk). unfold derived_cells.
  rewrite Ha, Hl, Hs, Hk. reflexivity.
Qed.

Lemma getitem_assign_derived df cells col :
  is_derived_column col = false ->
  getitem (assign_derived df cells) col = getitem df col.
Proof.
  unfold is_derived_column. intros H.
  apply orb_false_iff in H as [H Ht]. apply orb_false_iff in H as [Ha Hs].
  rewrite String.eqb_sym in Ha, Hs, Ht.
  destruct cells as [[a s] t]. unfold assign_derived.
  rewrite !getitem_setitem_other by assumption. reflexivity.
Qed.

Lemma derived_of_assign df a s t :
  derived_of_frame (assign_derived df (CFloat a, CFloat s, CFloat t))
  = Some {| ad_burden := a; satisfaction_score := s; time_per_song := t |}.
Proof.
  unfold derived_of_frame, float_column, assign_derived.
  rewrite getitem_setitem_same.
  rewrite (getitem_setitem_other _ "time_per_song" "satisfaction_score")
    by reflexivity.
  rewrite getitem_setitem_same.
  rewrite (getitem_setitem_other _ "time_per_song" "ad_burden") by reflexivity.
  rewrite (getitem_setitem_other _ "satisfaction_score" "ad_burden")
    by reflexivity.
  rewrite getitem_setitem_same. reflexivity.
Qed.

End Page.

(** C6. The derivation is a function of the four inputs it reads and has
    no effect beyond the three columns it assigns.  For a valid profile [p]
    and any frame [df'] that holds the inputs of [p], whatever else it holds
    (other columns, another column order, derived columns left by an earlier
    invocation): the invocation on [df'] succeeds and yields the same
    DerivedFeatures [d], bit for bit, as the invocation on the frame the
    script builds from [p]; [d] consists of finite canonical binary64 values;
    every column other than the three derived ones is left as it was, in both
    frames; and a second invocation on the frame that the first one has
    written to returns it unchanged. *)
Theorem feature_deriver_deterministic
    (p : RawUserProfile) (df' : DataFrame) :
  valid_profile p = true ->
  holds_inputs df' p ->
  exists df df'' d,
    feature_deriver p = Ok df
    /\ derived_of_frame df = Some d
    /\ well_formed_features d = true
    /\ feature_engineering df' = Ok df''
    /\ derived_of_frame df'' = Some d
    /\ feature_engineering df = Ok df
    /\ feature_engineering df'' = Ok df''
    /\ (forall col, is_derived_column col = false ->
                    getitem df col = getitem (make_input_data p) col)
    /\ (forall col, is_derived_column col = false ->
                    getitem df'' col = getitem df' col).
Proof.
  intros Hv Hin.
  pose proof (valid_profile_fields p Hv) as (_ & Hs & _).
  unfold max_safe_integer in Hs.
  assert (Hw : wrap64 (songs_played p + 1) = songs_played p + 1)
    by (apply wrap64_small; lia).
  assert (H0 : holds_inputs (make_input_data p) p) by (repeat split).
  pose proof (derived_cells_inputs _ _ H0) as C0.
  pose proof (derived_cells_inputs _ _ Hin) as C1.
  rewrite Hw in C0, C1.
  set (cells := (CFloat (div (of_int (ads_listened p))
                             (add (listening_time p) one)),
                 CFloat (mul (of_int (songs_played p))
                             (sub one (skip_rate p))),
                 CFloat (div (listening_time p)
                             (of_int (songs_played p + 1))))) in *.
  assert (E0 : feature_engineering (make_input_data p)
               = Ok (assign_derived (make_input_data p) cells))
    by (rewrite feature_engineering_factor, C0; reflexivity).
  assert (E1 : feature_engineering df' = Ok (assign_derived df' cells))
    by (rewrite feature_engineering_factor, C1; reflexivity).
  assert (Again : forall f, derived_cells f = Ok cells ->
            feature_engineering (assign_derived f cells)
            = Ok (assign_derived f cells)).
  { intros f Hf.
    rewrite feature_engineering_factor, derived_cells_assign, Hf.
    cbn [bind]. rewrite assign_derived_again. reflexivity. }
  exists (assign_derived (make_input_data p) cells),
         (assign_derived df' cells), (derived_formulas p).
  split; [exact E0|].
  split; [apply derived_of_assign|].
  split; [apply valid_profile_well_formed; exact Hv|].
  split; [exact E1|].
  split; [apply derived_of_assign|].
  split; [apply Again; exact C0|].
  split; [apply Again; exact C1|].
  split; intros col Hc; apply getitem_assign_derived; exact Hc.
Qed.

Lemma feature_deriver_deterministic_witness :
  let df' := [ ("time_per_song", CObj "stale");
               ("skip_rate", CFloat (lit 3 1));
               ("songs_played_per_day", CInt 20);
               ("listening_time", CFloat (of_int 60));
               ("ads_listened_per_week", CInt 5) ] in
  exists df df'' d,
    feature_deriver scenario_1 = Ok df
    /\ derived_of_frame df = Some d
    /\ well_formed_features d = true
    /\ feature_engineering df' = Ok df''
    /\ derived_of_frame df'' = Some d
    /\ feature_engineering df = Ok df
    /\ feature_engineering df'' = Ok df''
    /\ (forall col, is_derived_column col = false ->
                    getitem df col = getitem (make_input_data scenario_1) col)
    /\ (forall col, is_derived_column col = false ->
                    getitem df'' col = getitem df' col).
Proof.
  intros df'. apply (feature_deriver_deterministic scenario_1 df').
  - reflexivity.
  - repeat split.
Defined.

(** C8 as stated fails: a load that fails with anything but a missing file
    is not remembered.  In this session the first run cannot unpickle the
    artifact and scores nothing; the rerun loads again and succeeds; the
    click that follows is scored and shows a prediction. *)
Lemma load_failure_is_retried :
  let runs := [ {| joblib_load := Raise corrupt_artifact;
                   profile := scenario_1; clicked := false |};
                {| joblib_load := Ok (constant_pipeline (lit 4 1));
                   profile := scenario_1; clicked := false |};
                {| joblib_load := Ok (constant_pipeline (lit 4 1));
                   profile := scenario_1; clicked := true |} ] in
  exists df out1 out2 out3,
    session None runs = [out1; out2; out3]
    /\ page out1 = [ st_exception corrupt_artifact ]
    /\ scored out1 = []
    /\ cache_after out1 = None
    /\ scored out3 = [df]
    /\ shows_prediction (page out3) = true
    /\ In (st_error high_risk_message) (page out3)
    /\ ~ load_failure_is_final.
Proof.
  intros runs. do 4 eexists.
  split; [reflexivity|]. split; [reflexivity|]. split; [reflexivity|].
  split; [reflexivity|]. split; [reflexivity|]. split; [reflexivity|].
  split; [vm_compute; do 3 right; left; reflexivity|].
  intros H.
  specialize (H {| joblib_load := Raise corrupt_artifact;
                   profile := scenario_1; clicked := false |}
                corrupt_artifact
                [ {| joblib_load := Ok (constant_pipeline (lit 4 1));
                     profile := scenario_1; clicked := false |};
                  {| joblib_load := Ok (constant_pipeline (lit 4 1));
                     profile := scenario_1; clicked := true |} ] eq_refl).
  apply Forall_inv_tail in H. apply Forall_inv_tail in H.
  apply Forall_inv in H. destruct H as [H _].
  vm_compute in H. discriminate H.
Qed.

(** C8, amended. A run in which loading fails produces no prediction: for
    as long as no load of the session has succeeded, every run scores no
    frame, shows no element of a result and no scoring-failure message; its
    page is the missing-file message, or what Streamlit shows of the
    exception that escaped the script.  A missing file is remembered: it
    fills the cache, and from then on the condition holds whatever the later
    runs would load. *)
Theorem load_failure_blocks_prediction
    (runs : list run_input) (cache : resource_cache) :
  load_keeps_failing cache runs = true ->
  Forall2 (fun i out =>
             scored out = []
             /\ load_failure_page i out
             /\ shows_prediction (page out) = false
             /\ existsb is_scoring_failure_element (page out) = false)
          runs (session cache runs)
  /\ (forall i e, joblib_load i = Raise e -> is_FileNotFoundError e = true ->
                  cache_after (script None i) = Some None)
  /\ (forall later, load_keeps_failing (Some None) later = true).
Proof.
  intros Hl. split; [|split].
  - revert cache Hl. induction runs as [|i runs IH]; intros cache Hl;
      cbn [session]; [constructor|].
    destruct (script_load_failure cache i runs Hl) as (Hrest & Hscored & Hpage).
    constructor; [|apply IH; exact Hrest].
    split; [exact Hscored|]. split; [exact Hpage|].
    apply (load_failure_page_shape i). exact Hpage.
  - intros i e Hi He. unfold script, cached_load, load_model_pipeline.
    rewrite Hi, He. destruct (clicked i); reflexivity.
  - apply missing_file_keeps_failing.
Qed.

Lemma load_failure_blocks_prediction_witness :
  let runs := [ {| joblib_load := Raise corrupt_artifact;
                   profile := scenario_1; clicked := false |};
                {| joblib_load := Raise missing_artifact;
                   profile := scenario_1; clicked := false |};
                {| joblib_load := Ok (constant_pipeline (lit 4 1));
                   profile := scenario_2; clicked := true |} ] in
  Forall2 (fun i out =>
             scored out = []
             /\ load_failure_page i out
             /\ shows_prediction (page out) = false
             /\ existsb is_scoring_failure_element (page out) = false)
          runs (session None runs)
  /\ (forall i e, joblib_load i = Raise e -> is_FileNotFoundError e = true ->
                  cache_after (script None i) = Some None)
  /\ (forall later, load_keeps_failing (Some None) later = true).
Proof.
  intros runs. apply (load_failure_blocks_prediction runs None). reflexivity.
Defined.

(** C9 as stated fails: the run that ends in a ValueError and the run that
    ends in a TypeError with the same text render the same page and score the
    same frame, so no function of the result tells the kind of the failure. *)
Lemma scoring_error_kind_not_surfaced :
  is_Exception schema_mismatch_error = true
  /\ is_Exception inference_error = true
  /\ exn_cls schema_mismatch_error <> exn_cls inference_error
  /\ on_click (Some (failing_pipeline schema_mismatch_error)) scenario_1
     = on_click (Some (failing_pipeline inference_error)) scenario_1
  /\ ~ error_kind_observable.
Proof.
  split; [reflexivity|]. split; [reflexivity|]. split; [discriminate|].
  split; [reflexivity|].
  intros [kind_of H].
  pose proof (H (failing_pipeline schema_mismatch_error) scenario_1 _
                schema_mismatch_error (feature_deriver_columns scenario_1)
                eq_refl eq_refl) as H1.
  pose proof (H (failing_pipeline inference_error) scenario_1 _
                inference_error (feature_deriver_columns scenario_1)
                eq_refl eq_refl) as H2.
  change (on_click (Some (failing_pipeline inference_error)) scenario_1)
    with (on_click (Some (failing_pipeline schema_mismatch_error)) scenario_1) in H2.
  rewrite H1 in H2. discriminate H2.
Qed.

(** C9, amended. Every exception of class [Exception] raised by the
    scoring call is caught by the one generic handler and shown as an error
    message that embeds the exception's text, followed by a fixed warning;
    nothing of a prediction is shown; and the page depends on the text of the
    exception only, not on its class. *)
Theorem scoring_failure_surfaced_by_text
    (pl : pipeline) (p : RawUserProfile) (df : DataFrame) (e : exn) :
  feature_deriver p = Ok df ->
  pl df = Raise e ->
  is_Exception e = true ->
  on_click (Some pl) p
  = ([ st_error (String.append predict_error_prefix (exn_str e));
       st_warning predict_warning_message ], [df])
  /\ shows_prediction (fst (on_click (Some pl) p)) = false
  /\ existsb is_scoring_failure_element (fst (on_click (Some pl) p)) = true
  /\ existsb is_load_failure_element (fst (on_click (Some pl) p)) = false
  /\ on_click (Some pl) p
     = on_click (Some (failing_pipeline
                         {| exn_cls := OtherException "Exception";
                            exn_str := exn_str e |})) p.
Proof.
  intros Hdf Hpl He.
  assert (E : on_click (Some pl) p
              = ([ st_error (String.append predict_error_prefix (exn_str e));
                   st_warning predict_warning_message ], [df])).
  { unfold on_click. rewrite Hdf.
    rewrite (score_and_render_failure pl df e Hpl He). reflexivity. }
  rewrite E. cbn [fst]. split; [reflexivity|]. split; [reflexivity|].
  split; [cbn [existsb is_scoring_failure_element]; rewrite prefix_append; reflexivity|].
  split; [reflexivity|].
  unfold on_click. rewrite Hdf. reflexivity.
Qed.

Lemma scoring_failure_surfaced_by_text_witness :
  let pl := failing_pipeline inference_error in
  let df := make_input_data scenario_1
            ++ derived_columns (derived_formulas scenario_1) in
  on_click (Some pl) scenario_1
  = ([ st_error (String.append predict_error_prefix (exn_str inference_error));
       st_warning predict_warning_message ], [df])
  /\ shows_prediction (fst (on_click (Some pl) scenario_1)) = false
  /\ existsb is_scoring_failure_element (fst (on_click (Some pl) scenario_1)) = true
  /\ existsb is_load_failure_element (fst (on_click (Some pl) scenario_1)) = false
  /\ on_click (Some pl) scenario_1
     = on_click (Some (failing_pipeline
                         {| exn_cls := OtherException "Exception";
                            exn_str := exn_str inference_error |})) scenario_1.
Proof.
  intros pl df.
  apply (scoring_failure_surfaced_by_text pl scenario_1 df inference_error);
    reflexivity.
Defined.

(** * Further properties of the script *)

(** X1. Run on a frame of int64, float64 and object columns (the dtypes a
    frame of the script can hold) that does not yet have the three derived
    columns, lines 107-109 leave every existing column in place and append
    [ad_burden], [satisfaction_score], [time_per_song] at the end, in this
    order; on these dtypes the two ratios are float64 columns. *)
Theorem feature_engineering_appends_in_order (df df' : DataFrame) :
  has_column df "ad_burden" = false ->
  has_column df "satisfaction_score" = false ->
  has_column df "time_per_song" = false ->
  feature_engineering df = Ok df' ->
  exists a s t,
    df' = df ++ [ ("ad_burden", CFloat a);
                  ("satisfaction_score", s);
                  ("time_per_song", CFloat t) ].
Proof.
  intros Ha Hs Ht H. rewrite feature_engineering_factor in H.
  destruct (derived_cells df) as [[[a s] t]|] eqn:Ec; [|discriminate].
  cbn [bind] in H. injection H as <-.
  assert (Hfa : exists fa, a = CFloat fa /\ exists ft, t = CFloat ft).
  { unfold derived_cells in Ec.
    destruct (getitem df "ads_listened_per_week") as [ads|]; [|discriminate].
    destruct (getitem df "listening_time") as [lt|]; [|discriminate].
    cbn [bind] in Ec. destruct (cell_add lt (CInt 1)) as [lt1|]; [|discriminate].
    cbn [bind] in Ec.
    destruct (cell_truediv ads lt1) as [a'|] eqn:Ea; [|discriminate].
    cbn [bind] in Ec.
    destruct (getitem df "songs_played_per_day") as [songs|]; [|discriminate].
    destruct (getitem df "skip_rate") as [skip|]; [|discriminate].
    cbn [bind] in Ec. destruct (cell_sub (CInt 1) skip) as [keep|]; [|discriminate].
    cbn [bind] in Ec. destruct (cell_mul songs keep) as [sat|]; [|discriminate].
    cbn [bind] in Ec. destruct (cell_add songs (CInt 1)) as [songs1|]; [|discriminate].
    cbn [bind] in Ec.
    destruct (cell_truediv lt songs1) as [t'|] eqn:Et; [|discriminate].
    cbn [bind] in Ec. injection Ec as <- <- <-.
    destruct (truediv_is_float _ _ _ Ea) as [fa ->].
    destruct (truediv_is_float _ _ _ Et) as [ft ->]. eauto. }
  destruct Hfa as (fa & -> & ft & ->).
  exists fa, s, ft. unfold assign_derived.
  rewrite (setitem_absent df _ _ Ha).
  rewrite (setitem_absent (df ++ _) "satisfaction_score" s)
    by (apply has_column_app; [exact Hs | reflexivity]).
  rewrite (setitem_absent _ "time_per_song" (CFloat ft))
    by (apply has_column_app; [apply has_column_app; [exact Ht | reflexivity]
                               | reflexivity]).
  rewrite <- !app_assoc. reflexivity.
Qed.

Lemma feature_engineering_appends_in_order_witness :
  exists a s t,
    make_input_data scenario_1 ++ derived_columns (derived_formulas scenario_1)
    = make_input_data scenario_1 ++
        [ ("ad_burden", CFloat a);
          ("satisfaction_score", s);
          ("time_per_song", CFloat t) ].
Proof.
  apply (feature_engineering_appends_in_order (make_input_data scenario_1));
    reflexivity.
Defined.

(** X2. Lines 107-109 are idempotent: run again on their own result they
    return it unchanged, because they read raw columns only and overwrite
    the derived columns in place with the same values. *)
Theorem feature_engineering_idempotent (df df' : DataFrame) :
  feature_engineering df = Ok df' ->
  feature_engineering df' = Ok df'.
Proof.
  intros H. rewrite feature_engineering_factor in H.
  destruct (derived_cells df) as [cells|] eqn:Ec; [|discriminate].
  cbn [bind] in H. injection H as <-.
  rewrite feature_engineering_factor, derived_cells_assign, Ec.
  cbn [bind]. rewrite assign_derived_again. reflexivity.
Qed.

Lemma feature_engineering_idempotent_witness :
  feature_engineering
    (make_input_data scenario_1 ++ derived_columns (derived_formulas scenario_1))
  = Ok (make_input_data scenario_1
        ++ derived_columns (derived_formulas scenario_1)).
Proof.
  apply (feature_engineering_idempotent (make_input_data scenario_1)).
  reflexivity.
Defined.

(** X3. The derived values depend on four inputs only: two profiles with
    the same listening time, songs per day, skip rate and ads per week get the
    same three derived values, whatever their age, gender, country,
    subscription, device and offline flag. *)
Theorem derived_features_ignore_other_fields (p q : RawUserProfile) :
  listening_time p = listening_time q ->
  songs_played p = songs_played q ->
  skip_rate p = skip_rate q ->
  ads_listened p = ads_listened q ->
  exists dfp dfq d,
    feature_deriver p = Ok dfp
    /\ feature_deriver q = Ok dfq
    /\ derived_of_frame dfp = Some d
    /\ derived_of_frame dfq = Some d.
Proof.
  intros Hl Hs Hk Ha.
  eexists. eexists.
  exists {| ad_burden :=
              div (of_int (ads_listened p)) (add (listening_time p) one);
            satisfaction_score :=
              mul (of_int (songs_played p)) (sub one (skip_rate p));
            time_per_song :=
              div (listening_time p) (of_int (wrap64 (songs_played p + 1))) |}.
  split; [apply feature_deriver_columns|].
  split; [apply feature_deriver_columns|].
  split; [reflexivity|]. rewrite <- Hl, <- Hs, <- Hk, <- Ha. reflexivity.
Qed.

Lemma derived_features_ignore_other_fields_witness :
  exists dfp dfq d,
    feature_deriver scenario_1 = Ok dfp
    /\ feature_deriver
         {| age := 64; gender := "Other"; country := "IN";
            subscription_type := "Student"; device_type := "Desktop";
            listening_time := of_int 60; songs_played := 20;
            skip_rate := lit 3 1; ads_listened := 5;
            offline_listening := 1 |} = Ok dfq
    /\ derived_of_frame dfp = Some d
    /\ derived_of_frame dfq = Some d.
Proof.
  apply (derived_features_ignore_other_fields scenario_1
           {| age := 64; gender := "Other"; country := "IN";
              subscription_type := "Student"; device_type := "Desktop";
              listening_time := of_int 60; songs_played := 20;
              skip_rate := lit 3 1; ads_listened := 5;
              offline_listening := 1 |}); reflexivity.
Defined.

Section MoreArithmetic.

Lemma mul_comm x y : mul x y = mul y x.
Proof.
  unfold mul.
  destruct x as [sx | sx | | sx mx ex], y as [sy | sy | | sy my ey];
    cbn [SFmul]; rewrite ?(xorb_comm sx sy); try reflexivity.
  rewrite (Pos.mul_comm mx my), (Z.add_comm ex ey). reflexivity.
Qed.

(** Multiplying by [1.0] changes nothing. *)
Lemma mul_one m e :
  bounded prec emax m e = true ->
  mul (S754_finite false m e) one = S754_finite false m e.
Proof.
  intros B. pose proof (proj1 (bounded_iff _ _) B) as [C _].
  rewrite one_eq. unfold mul. cbn [SFmul xorb].
  apply (round_aux_representable false _ _ m e (e + -52)); try assumption;
    try lia.
  - rewrite Pos2Z.inj_mul. change (Zpos (2 ^ 52)) with (2 ^ 52).
    rewrite Zdigits2_shift by lia. cbn [Zdigits2]. rewrite fexp_eq.
    apply canonical_iff in C. lia.
  - unfold scaled. rewrite Pos2Z.inj_mul. change (Zpos (2 ^ 52)) with (2 ^ 52).
    replace (e + -52 - (e + -52)) with 0 by lia.
    replace (e - (e + -52)) with 52 by lia. lia.
Qed.

Lemma div_one_id x : nonneg_finite x = true -> div x one = x.
Proof.
  intros H. destruct (div_one x H) as [E | [s ->]]; [exact E|].
  destruct s; reflexivity.
Qed.

Lemma of_int_pos_cases z :
  0 <= z <= 2 ^ 53 ->
  z = 0 \/ exists m e, of_int z = S754_finite false m e
                        /\ bounded prec emax m e = true.
Proof.
  intros Hz. destruct (Z.eq_dec z 0) as [-> | Hnz]; [left; reflexivity|].
  right. destruct (of_int_range z ltac:(lia)) as (m & e & E & B & _). eauto.
Qed.

Lemma metric_in_render c df label v :
  In (st_metric label v) (render_result c df) -> v = mul c (of_int 100).
Proof.
  unfold render_result. intros H.
  apply in_app_or in H as [H | H].
  { cbn [In] in H. destruct H as [H | [H | [H | []]]]; try discriminate.
    injection H as _ H. symmetry. exact H. }
  apply in_app_or in H as [H | H].
  - destruct (prediction c =? 1); cbn [In] in H;
      repeat (destruct H as [H | H]; [discriminate|]); contradiction.
  - cbn [In] in H. destruct H as [H | []]. discriminate.
Qed.

End MoreArithmetic.

(** X4. For a finite listening time [>= 0.0] and a number of ads in the
    widget range, the ad burden is finite and lies between 0 and the number of
    ads (as float64 comparison and as exact values); with no ads it is 0. *)
Theorem ad_burden_bounds (p : RawUserProfile) :
  nonneg_finite (listening_time p) = true ->
  0 <= ads_listened p <= max_safe_integer ->
  exists df a,
    feature_deriver p = Ok df
    /\ float_column df "ad_burden" = Some a
    /\ is_finite a = true
    /\ geb a zero = true
    /\ leb a (of_int (ads_listened p)) = true
    /\ (0 <= to_Q a <= inject_Z (ads_listened p))%Q
    /\ (ads_listened p = 0 -> a = zero).
Proof.
  intros Hl Ha. pose proof Ha as Ha'. unfold max_safe_integer in Ha'.
  destruct (add_one_range _ Hl) as (m & e & E & B & L1).
  assert (Hy : nonneg_finite (add (listening_time p) one) = true)
    by (rewrite E; apply nonneg_finite_pos; exact B).
  assert (Hx : nonneg_finite (of_int (ads_listened p)) = true)
    by (apply of_int_nonneg; lia).
  destruct (div_by_ge_one_range _ _ Hx Hy L1) as [Hn Hb].
  eexists. eexists. split; [apply feature_deriver_columns|].
  split; [reflexivity|].
  split; [apply nonneg_finite_is_finite; exact Hn|].
  split; [apply nonneg_finite_geb_zero; exact Hn|].
  split; [exact Hb|]. split; [split|].
  - apply nonneg_finite_to_Q; exact Hn.
  - rewrite <- (of_int_exact (ads_listened p)) by lia.
    apply leb_to_Q; assumption.
  - intros ->. rewrite E. reflexivity.
Qed.

Lemma ad_burden_bounds_witness :
  exists df a,
    feature_deriver scenario_1 = Ok df
    /\ float_column df "ad_burden" = Some a
    /\ is_finite a = true
    /\ geb a zero = true
    /\ leb a (of_int 5) = true
    /\ (0 <= to_Q a <= inject_Z 5)%Q.
Proof.
  destruct (ad_burden_bounds scenario_1 eq_refl)
    as (df & a & H1 & H2 & H3 & H4 & H5 & H6 & _).
  - vm_compute. split; discriminate.
  - exists df, a. repeat split; try assumption; apply H6.
Defined.

(** X5. For a finite listening time [>= 0.0] and a number of songs in the
    widget range, the time per song is finite and lies between 0 and the
    listening time; with 0 songs it is the listening time itself. *)
Theorem time_per_song_bounds (p : RawUserProfile) :
  nonneg_finite (listening_time p) = true ->
  0 <= songs_played p <= max_safe_integer ->
  exists df t,
    feature_deriver p = Ok df
    /\ float_column df "time_per_song" = Some t
    /\ is_finite t = true
    /\ geb t zero = true
    /\ leb t (listening_time p) = true
    /\ (0 <= to_Q t <= to_Q (listening_time p))%Q
    /\ (songs_played p = 0 -> t = listening_time p).
Proof.
  intros Hl Hs. pose proof Hs as Hs'. unfold max_safe_integer in Hs'.
  destruct (of_int_range (songs_played p + 1) ltac:(lia))
    as (m & e & E & B & L1).
  assert (Hy : nonneg_finite (of_int (songs_played p + 1)) = true)
    by (rewrite E; apply nonneg_finite_pos; exact B).
  destruct (div_by_ge_one_range _ _ Hl Hy L1) as [Hn Hb].
  exists (make_input_data p ++ derived_columns (derived_formulas p)),
         (div (listening_time p) (of_int (songs_played p + 1))).
  split; [apply feature_deriver_formulas; lia|].
  split; [reflexivity|].
  split; [apply nonneg_finite_is_finite; exact Hn|].
  split; [apply nonneg_finite_geb_zero; exact Hn|].
  split; [exact Hb|]. split; [split|].
  - apply nonneg_finite_to_Q; exact Hn.
  - apply leb_to_Q; assumption.
  - intros ->. change (of_int (0 + 1)) with one. apply div_one_id. exact Hl.
Qed.

Lemma time_per_song_bounds_witness :
  exists df t,
    feature_deriver scenario_1 = Ok df
    /\ float_column df "time_per_song" = Some t
    /\ is_finite t = true
    /\ geb t zero = true
    /\ leb t (listening_time scenario_1) = true
    /\ (0 <= to_Q t <= to_Q (listening_time scenario_1))%Q.
Proof.
  destruct (time_per_song_bounds scenario_1 eq_refl)
    as (df & t & H1 & H2 & H3 & H4 & H5 & H6 & _).
  - vm_compute. split; discriminate.
  - exists df, t. repeat split; try assumption; apply H6.
Defined.

(** X6. At the ends of the skip-rate slider the satisfaction score is
    exact: with skip rate 0.0 it is the number of songs, with skip rate 1.0
    it is 0. *)
Theorem satisfaction_score_at_slider_ends (p : RawUserProfile) :
  0 <= songs_played p <= max_safe_integer ->
  skip_rate p = zero \/ skip_rate p = one ->
  exists df s,
    feature_deriver p = Ok df
    /\ float_column df "satisfaction_score" = Some s
    /\ ((skip_rate p = zero /\ s = of_int (songs_played p))
        \/ (skip_rate p = one /\ s = zero)).
Proof.
  intros Hs Hk. unfold max_safe_integer in Hs.
  eexists. eexists. split; [apply feature_deriver_columns|].
  split; [reflexivity|].
  destruct (of_int_pos_cases (songs_played p) ltac:(lia))
    as [E0 | (m & e & E & B)];
    destruct Hk as [Ek | Ek]; [left | right | left | right];
    (split; [exact Ek|]); rewrite Ek.
  - rewrite E0. reflexivity.
  - rewrite E0. reflexivity.
  - change (sub one zero) with one. rewrite E. apply mul_one. exact B.
  - change (sub one one) with zero. rewrite E. reflexivity.
Qed.

Lemma satisfaction_score_at_slider_ends_witness :
  let p := {| age := 30; gender := "Male"; country := "US";
              subscription_type := "Free"; device_type := "Mobile";
              listening_time := of_int 60; songs_played := 20;
              skip_rate := zero; ads_listened := 5;
              offline_listening := 0 |} in
  exists df s,
    feature_deriver p = Ok df
    /\ float_column df "satisfaction_score" = Some s
    /\ ((skip_rate p = zero /\ s = of_int (songs_played p))
        \/ (skip_rate p = one /\ s = zero)).
Proof.
  intros p. apply (satisfaction_score_at_slider_ends p).
  - vm_compute. split; discriminate.
  - left. reflexivity.
Defined.

(** X7. For a probability between 0.0 and 1.0, the percentage handed to
    the metric, [churn_proba * 100], is finite and lies between 0 and 100. *)
Theorem metric_percentage_range
    (churn_proba : float64) (input_data : DataFrame)
    (label : string) (percent : float64) :
  nonneg_finite churn_proba = true ->
  leb churn_proba one = true ->
  In (st_metric label percent) (render_result churn_proba input_data) ->
  percent = mul churn_proba (of_int 100)
  /\ is_finite percent = true
  /\ geb percent zero = true
  /\ leb percent (of_int 100) = true
  /\ (0 <= to_Q percent <= 100)%Q.
Proof.
  intros Hc Hle Hin. apply metric_in_render in Hin. subst percent.
  assert (H100 : nonneg_finite (of_int 100) = true) by reflexivity.
  rewrite mul_comm.
  destruct (mul_fraction_range _ _ H100 Hc Hle) as [Hn Hb].
  split; [reflexivity|].
  split; [apply nonneg_finite_is_finite; exact Hn|].
  split; [apply nonneg_finite_geb_zero; exact Hn|].
  split; [exact Hb|]. split; [apply nonneg_finite_to_Q; exact Hn|].
  assert (E : (to_Q (of_int 100) == 100)%Q) by reflexivity.
  rewrite <- E. apply leb_to_Q; assumption.
Qed.

Lemma metric_percentage_range_witness :
  mul (lit 4 1) (of_int 100) = mul (lit 4 1) (of_int 100)
  /\ is_finite (mul (lit 4 1) (of_int 100)) = true
  /\ geb (mul (lit 4 1) (of_int 100)) zero = true
  /\ leb (mul (lit 4 1) (of_int 100)) (of_int 100) = true
  /\ (0 <= to_Q (mul (lit 4 1) (of_int 100)) <= 100)%Q.
Proof.
  apply (metric_percentage_range (lit 4 1) [] "이탈 확률 (Churn Probability)").
  - reflexivity.
  - reflexivity.
  - right. left. reflexivity.
Defined.

Section Runs.

Lemma append_inj a b c : String.append a b = String.append a c -> b = c.
Proof.
  induction a as [|x a IH]; cbn [String.append]; intros H; [exact H|].
  injection H as H. exact (IH H).
Qed.

Lemma expander_in_render churn_proba input_data l df :
  In (st_expander l df) (render_result churn_proba input_data) ->
  df = input_data.
Proof.
  unfold render_result. intros H.
  apply in_app_or in H as [H | H].
  { cbn [In] in H. repeat (destruct H as [H | H]; [discriminate|]). contradiction. }
  apply in_app_or in H as [H | H].
  { destruct (prediction churn_proba =? 1); cbn [In] in H;
      repeat (destruct H as [H | H]; [discriminate|]); contradiction. }
  cbn [In] in H. destruct H as [H | []]. injection H as _ H. symmetry. exact H.
Qed.

Lemma expander_in_score_and_render pl input_data l df :
  In (st_expander l df) (score_and_render pl input_data) -> df = input_data.
Proof.
  unfold score_and_render, uncaught. destruct (pl input_data) as [c | e].
  - destruct (progress_accepts c); [apply expander_in_render|].
    cbn [In]. intros H.
    repeat (destruct H as [H | H]; [discriminate|]). contradiction.
  - destruct (is_Exception e); cbn [In]; intros H;
      repeat (destruct H as [H | H]; [discriminate|]); contradiction.
Qed.

Lemma expander_not_uncaught e l df : ~ In (st_expander l df) (uncaught e).
Proof.
  unfold uncaught. destruct (is_Exception e); cbn [In]; intros H;
    [destruct H as [H | []]; discriminate | contradiction].
Qed.

(** Loading renders nothing but error messages. *)
Lemma cached_load_elements cache jl r els cache' el :
  cached_load cache jl = (r, els, cache') -> In el els ->
  el = st_error load_error_message.
Proof.
  unfold cached_load, load_model_pipeline.
  destruct cache as [[pl|]|].
  - intros H. injection H as _ <- _. contradiction.
  - intros H. injection H as _ <- _. cbn [replayed In]. intros [<- | []].
    reflexivity.
  - destruct jl as [pl | e]; [intros H; injection H as _ <- _; contradiction|].
    destruct (is_FileNotFoundError e); intros H; injection H as _ <- _;
      cbn [In]; [intros [<- | []]; reflexivity | contradiction].
Qed.

(** A run with a cache entry never looks at [joblib.load]. *)
Lemma script_cached v i jl :
  script (Some v) (with_joblib_load jl i) = script (Some v) i.
Proof. reflexivity. Qed.

Lemma script_cached_cache v i : cache_after (script (Some v) i) = Some v.
Proof.
  unfold script, cached_load. destruct (clicked i); [|reflexivity].
  destruct (on_click v (profile i)). reflexivity.
Qed.

Lemma scored_length cache i :
  (List.length (scored (script cache i)) <= if clicked i then 1 else 0)%nat.
Proof.
  unfold script.
  destruct (cached_load cache (joblib_load i)) as [[[pl | e] els] cache'];
    [|destruct (clicked i); cbn; lia].
  destruct (clicked i); [|cbn; lia].
  unfold on_click. destruct pl as [pl|]; [|cbn; lia].
  rewrite feature_deriver_columns. cbn. lia.
Qed.

Lemma scored_length_loaded pl i :
  List.length (scored (script (Some (Some pl)) i))
  = if clicked i then 1%nat else 0%nat.
Proof.
  unfold script, cached_load. destruct (clicked i); [|reflexivity].
  unfold on_click. rewrite feature_deriver_columns. reflexivity.
Qed.

Lemma calls_cons out outs :
  calls (out :: outs) = (List.length (scored out) + calls outs)%nat.
Proof. unfold calls. cbn [map List.concat]. apply length_app. Qed.

Lemma clicks_cons i runs :
  clicks (i :: runs) = ((if clicked i then 1 else 0) + clicks runs)%nat.
Proof. unfold clicks. cbn [filter]. destruct (clicked i); reflexivity. Qed.

(** [st.progress] accepts every probability in [0.0, 1.0]. *)
Lemma progress_accepts_unit c :
  geb c zero = true -> leb c one = true -> progress_accepts c = true.
Proof.
  unfold progress_accepts, geb, leb. intros -> ->. reflexivity.
Qed.

(** A run on a cached "no pipeline". *)
Lemma script_cached_none i :
  scored (script (Some None) i) = []
  /\ page (script (Some None) i) = [st_error load_error_message]
  /\ cache_after (script (Some None) i) = Some None.
Proof.
  unfold script, cached_load. destruct (clicked i); repeat split.
Qed.

End Runs.

(** X8. When the scoring call returns a probability between 0.0 and 1.0,
    the page shows it (as percentage and as progress bar), shows the frame
    that was scored, and shows exactly one label: the high-risk message and
    the retention suggestions when the probability is [>=] the threshold, the
    loyal-user message otherwise.  (Outside this range [st.progress] may
    reject the value, and the run ends in the handler of lines 142-144.) *)
Theorem scored_page_shows_one_label
    (pl : pipeline) (input_data : DataFrame) (churn_proba : float64) :
  pl input_data = Ok churn_proba ->
  geb churn_proba zero = true ->
  leb churn_proba one = true ->
  In (st_metric "이탈 확률 (Churn Probability)" (mul churn_proba (of_int 100)))
     (score_and_render pl input_data)
  /\ In (st_progress churn_proba) (score_and_render pl input_data)
  /\ In (st_expander "모델 입력 데이터 확인" input_data)
        (score_and_render pl input_data)
  /\ (In (st_error high_risk_message) (score_and_render pl input_data)
      <-> geb churn_proba threshold = true)
  /\ (In (st_write "- 3개월 할인 쿠폰 푸시 알림 발송")
         (score_and_render pl input_data)
      <-> geb churn_proba threshold = true)
  /\ (In (st_success loyal_message) (score_and_render pl input_data)
      <-> geb churn_proba threshold = false)
  /\ existsb is_scoring_failure_element (score_and_render pl input_data) = false.
Proof.
  intros Hpl Hge Hle. unfold score_and_render.
  rewrite Hpl, (progress_accepts_unit _ Hge Hle).
  unfold render_result, prediction. rewrite is_churn_risk_geb.
  destruct (geb churn_proba threshold); cbn [app In].
  - split; [auto|]. split; [auto|]. split; [auto 10|].
    split; [split; [reflexivity | auto 10]|].
    split; [split; [reflexivity | auto 10]|].
    split; [|reflexivity].
    split; [|discriminate]. intros H.
    repeat (destruct H as [H | H]; [discriminate|]). contradiction.
  - split; [auto|]. split; [auto|]. split; [auto 10|].
    split; [split; [|discriminate]|].
    { intros H. repeat (destruct H as [H | H]; [discriminate|]). contradiction. }
    split; [split; [|discriminate]|].
    { intros H. repeat (destruct H as [H | H]; [discriminate|]). contradiction. }
    split; [|reflexivity].
    split; [reflexivity | auto 10].
Qed.

Lemma scored_page_shows_one_label_witness :
  let pl := constant_pipeline (lit 4 1) in
  let page := score_and_render pl [] in
  In (st_metric "이탈 확률 (Churn Probability)" (mul (lit 4 1) (of_int 100))) page
  /\ In (st_progress (lit 4 1)) page
  /\ In (st_expander "모델 입력 데이터 확인" []) page
  /\ (In (st_error high_risk_message) page <-> geb (lit 4 1) threshold = true)
  /\ (In (st_write "- 3개월 할인 쿠폰 푸시 알림 발송") page
      <-> geb (lit 4 1) threshold = true)
  /\ (In (st_success loyal_message) page <-> geb (lit 4 1) threshold = false)
  /\ existsb is_scoring_failure_element page = false.
Proof.
  intros pl page.
  apply (scored_page_shows_one_label pl [] (lit 4 1)); reflexivity.
Defined.

(** X9. The script never calls [predict_proba] more often than the button
    is pressed: over any session, from any cache state, the number of scoring
    calls is at most the number of clicked runs (one call per click at most,
    no retry after a failure). *)
Theorem calls_at_most_clicks (runs : list run_input) (cache : resource_cache) :
  (calls (session cache runs) <= clicks runs)%nat.
Proof.
  revert cache. induction runs as [|i runs IH]; intros cache;
    cbn [session]; [reflexivity|].
  rewrite calls_cons, clicks_cons.
  pose proof (scored_length cache i) as H1.
  pose proof (IH (cache_after (script cache i))) as H2. lia.
Qed.

(** X10. Once the artifact is loaded, every click is scored exactly once,
    whether the scoring call then returns or raises. *)
Theorem loaded_pipeline_scores_every_click
    (runs : list run_input) (cache : resource_cache) (pl : pipeline) :
  cache = Some (Some pl) ->
  calls (session cache runs) = clicks runs.
Proof.
  intros ->. induction runs as [|i runs IH]; cbn [session]; [reflexivity|].
  rewrite calls_cons, clicks_cons, scored_length_loaded, script_cached_cache, IH.
  reflexivity.
Qed.

Lemma loaded_pipeline_scores_every_click_witness :
  calls (session (Some (Some (failing_pipeline inference_error)))
           [ {| joblib_load := Raise missing_artifact;
                profile := scenario_1; clicked := true |};
             {| joblib_load := Raise missing_artifact;
                profile := scenario_2; clicked := false |};
             {| joblib_load := Raise corrupt_artifact;
                profile := scenario_2; clicked := true |} ])
  = clicks
      [ {| joblib_load := Raise missing_artifact;
           profile := scenario_1; clicked := true |};
        {| joblib_load := Raise missing_artifact;
           profile := scenario_2; clicked := false |};
        {| joblib_load := Raise corrupt_artifact;
           profile := scenario_2; clicked := true |} ].
Proof.
  apply (loaded_pipeline_scores_every_click _ _
           (failing_pipeline inference_error)). reflexivity.
Defined.

(** X11. A filled cache entry is final: no later run changes it, and what
    later runs render and score does not depend on what [joblib.load] would
    do, so the artifact is never loaded a second time. *)
Theorem cache_entry_is_final
    (v : option pipeline) (runs : list run_input)
    (reload : run_input -> result pipeline) :
  session (Some v) (map (fun i => with_joblib_load (reload i) i) runs)
  = session (Some v) runs
  /\ Forall (fun out => cache_after out = Some v) (session (Some v) runs).
Proof.
  induction runs as [|i runs [IH1 IH2]]; cbn [map session];
    [split; [reflexivity | constructor]|].
  rewrite script_cached, !script_cached_cache. split.
  - f_equal. exact IH1.
  - constructor; [apply script_cached_cache | exact IH2].
Qed.

(** X12. A missing model file is remembered: after one run in which
    [joblib.load] raises FileNotFoundError, every run of the session, that
    one included, shows the missing-file message and scores nothing, even
    when the file exists by then. *)
Theorem missing_file_is_remembered
    (i : run_input) (e : exn) (runs : list run_input) :
  joblib_load i = Raise e ->
  is_FileNotFoundError e = true ->
  Forall (fun out =>
            scored out = []
            /\ page out = [st_error load_error_message]
            /\ cache_after out = Some None)
         (session None (i :: runs)).
Proof.
  intros Hl He. cbn [session].
  assert (H1 : scored (script None i) = []
               /\ page (script None i) = [st_error load_error_message]
               /\ cache_after (script None i) = Some None).
  { unfold script, cached_load, load_model_pipeline. rewrite Hl, He.
    destruct (clicked i); repeat split. }
  constructor; [exact H1|].
  destruct H1 as (_ & _ & ->).
  induction runs as [|j runs IH]; cbn [session]; [constructor|].
  pose proof (script_cached_none j) as H.
  constructor; [exact H|]. destruct H as (_ & _ & ->). exact IH.
Qed.

Lemma missing_file_is_remembered_witness :
  Forall (fun out =>
            scored out = []
            /\ page out = [st_error load_error_message]
            /\ cache_after out = Some None)
         (session None
            [ {| joblib_load := Raise missing_artifact;
                 profile := scenario_1; clicked := false |};
              {| joblib_load := Ok (constant_pipeline (lit 4 1));
                 profile := scenario_1; clicked := true |} ]).
Proof.
  apply (missing_file_is_remembered _ missing_artifact); reflexivity.
Defined.

(** X13. Any other load error is not remembered: the exception escapes
    the script (Streamlit shows it in its exception box when it is an
    [Exception]) and the cache stays empty, and the next run loads again; if
    that load succeeds, the click is scored with the pipeline just loaded,
    which is then cached. *)
Theorem other_load_errors_are_retried
    (i j : run_input) (e : exn) (pl : pipeline) :
  joblib_load i = Raise e ->
  is_FileNotFoundError e = false ->
  joblib_load j = Ok pl ->
  clicked j = true ->
  exists df out1 out2,
    session None [i; j] = [out1; out2]
    /\ page out1 = uncaught e
    /\ (is_Exception e = true -> page out1 = [st_exception e])
    /\ scored out1 = []
    /\ cache_after out1 = None
    /\ feature_deriver (profile j) = Ok df
    /\ page out2 = score_and_render pl df
    /\ scored out2 = [df]
    /\ cache_after out2 = Some (Some pl).
Proof.
  intros Hi He Hj Hc.
  assert (E1 : script None i
               = {| page := uncaught e; scored := [];
                    cache_after := None |}).
  { unfold script, cached_load, load_model_pipeline. rewrite Hi, He.
    reflexivity. }
  eexists. eexists. eexists. cbn [session]. rewrite E1. cbn [cache_after].
  split; [reflexivity|].
  unfold script, cached_load, load_model_pipeline. rewrite Hj, Hc.
  unfold on_click. rewrite feature_deriver_columns. cbn [page scored cache_after app].
  split; [reflexivity|].
  split; [intros X; unfold uncaught; rewrite X; reflexivity|].
  repeat split.
Qed.

Lemma other_load_errors_are_retried_witness :
  exists df out1 out2,
    session None
      [ {| joblib_load := Raise corrupt_artifact;
           profile := scenario_1; clicked := true |};
        {| joblib_load := Ok (constant_pipeline (lit 4 1));
           profile := scenario_1; clicked := true |} ]
    = [out1; out2]
    /\ page out1 = uncaught corrupt_artifact
    /\ (is_Exception corrupt_artifact = true ->
        page out1 = [st_exception corrupt_artifact])
    /\ scored out1 = []
    /\ cache_after out1 = None
    /\ feature_deriver scenario_1 = Ok df
    /\ page out2 = score_and_render (constant_pipeline (lit 4 1)) df
    /\ scored out2 = [df]
    /\ cache_after out2 = Some (Some (constant_pipeline (lit 4 1))).
Proof.
  apply (other_load_errors_are_retried
           {| joblib_load := Raise corrupt_artifact;
              profile := scenario_1; clicked := true |}
           {| joblib_load := Ok (constant_pipeline (lit 4 1));
              profile := scenario_1; clicked := true |}
           corrupt_artifact (constant_pipeline (lit 4 1))); reflexivity.
Defined.

(** X14. The error message of a failed scoring call carries the whole text
    of the exception: two caught failures render the same page exactly when
    their texts are equal. *)
Theorem scoring_error_text_is_recoverable
    (pl1 pl2 : pipeline) (input_data : DataFrame) (e1 e2 : exn) :
  pl1 input_data = Raise e1 ->
  pl2 input_data = Raise e2 ->
  is_Exception e1 = true ->
  is_Exception e2 = true ->
  (score_and_render pl1 input_data = score_and_render pl2 input_data
   <-> exn_str e1 = exn_str e2).
Proof.
  intros H1 H2 X1 X2.
  rewrite (score_and_render_failure pl1 _ e1 H1 X1).
  rewrite (score_and_render_failure pl2 _ e2 H2 X2).
  split.
  - intros H. apply (append_inj predict_error_prefix). congruence.
  - intros ->. reflexivity.
Qed.

Lemma scoring_error_text_is_recoverable_witness :
  score_and_render (failing_pipeline schema_mismatch_error) []
  = score_and_render (failing_pipeline inference_error) []
  <-> exn_str schema_mismatch_error = exn_str inference_error.
Proof.
  apply (scoring_error_text_is_recoverable
           (failing_pipeline schema_mismatch_error)
           (failing_pipeline inference_error) []); reflexivity.
Defined.

(** X15. The feature view on the page is faithful: whenever a run shows
    the expander with a frame, that frame is the one the run passed to
    [predict_proba], and it is the deriver's output for the submitted
    profile. *)
Theorem feature_view_is_scored_frame
    (cache : resource_cache) (i : run_input) (label : string) (df : DataFrame) :
  In (st_expander label df) (page (script cache i)) ->
  scored (script cache i) = [df]
  /\ feature_deriver (profile i) = Ok df.
Proof.
  unfold script.
  destruct (cached_load cache (joblib_load i)) as [[[pl | e] els] cache'] eqn:El.
  - destruct (clicked i).
    + unfold on_click. destruct pl as [pl|].
      * destruct (feature_deriver (profile i)) as [input_data | e] eqn:Ef;
          cbn [page scored]; intros H; apply in_app_or in H as [H | H].
        -- pose proof (cached_load_elements _ _ _ _ _ _ El H). discriminate.
        -- apply expander_in_score_and_render in H. subst. auto.
        -- pose proof (cached_load_elements _ _ _ _ _ _ El H). discriminate.
        -- apply expander_not_uncaught in H. contradiction.
      * cbn [page]. intros H. apply in_app_or in H as [H | []].
        pose proof (cached_load_elements _ _ _ _ _ _ El H). discriminate.
    + cbn [page]. intros H. apply in_app_or in H as [H | []].
      pose proof (cached_load_elements _ _ _ _ _ _ El H). discriminate.
  - cbn [page]. intros H. apply in_app_or in H as [H | H].
    + pose proof (cached_load_elements _ _ _ _ _ _ El H). discriminate.
    + apply expander_not_uncaught in H. contradiction.
Qed.

Lemma feature_view_is_scored_frame_witness :
  let i := {| joblib_load := Ok (constant_pipeline (lit 4 1));
              profile := scenario_1; clicked := true |} in
  let df := make_input_data scenario_1
            ++ derived_columns (derived_formulas scenario_1) in
  scored (script None i) = [df] /\ feature_deriver (profile i) = Ok df.
Proof.
  intros i df.
  apply (feature_view_is_scored_frame None i "모델 입력 데이터 확인" df).
  vm_compute. do 7 right. left. reflexivity.
Defined.

(** * Monotonicity of the rounded arithmetic *)

Section Nearest.

Lemma shr_1_nonneg q b s :
  0 <= q ->
  shr_1 {| shr_m := q; shr_r := b; shr_s := s |} =
  {| shr_m := q / 2; shr_r := (q mod 2 =? 1); shr_s := b || s |}.
Proof.
  intros Hq. rewrite <- Z.div2_div.
  destruct q as [|[p|p|]|]; try lia; cbn [shr_1 Z.div2 Pos.div2];
    rewrite ?xO_mod2, ?xI_mod2; reflexivity.
Qed.

Lemma represents_shr_1 r N M :
  0 <= N -> 0 < M -> represents r N M -> represents (shr_1 r) N (2 * M).
Proof.
  intros HN HM [Hm Hl].
  pose proof (Z.div_pos N M HN HM) as Hq.
  pose proof (Z.mod_pos_bound N M HM) as HR.
  assert (Hdiv : N / (2 * M) = N / M / 2)
    by (rewrite (Z.mul_comm 2 M), Z.div_div by lia; reflexivity).
  assert (Hmod : N mod (2 * M) = N mod M + M * ((N / M) mod 2))
    by (rewrite (Z.mul_comm 2 M); apply Z.rem_mul_r; lia).
  pose proof (Z.mod_pos_bound (N / M) 2 ltac:(lia)) as Hbit.
  destruct r as [m b s]. cbn [shr_m] in Hm. subst m.
  rewrite shr_1_nonneg by assumption.
  unfold represents. rewrite Hdiv, Hmod. cbn [shr_m].
  split; [reflexivity|].
  unfold loc_of_remainder in *. unfold loc_of_shr_record in *.
  cbn [shr_r shr_s] in *.
  remember (N mod M) as R. remember ((N / M) mod 2) as bit.
  destruct (Z.eqb_spec R 0) as [E0 | N0];
    destruct (Z.eqb_spec bit 1) as [E1 | N1];
    destruct (Z.eqb_spec (R + M * bit) 0) as [E2 | N2];
    destruct b, s; try discriminate; try nia; cbn [orb];
    try reflexivity; f_equal; symmetry;
    first [ apply Z.compare_lt_iff; nia
          | apply Z.compare_gt_iff; nia
          | apply Z.compare_eq_iff; nia ].
Qed.

Lemma represents_iter p r N M :
  0 <= N -> 0 < M -> represents r N M ->
  represents (iter_pos shr_1 p r) N (M * 2 ^ Zpos p).
Proof.
  intros HN. revert r M.
  induction p as [p IH | p IH |]; intros r M HM Hr; cbn [iter_pos].
  - pose proof (pow2_pos (Zpos p) ltac:(lia)) as Hp.
    replace (M * 2 ^ Zpos p~1) with (2 * M * 2 ^ Zpos p * 2 ^ Zpos p).
    + apply IH; [nia|]. apply IH; [lia|]. apply represents_shr_1; assumption.
    + replace (Zpos p~1) with (1 + Zpos p + Zpos p) by lia.
      rewrite !pow2_split by lia. change (2 ^ 1) with 2. ring.
  - pose proof (pow2_pos (Zpos p) ltac:(lia)) as Hp.
    replace (M * 2 ^ Zpos p~0) with (M * 2 ^ Zpos p * 2 ^ Zpos p).
    + apply IH; [nia|]. apply IH; assumption.
    + replace (Zpos p~0) with (Zpos p + Zpos p) by lia.
      rewrite !pow2_split by lia. ring.
  - change (2 ^ 1) with 2. rewrite Z.mul_comm.
    apply represents_shr_1; assumption.
Qed.

Lemma shr_represents r e n N M :
  0 <= N -> 0 < M -> 0 <= n -> represents r N M ->
  represents (fst (shr r e n)) N (M * 2 ^ n) /\ snd (shr r e n) = e + n.
Proof.
  intros HN HM Hn Hr. destruct n as [|p|p]; try lia; cbn [shr fst snd].
  - rewrite Z.pow_0_r, Z.mul_1_r. split; [assumption | lia].
  - split; [apply represents_iter; assumption | reflexivity].
Qed.

Lemma represents_init N D :
  represents (shr_record_of_loc (N / D) (loc_of_remainder (N mod D) D)) N D.
Proof.
  split; [apply shr_m_record_of_loc | apply loc_record_roundtrip].
Qed.

(** [new_location], the location [SFdiv] computes from the remainder. *)
Lemma new_location_remainder D R :
  0 < D -> 0 <= R < D -> new_location D R = loc_of_remainder R D.
Proof.
  intros HD HR. unfold new_location, loc_of_remainder.
  destruct (Z.even D) eqn:Ev.
  - unfold new_location_even. destruct (R =? 0); reflexivity.
  - unfold new_location_odd.
    assert (Hodd : Z.odd D = true) by (rewrite <- Z.negb_even, Ev; reflexivity).
    apply Z.odd_spec in Hodd as [k Hk].
    destruct (Z.eqb_spec R 0) as [E0 | N0]; [reflexivity|].
    f_equal.
    destruct (Z.compare_spec (2 * R + 1) D);
      first [ symmetry; apply Z.compare_lt_iff; lia
            | symmetry; apply Z.compare_gt_iff; lia ].
Qed.

Lemma shift_range m e :
  0 <= m -> e <= fexp prec emax (Zdigits2 m + e) ->
  let e' := fexp prec emax (Zdigits2 m + e) in
  let m' := m / 2 ^ (e' - e) in
  (0 <= m' < 2 ^ 52 /\ e' = -1074) \/ (2 ^ 52 <= m' < 2 ^ 53 /\ -1074 <= e').
Proof.
  intros Hm Hn e' m'.
  assert (Hn' : 0 <= e' - e) by (subst e'; lia).
  pose proof (pow2_pos (e' - e) Hn') as Hp.
  assert (He' : e' = Z.max (Zdigits2 m + e - 53) (-1074)) by reflexivity.
  destruct (Z.eq_dec m 0) as [Hz | Hz].
  - left. subst m. subst m'. rewrite Z.div_0_l by lia. cbn [Zdigits2] in He'. lia.
  - assert (Hmp : 0 < m) by lia.
    pose proof (Zdigits2_bounds m Hmp) as [Hlo Hhi].
    pose proof (Zdigits2_pos m Hmp) as Hdp.
    destruct (Z_lt_le_dec (Zdigits2 m + e - 53) (-1074)) as [Hsub | Hnorm].
    + left. split; [|lia]. split; [subst m'; apply Z.div_pos; lia|].
      subst m'. apply Z.div_lt_upper_bound; [lia|].
      rewrite Z.mul_comm, <- pow2_split by lia.
      eapply Z.lt_le_trans; [exact Hhi|]. apply pow2_le. lia.
    + right. split; [|lia].
      assert (En : e' - e = Zdigits2 m - 53) by lia.
      subst m'. rewrite En in *. split.
      * apply Z.div_le_lower_bound; [lia|].
        rewrite Z.mul_comm, <- pow2_split by lia.
        replace (52 + (Zdigits2 m - 53)) with (Zdigits2 m - 1) by lia. exact Hlo.
      * apply Z.div_lt_upper_bound; [lia|].
        rewrite Z.mul_comm, <- pow2_split by lia.
        replace (53 + (Zdigits2 m - 53)) with (Zdigits2 m) by lia. exact Hhi.
Qed.

Lemma rne_cases N M :
  rne N M = N / M \/ rne N M = N / M + 1.
Proof.
  unfold rne.
  destruct (round_nearest_even_cases (N / M) (loc_of_remainder (N mod M) M))
    as [-> | [-> _]]; auto.
Qed.

(** [binary_round_aux] on the quotient [N / D] with the location of its
    remainder rounds the fraction [N / (D * 2^n)] to the nearest integer,
    ties to even, where [n] is the number of bits the format drops. *)
Lemma round_aux_rne s N D e :
  0 <= N -> 0 < D -> e <= fexp prec emax (Zdigits2 (N / D) + e) ->
  let e' := fexp prec emax (Zdigits2 (N / D) + e) in
  let M := D * 2 ^ (e' - e) in
  let r := binary_round_aux prec emax s (N / D) e (loc_of_remainder (N mod D) D) in
  0 < M
  /\ ((0 <= N / M < 2 ^ 52 /\ e' = -1074) \/ (2 ^ 52 <= N / M < 2 ^ 53 /\ -1074 <= e'))
  /\ ((rne N M = 0 /\ r = S754_zero s)
      \/ exists mf ef,
           canonical_mantissa prec emax mf ef = true /\ e' <= ef
           /\ Zpos mf * 2 ^ (ef - e') = rne N M
           /\ r = if ef <=? 971 then S754_finite s mf ef else S754_infinity s).
Proof.
  intros HN HD Hn e' M r.
  assert (Hq : 0 <= N / D) by (apply Z.div_pos; lia).
  assert (Hn' : 0 <= e' - e) by (subst e'; lia).
  pose proof (pow2_pos (e' - e) Hn') as Hp.
  assert (HM : 0 < M) by (subst M; nia).
  pose proof (shift_range (N / D) e Hq Hn) as Hr. cbv zeta in Hr. fold e' in Hr.
  rewrite Z.div_div in Hr by lia. fold M in Hr.
  split; [exact HM|]. split; [exact Hr|].
  subst r. remember (binary_round_aux prec emax s (N / D) e
                       (loc_of_remainder (N mod D) D)) as r eqn:Er.
  unfold binary_round_aux in Er.
  assert (E1 : shr_fexp prec emax (N / D) e (loc_of_remainder (N mod D) D) =
               shr (shr_record_of_loc (N / D) (loc_of_remainder (N mod D) D)) e (e' - e))
    by reflexivity.
  rewrite E1 in Er. clear E1.
  pose proof (shr_represents _ e (e' - e) N D HN HD Hn' (represents_init N D)) as Hs.
  fold M in Hs.
  destruct (shr (shr_record_of_loc (N / D) (loc_of_remainder (N mod D) D)) e (e' - e))
    as [mrs e1].
  cbn [fst snd] in Hs. destruct Hs as [[Hs1 Hs2] He1].
  replace e1 with e' in Er by lia.
  rewrite Hs1, Hs2 in Er. fold (rne N M) in Er.
  pose proof (rne_cases N M) as Hc.
  assert (Hfin : (0 <= rne N M <= 2 ^ 52 /\ e' = -1074)
                 \/ (2 ^ 52 <= rne N M <= 2 ^ 53 /\ -1074 <= e')) by lia.
  pose proof (round_aux_finish s (rne N M) e' Hfin) as Hf.
  destruct (shr_fexp prec emax (rne N M) e' loc_Exact) as [mrs2 e2].
  subst r. exact Hf.
Qed.

Lemma rne_spec N M :
  0 < M ->
  (2 * (N mod M) < M -> rne N M = N / M)
  /\ (M < 2 * (N mod M) -> rne N M = N / M + 1)
  /\ (2 * (N mod M) = M ->
      rne N M = if Z.even (N / M) then N / M else N / M + 1).
Proof.
  intros HM. unfold rne, loc_of_remainder.
  pose proof (Z.mod_pos_bound N M HM) as HR.
  destruct (Z.eqb_spec (N mod M) 0) as [E0 | N0]; cbn [round_nearest_even].
  - repeat split; intros; try reflexivity; lia.
  - destruct (Z.compare_spec (2 * (N mod M)) M); repeat split; intros;
      try reflexivity; lia.
Qed.

(** Rounding to the nearest integer is monotone in the fraction. *)
Lemma rne_le N1 M1 N2 M2 :
  0 < M1 -> 0 < M2 -> N1 * M2 <= N2 * M1 -> rne N1 M1 <= rne N2 M2.
Proof.
  intros H1 H2 H.
  pose proof (Z.div_mod N1 M1 ltac:(lia)) as E1.
  pose proof (Z.div_mod N2 M2 ltac:(lia)) as E2.
  pose proof (Z.mod_pos_bound N1 M1 H1) as R1.
  pose proof (Z.mod_pos_bound N2 M2 H2) as R2.
  pose proof (rne_spec N1 M1 H1) as (L1 & G1 & T1).
  pose proof (rne_spec N2 M2 H2) as (L2 & G2 & T2).
  pose proof (rne_cases N1 M1) as C1. pose proof (rne_cases N2 M2) as C2.
  set (q1 := N1 / M1) in *. set (q2 := N2 / M2) in *.
  set (r1 := N1 mod M1) in *. set (r2 := N2 mod M2) in *.
  assert (Hq : q1 <= q2).
  { destruct (Z_le_gt_dec q1 q2) as [|Hgt]; [assumption | exfalso].
    assert (q2 + 1 <= q1) by lia.
    assert ((q2 + 1) * (M1 * M2) <= q1 * (M1 * M2)) by nia.
    assert (r2 * M1 < M2 * M1) by nia.
    assert (0 <= r1 * M2) by nia.
    nia. }
  destruct (Z.eq_dec q1 q2) as [Eq | Nq]; [|lia].
  assert (Hr : r1 * M2 <= r2 * M1) by nia.
  destruct (Z.compare_spec (2 * r1) M1) as [Ec | Lc | Gc].
  - (* tie on the left *)
    assert (M2 <= 2 * r2) by nia.
    destruct (Z.eq_dec (2 * r2) M2) as [Et | Nt].
    + rewrite (T1 Ec), (T2 Et), Eq. lia.
    + rewrite (G2 ltac:(lia)). lia.
  - rewrite (L1 Lc). lia.
  - assert (M2 < 2 * r2) by nia.
    rewrite (G2 ltac:(lia)). lia.
Qed.

(** The same across exponents: with both quotients normalised (below
    [2^53], and at least [2^52] above the least exponent), the order of the
    values is the order of the rounded mantissas. *)
Lemma rne_mono c N1 M1 e1 N2 M2 e2 :
  0 < M1 -> 0 < M2 -> 0 <= N1 -> 0 <= N2 -> c <= e1 -> c <= e2 ->
  (0 <= N1 / M1 < 2 ^ 52 /\ e1 = -1074) \/ (2 ^ 52 <= N1 / M1 < 2 ^ 53 /\ -1074 <= e1) ->
  (0 <= N2 / M2 < 2 ^ 52 /\ e2 = -1074) \/ (2 ^ 52 <= N2 / M2 < 2 ^ 53 /\ -1074 <= e2) ->
  N1 * M2 * 2 ^ (e1 - c) <= N2 * M1 * 2 ^ (e2 - c) ->
  scaled c (rne N1 M1) e1 <= scaled c (rne N2 M2) e2.
Proof.
  intros H1 H2 HN1 HN2 Hc1 Hc2 F1 F2 H. unfold scaled.
  pose proof (Z.div_mod N1 M1 ltac:(lia)) as E1.
  pose proof (Z.div_mod N2 M2 ltac:(lia)) as E2.
  pose proof (Z.mod_pos_bound N1 M1 H1) as R1.
  pose proof (Z.mod_pos_bound N2 M2 H2) as R2.
  pose proof (rne_cases N1 M1) as C1. pose proof (rne_cases N2 M2) as C2.
  destruct (Z.lt_total e1 e2) as [Hlt | [Heq | Hgt]].
  - rewrite (pow2_shift c e1 e2) by lia.
    pose proof (pow2_pos (e1 - c) ltac:(lia)) as HA.
    pose proof (pow2_le 1 (e2 - e1) ltac:(lia)) as HK. change (2 ^ 1) with 2 in HK.
    set (A := 2 ^ (e1 - c)) in *. set (K := 2 ^ (e2 - e1)) in *.
    assert (B1 : rne N1 M1 <= 2 ^ 53) by lia.
    assert (B2 : 2 ^ 52 <= rne N2 M2) by lia.
    assert (rne N1 M1 * A <= 2 ^ 53 * A) by nia.
    assert (2 ^ 53 * A <= 2 ^ 52 * K * A) by nia.
    assert (2 ^ 52 * K * A <= rne N2 M2 * K * A) by nia.
    lia.
  - subst e2.
    pose proof (pow2_pos (e1 - c) ltac:(lia)) as HA.
    assert (N1 * M2 <= N2 * M1) by nia.
    pose proof (rne_le N1 M1 N2 M2 H1 H2 ltac:(assumption)).
    nia.
  - exfalso.
    rewrite (pow2_shift c e2 e1) in H by lia.
    pose proof (pow2_pos (e2 - c) ltac:(lia)) as HA.
    pose proof (pow2_le 1 (e1 - e2) ltac:(lia)) as HK. change (2 ^ 1) with 2 in HK.
    set (A := 2 ^ (e2 - c)) in *. set (K := 2 ^ (e1 - e2)) in *.
    assert (Q1 : 2 ^ 52 <= N1 / M1) by lia.
    assert (Q2 : N2 / M2 < 2 ^ 53) by lia.
    set (q1 := N1 / M1) in *. set (q2 := N2 / M2) in *.
    set (r1 := N1 mod M1) in *. set (r2 := N2 mod M2) in *.
    assert (S1 : 2 ^ 52 * M1 <= N1) by nia.
    assert (S2 : N2 < 2 ^ 53 * M2) by nia.
    assert (S3 : N1 * M2 * K <= N2 * M1).
    { apply Z.mul_le_mono_pos_r with (p := A); [assumption|].
      replace (N1 * M2 * K * A) with (N1 * M2 * (K * A)) by ring. exact H. }
    assert (S4 : 2 ^ 52 * M1 * M2 * 2 <= N1 * M2 * K).
    { assert (2 ^ 52 * M1 * M2 <= N1 * M2) by nia.
      assert (0 <= N1 * M2) by nia. nia. }
    assert (S5 : N2 * M1 < 2 ^ 53 * M2 * M1) by nia.
    change (2 ^ 53) with (2 ^ 52 * 2) in S5. lia.
Qed.

End Nearest.

Section Monotone.

Lemma leb_zero_any s x : leb (S754_zero s) x = leb zero x.
Proof. destruct s, x as [[|]|[|]| |[|] m e]; reflexivity. Qed.

(** Order of two packaged rounding results from the order of their
    mantissas. *)
Lemma packaged_le c m1 e1 r1 m2 e2 r2 :
  c <= e1 -> c <= e2 ->
  scaled c m1 e1 <= scaled c m2 e2 ->
  (m1 = 0 /\ r1 = S754_zero false)
  \/ (exists mf ef,
        canonical_mantissa prec emax mf ef = true /\ e1 <= ef
        /\ Zpos mf * 2 ^ (ef - e1) = m1
        /\ r1 = if ef <=? 971 then S754_finite false mf ef
                else S754_infinity false) ->
  (m2 = 0 /\ r2 = S754_zero false)
  \/ (exists mf ef,
        canonical_mantissa prec emax mf ef = true /\ e2 <= ef
        /\ Zpos mf * 2 ^ (ef - e2) = m2
        /\ r2 = if ef <=? 971 then S754_finite false mf ef
                else S754_infinity false) ->
  SFleb r1 r2 = true.
Proof.
  intros Hc1 Hc2 H P1 P2.
  destruct P1 as [[-> ->] | (mf1 & ef1 & C1 & He1 & Em1 & ->)].
  { destruct P2 as [[_ ->] | (mf2 & ef2 & _ & _ & _ & ->)]; [reflexivity|].
    destruct (ef2 <=? 971); reflexivity. }
  assert (S1 : scaled c (Zpos mf1) ef1 = scaled c m1 e1)
    by (symmetry; apply scaled_aligned; [lia | symmetry; exact Em1]).
  pose proof (scaled_pos c (Zpos mf1) ef1 ltac:(lia) ltac:(lia)) as Hpos.
  destruct P2 as [[-> ->] | (mf2 & ef2 & C2 & He2 & Em2 & ->)].
  { exfalso. unfold scaled in H at 2. lia. }
  assert (S2 : scaled c (Zpos mf2) ef2 = scaled c m2 e2)
    by (symmetry; apply scaled_aligned; [lia | symmetry; exact Em2]).
  assert (Hle : scaled c (Zpos mf1) ef1 <= scaled c (Zpos mf2) ef2) by lia.
  assert (Hef : ef1 <= ef2).
  { destruct (Z_le_gt_dec ef1 ef2) as [|Hgt]; [assumption | exfalso].
    pose proof (canonical_exp_lt c mf2 ef2 mf1 ef1 C2 C1 ltac:(lia) ltac:(lia)).
    lia. }
  destruct (Z.leb_spec ef1 971), (Z.leb_spec ef2 971); try lia; try reflexivity.
  apply (leb_pos_scaled c); auto; lia.
Qed.

(** [binary_round_aux] is monotone: of two non-negative exact values
    [N1 / D1 * 2^e1 <= N2 / D2 * 2^e2], handed over as quotient and location
    of the remainder, the first rounds to at most what the second rounds
    to. *)
Lemma round_aux_le c N1 D1 e1 N2 D2 e2 :
  0 <= N1 -> 0 < D1 -> e1 <= fexp prec emax (Zdigits2 (N1 / D1) + e1) ->
  0 <= N2 -> 0 < D2 -> e2 <= fexp prec emax (Zdigits2 (N2 / D2) + e2) ->
  c <= e1 -> c <= e2 ->
  N1 * D2 * 2 ^ (e1 - c) <= N2 * D1 * 2 ^ (e2 - c) ->
  SFleb (binary_round_aux prec emax false (N1 / D1) e1
           (loc_of_remainder (N1 mod D1) D1))
        (binary_round_aux prec emax false (N2 / D2) e2
           (loc_of_remainder (N2 mod D2) D2)) = true.
Proof.
  intros HN1 HD1 Hd1 HN2 HD2 Hd2 Hc1 Hc2 H.
  pose proof (round_aux_rne false N1 D1 e1 HN1 HD1 Hd1) as (HM1 & F1 & P1).
  pose proof (round_aux_rne false N2 D2 e2 HN2 HD2 Hd2) as (HM2 & F2 & P2).
  cbv zeta in *.
  set (e1' := fexp prec emax (Zdigits2 (N1 / D1) + e1)) in *.
  set (e2' := fexp prec emax (Zdigits2 (N2 / D2) + e2)) in *.
  pose proof (pow2_pos (e1' - e1) ltac:(lia)) as HP1.
  pose proof (pow2_pos (e2' - e2) ltac:(lia)) as HP2.
  apply (packaged_le c (rne N1 (D1 * 2 ^ (e1' - e1))) e1' _
                       (rne N2 (D2 * 2 ^ (e2' - e2))) e2' _);
    [lia | lia | | exact P1 | exact P2].
  apply rne_mono; try assumption; try lia.
  rewrite (pow2_shift c e1 e1'), (pow2_shift c e2 e2') by lia.
  set (A1 := 2 ^ (e1 - c)) in *. set (A2 := 2 ^ (e2 - c)) in *.
  set (K1 := 2 ^ (e1' - e1)) in *. set (K2 := 2 ^ (e2' - e2)) in *.
  replace (N1 * (D2 * K2) * (K1 * A1)) with (N1 * D2 * A1 * (K1 * K2)) by ring.
  replace (N2 * (D1 * K1) * (K2 * A2)) with (N2 * D1 * A2 * (K1 * K2)) by ring.
  apply Z.mul_le_mono_nonneg_r; [nia | exact H].
Qed.

Lemma round_aux_exact_le c m1 e1 m2 e2 :
  0 <= m1 -> e1 <= fexp prec emax (Zdigits2 m1 + e1) ->
  0 <= m2 -> e2 <= fexp prec emax (Zdigits2 m2 + e2) ->
  c <= e1 -> c <= e2 ->
  scaled c m1 e1 <= scaled c m2 e2 ->
  SFleb (binary_round_aux prec emax false m1 e1 loc_Exact)
        (binary_round_aux prec emax false m2 e2 loc_Exact) = true.
Proof.
  intros H1 Hd1 H2 Hd2 Hc1 Hc2 H.
  pose proof (round_aux_le c m1 1 e1 m2 1 e2) as L.
  rewrite !Z.div_1_r, !Z.mod_1_r in L.
  apply L; try assumption; try lia.
  unfold scaled in H. lia.
Qed.

Lemma binary_round_le c mx1 ex1 mx2 ex2 :
  c <= ex1 -> c <= ex2 -> c <= -1074 ->
  scaled c (Zpos mx1) ex1 <= scaled c (Zpos mx2) ex2 ->
  SFleb (binary_round prec emax false mx1 ex1)
        (binary_round prec emax false mx2 ex2) = true.
Proof.
  intros Hc1 Hc2 Hc H.
  destruct (binary_round_aligned false mx1 ex1) as (mz1 & ez1 & -> & Ez1 & Em1 & Hd1).
  destruct (binary_round_aligned false mx2 ex2) as (mz2 & ez2 & -> & Ez2 & Em2 & Hd2).
  assert (Hcz1 : c <= ez1) by (rewrite Ez1, fexp_eq; lia).
  assert (Hcz2 : c <= ez2) by (rewrite Ez2, fexp_eq; lia).
  apply (round_aux_exact_le c); try assumption; try lia.
  rewrite (scaled_aligned c (Zpos mx1) ex1 (Zpos mz1) ez1) by (auto; lia).
  rewrite (scaled_aligned c (Zpos mx2) ex2 (Zpos mz2) ez2) by (auto; lia).
  exact H.
Qed.

Lemma round_aux_nonneg m e l :
  0 <= m -> e <= fexp prec emax (Zdigits2 m + e) ->
  leb zero (binary_round_aux prec emax false m e l) = true.
Proof.
  intros Hm Hd.
  destruct (round_aux_cases false m e l Hm Hd)
    as (m'' & _ & _ & [[_ ->] | (mf & ef & _ & _ & _ & ->)]); [reflexivity|].
  destruct (ef <=? 971); reflexivity.
Qed.

Lemma leb_finite_zero m e s :
  leb (S754_finite false m e) (S754_zero s) = false.
Proof. reflexivity. Qed.

(** ** Addition of [1.0] *)

Lemma add_one_finite mx ex :
  bounded prec emax mx ex = true ->
  exists p ez,
    add (S754_finite false mx ex) one = binary_round prec emax false p ez
    /\ -1074 <= ez
    /\ scaled (-1074) (Zpos p) ez = scaled (-1074) (Zpos mx) ex + 2 ^ 1074.
Proof.
  intros Bx.
  pose proof (proj1 (bounded_iff _ _) Bx) as [Cx Ex].
  pose proof (canonical_range _ _ Cx) as (Hmx & Hex & _).
  rewrite one_eq. unfold add. cbn [SFadd cond_Zopp].
  set (ez := Z.min ex (-52)).
  set (p1 := fst (shl_align mx ex ez)).
  set (p2 := fst (shl_align (2 ^ 52) (-52) ez)).
  change (Zpos p1 + Zpos p2) with (Zpos (p1 + p2)). cbn [binary_normalize].
  exists (p1 + p2)%positive, ez. split; [reflexivity|]. split; [lia|].
  assert (H1 : scaled (-1074) (Zpos p1) ez = scaled (-1074) (Zpos mx) ex)
    by (apply scaled_shl_align; lia).
  assert (H2 : scaled (-1074) (Zpos p2) ez = scaled (-1074) (2 ^ 52) (-52))
    by (apply scaled_shl_align; lia).
  assert (Hone : scaled (-1074) (2 ^ 52) (-52) = 2 ^ 1074) by reflexivity.
  rewrite Pos2Z.inj_add, scaled_add. lia.
Qed.

(** [x + 1] is monotone in [x]. *)
Lemma add_one_le x1 x2 :
  nonneg_finite x1 = true -> nonneg_finite x2 = true ->
  leb x1 x2 = true -> leb (add x1 one) (add x2 one) = true.
Proof.
  intros H1 H2 Hle.
  destruct (nonneg_finite_cases x1 H1) as [[s1 ->] | (m1 & e1 & -> & B1)].
  { replace (add (S754_zero s1) one) with one by (destruct s1; reflexivity).
    destruct (add_one_range x2 H2) as (_ & _ & _ & _ & L). exact L. }
  destruct (nonneg_finite_cases x2 H2) as [[s2 ->] | (m2 & e2 & -> & B2)].
  { rewrite leb_finite_zero in Hle. discriminate. }
  destruct (add_one_finite m1 e1 B1) as (p1 & ez1 & -> & Hz1 & S1).
  destruct (add_one_finite m2 e2 B2) as (p2 & ez2 & -> & Hz2 & S2).
  pose proof (proj1 (bounded_iff _ _) B1) as [C1 _].
  pose proof (proj1 (bounded_iff _ _) B2) as [C2 _].
  pose proof (canonical_range _ _ C1) as (_ & He1 & _).
  pose proof (canonical_range _ _ C2) as (_ & He2 & _).
  apply (leb_pos_scaled (-1074)) in Hle; try assumption.
  apply (binary_round_le (-1074)); lia.
Qed.

(** ** Subtraction from [1.0] *)

Lemma one_minus_finite my ey :
  bounded prec emax my ey = true ->
  exists d ez,
    sub one (S754_finite false my ey) = binary_normalize prec emax d ez false
    /\ -1074 <= ez
    /\ scaled (-1074) d ez = 2 ^ 1074 - scaled (-1074) (Zpos my) ey.
Proof.
  intros By.
  pose proof (proj1 (bounded_iff _ _) By) as [Cy Ey].
  pose proof (canonical_range _ _ Cy) as (Hmy & Hey & _).
  rewrite one_eq. unfold sub. cbn [SFsub cond_Zopp].
  set (ez := Z.min (-52) ey).
  set (p1 := fst (shl_align (2 ^ 52) (-52) ez)).
  set (p2 := fst (shl_align my ey ez)).
  exists (Zpos p1 - Zpos p2), ez. split; [reflexivity|]. split; [lia|].
  assert (H1 : scaled (-1074) (Zpos p1) ez = scaled (-1074) (2 ^ 52) (-52))
    by (apply scaled_shl_align; lia).
  assert (H2 : scaled (-1074) (Zpos p2) ez = scaled (-1074) (Zpos my) ey)
    by (apply scaled_shl_align; lia).
  assert (Hone : scaled (-1074) (2 ^ 52) (-52) = 2 ^ 1074) by reflexivity.
  rewrite scaled_sub. lia.
Qed.

Lemma scaled_sign c d e :
  c <= e -> (0 < scaled c d e <-> 0 < d) /\ (scaled c d e = 0 <-> d = 0).
Proof.
  intros Hc. unfold scaled. pose proof (pow2_pos (e - c) ltac:(lia)). nia.
Qed.

(** [1 - y] is antitone in [y] on [0.0, 1.0]. *)
Lemma one_minus_le y1 y2 :
  nonneg_finite y1 = true -> nonneg_finite y2 = true ->
  leb y2 one = true ->
  leb y1 y2 = true -> leb (sub one y2) (sub one y1) = true.
Proof.
  intros H1 H2 Hone Hle.
  destruct (nonneg_finite_cases y2 H2) as [[s2 ->] | (m2 & e2 & -> & B2)].
  { destruct (nonneg_finite_cases y1 H1) as [[s1 ->] | (m1 & e1 & -> & B1)].
    - destruct s1, s2; reflexivity.
    - rewrite leb_finite_zero in Hle. discriminate. }
  pose proof (proj1 (bounded_iff _ _) B2) as [C2 _].
  pose proof (canonical_range _ _ C2) as (_ & He2 & _).
  pose proof (proj1 (bounded_iff _ _) one_bounded) as [Cone _].
  destruct (nonneg_finite_cases y1 H1) as [[s1 ->] | (m1 & e1 & -> & B1)].
  { replace (sub one (S754_zero s1)) with one by (destruct s1; reflexivity).
    apply (one_minus_range (S754_finite false m2 e2) B2 eq_refl Hone). }
  pose proof (proj1 (bounded_iff _ _) B1) as [C1 _].
  pose proof (canonical_range _ _ C1) as (_ & He1 & _).
  apply (leb_pos_scaled (-1074)) in Hle; try assumption.
  apply (leb_scaled_one (-1074)) in Hone; try assumption; try lia.
  assert (Hv : scaled (-1074) (2 ^ 52) (-52) = 2 ^ 1074) by reflexivity.
  destruct (one_minus_finite m1 e1 B1) as (d1 & ez1 & -> & Hz1 & S1).
  destruct (one_minus_finite m2 e2 B2) as (d2 & ez2 & -> & Hz2 & S2).
  assert (Hd : scaled (-1074) d2 ez2 <= scaled (-1074) d1 ez1) by lia.
  assert (Hd2 : 0 <= scaled (-1074) d2 ez2) by lia.
  pose proof (scaled_sign (-1074) d1 ez1 Hz1) as [P1 Z1].
  pose proof (scaled_sign (-1074) d2 ez2 Hz2) as [P2 Z2].
  destruct d2 as [|q2|q2]; cbn [binary_normalize].
  - destruct d1 as [|q1|q1]; cbn [binary_normalize]; [reflexivity | | lia].
    rewrite leb_zero_any.
    destruct (binary_round_aligned false q1 ez1) as (mz & ez & -> & _ & _ & Hdd).
    apply round_aux_nonneg; [lia | exact Hdd].
  - destruct d1 as [|q1|q1]; cbn [binary_normalize]; try lia.
    apply (binary_round_le (-1074)); lia.
  - lia.
Qed.

(** ** Multiplication *)

Lemma mul_digits mx ex my ey :
  canonical_mantissa prec emax mx ex = true ->
  canonical_mantissa prec emax my ey = true ->
  ex + ey <= fexp prec emax (Zdigits2 (Zpos (mx * my)) + (ex + ey)).
Proof.
  intros Cx Cy. rewrite fexp_eq, Pos2Z.inj_mul.
  pose proof (Zdigits2_mul_ge (Zpos mx) (Zpos my) ltac:(lia) ltac:(lia)) as Hdig.
  pose proof (Zdigits2_pos (Zpos mx) ltac:(lia)).
  pose proof (Zdigits2_pos (Zpos my) ltac:(lia)).
  apply canonical_iff in Cx. apply canonical_iff in Cy.
  cbn [Zdigits2] in *. lia.
Qed.

Lemma scaled_mul c1 m1 e1 c2 m2 e2 :
  c1 <= e1 -> c2 <= e2 ->
  scaled (c1 + c2) (m1 * m2) (e1 + e2) = scaled c1 m1 e1 * scaled c2 m2 e2.
Proof.
  intros H1 H2. unfold scaled.
  replace (e1 + e2 - (c1 + c2)) with ((e1 - c1) + (e2 - c2)) by lia.
  rewrite pow2_split by lia. ring.
Qed.

Lemma mul_nonneg x y :
  nonneg_finite x = true -> nonneg_finite y = true ->
  leb zero (mul x y) = true.
Proof.
  intros Hx Hy.
  destruct (nonneg_finite_cases x Hx) as [[sx ->] | (mx & ex & -> & Bx)];
    destruct (nonneg_finite_cases y Hy) as [[sy ->] | (my & ey & -> & By)];
    try (destruct sx; reflexivity); try (destruct sy; reflexivity);
    try (destruct sx, sy; reflexivity).
  apply bounded_iff in Bx as [Cx _]. apply bounded_iff in By as [Cy _].
  unfold mul. cbn [SFmul xorb].
  apply round_aux_nonneg; [lia | apply mul_digits; assumption].
Qed.

(** [x * y] is monotone in both factors, on finite values [>= 0.0]. *)
Lemma mul_le x1 y1 x2 y2 :
  nonneg_finite x1 = true -> nonneg_finite y1 = true ->
  nonneg_finite x2 = true -> nonneg_finite y2 = true ->
  leb x1 x2 = true -> leb y1 y2 = true ->
  leb (mul x1 y1) (mul x2 y2) = true.
Proof.
  intros Hx1 Hy1 Hx2 Hy2 Lx Ly.
  pose proof (mul_nonneg x2 y2 Hx2 Hy2) as Hnn.
  destruct (nonneg_finite_cases x1 Hx1) as [[sx1 ->] | (mx1 & ex1 & -> & Bx1)].
  { destruct (nonneg_finite_cases y1 Hy1) as [[sy1 ->] | (my1 & ey1 & -> & By1)];
      cbn [mul SFmul]; rewrite leb_zero_any; exact Hnn. }
  destruct (nonneg_finite_cases y1 Hy1) as [[sy1 ->] | (my1 & ey1 & -> & By1)].
  { cbn [mul SFmul]. rewrite leb_zero_any. exact Hnn. }
  destruct (nonneg_finite_cases x2 Hx2) as [[sx2 ->] | (mx2 & ex2 & -> & Bx2)];
    [rewrite leb_finite_zero in Lx; discriminate|].
  destruct (nonneg_finite_cases y2 Hy2) as [[sy2 ->] | (my2 & ey2 & -> & By2)];
    [rewrite leb_finite_zero in Ly; discriminate|].
  clear Hnn.
  apply bounded_iff in Bx1 as [Cx1 _]. apply bounded_iff in By1 as [Cy1 _].
  apply bounded_iff in Bx2 as [Cx2 _]. apply bounded_iff in By2 as [Cy2 _].
  pose proof (canonical_range _ _ Cx1) as (_ & Hex1 & _).
  pose proof (canonical_range _ _ Cy1) as (_ & Hey1 & _).
  pose proof (canonical_range _ _ Cx2) as (_ & Hex2 & _).
  pose proof (canonical_range _ _ Cy2) as (_ & Hey2 & _).
  apply (leb_pos_scaled (-1074)) in Lx; try assumption.
  apply (leb_pos_scaled (-1074)) in Ly; try assumption.
  pose proof (scaled_pos (-1074) (Zpos mx1) ex1 Hex1 ltac:(lia)).
  pose proof (scaled_pos (-1074) (Zpos my1) ey1 Hey1 ltac:(lia)).
  unfold mul, leb. cbn [SFmul xorb].
  apply (round_aux_exact_le (-1074 + -1074));
    try (apply mul_digits; assumption); try lia.
  rewrite !Pos2Z.inj_mul, !scaled_mul by assumption.
  apply Z.mul_le_mono_nonneg; lia.
Qed.

(** ** Division *)

Lemma div_core_rne mx ex my ey :
  exists N e',
    SFdiv_core_binary prec emax (Zpos mx) ex (Zpos my) ey
    = (N / Zpos my, e', loc_of_remainder (N mod Zpos my) (Zpos my))
    /\ N = Zpos mx * 2 ^ (ex - ey - e')
    /\ e' <= ex - ey
    /\ Z.min (-1074) (ex - ey) <= e'
    /\ e' <= fexp prec emax (Zdigits2 (N / Zpos my) + e').
Proof.
  destruct (div_core_spec mx ex my ey) as (q0 & e0 & l0 & E0 & _ & _ & Hd & _).
  revert E0. unfold SFdiv_core_binary.
  set (d1 := Zdigits2 (Zpos mx)). set (d2 := Zdigits2 (Zpos my)).
  set (e' := Z.min (fexp prec emax (d1 + ex - (d2 + ey))) (ex - ey)).
  set (s := ex - ey - e').
  assert (Hs : 0 <= s) by (subst s e'; lia).
  set (m' := match s with
             | 0 => Zpos mx
             | Zpos _ => Z.shiftl (Zpos mx) s
             | Zneg _ => 0
             end).
  assert (Em : m' = Zpos mx * 2 ^ s).
  { subst m'. destruct s as [|p|p]; try lia.
    apply Z.shiftl_mul_pow2. lia. }
  pose proof (Z_div_mod m' (Zpos my) ltac:(lia)) as Hdm.
  assert (Hq : m' / Zpos my = fst (Z.div_eucl m' (Zpos my))) by reflexivity.
  assert (Hr : m' mod Zpos my = snd (Z.div_eucl m' (Zpos my))) by reflexivity.
  destruct (Z.div_eucl m' (Zpos my)) as [q r]. cbn [fst snd] in Hq, Hr.
  destruct Hdm as [_ Hrange].
  intros E0. injection E0 as <- <- <-.
  exists m', e'. rewrite Hq, Hr.
  rewrite new_location_remainder by lia.
  split; [reflexivity|]. split; [exact Em|]. split; [subst e'; lia|].
  split; [|exact Hd].
  assert (Ee : e' = Z.min (Z.max (d1 + ex - (d2 + ey) - 53) (-1074)) (ex - ey))
    by reflexivity.
  lia.
Qed.

(** [x / y] is monotone in [x] and antitone in [y], for finite [x >= 0.0]
    and finite [y >= 1.0]. *)
Lemma div_le x1 y1 x2 y2 :
  nonneg_finite x1 = true -> nonneg_finite y1 = true ->
  nonneg_finite x2 = true -> nonneg_finite y2 = true ->
  leb one y2 = true ->
  leb x1 x2 = true -> leb y2 y1 = true ->
  leb (div x1 y1) (div x2 y2) = true.
Proof.
  intros Hx1 Hy1 Hx2 Hy2 Hone Lx Ly.
  pose proof (leb_trans _ _ _ Hone Ly) as Hone1.
  destruct (div_by_ge_one_range x2 y2 Hx2 Hy2 Hone) as [Hnn _].
  destruct (nonneg_finite_cases y1 Hy1) as [[sy1 ->] | (my1 & ey1 & -> & By1)];
    [destruct sy1; discriminate|].
  destruct (nonneg_finite_cases y2 Hy2) as [[sy2 ->] | (my2 & ey2 & -> & By2)];
    [destruct sy2; discriminate|].
  destruct (nonneg_finite_cases x1 Hx1) as [[sx1 ->] | (mx1 & ex1 & -> & Bx1)].
  { cbn [div SFdiv]. rewrite leb_zero_any. apply leb_zero_l. exact Hnn. }
  destruct (nonneg_finite_cases x2 Hx2) as [[sx2 ->] | (mx2 & ex2 & -> & Bx2)];
    [rewrite leb_finite_zero in Lx; discriminate|].
  clear Hnn Hone Hone1.
  pose proof (proj1 (bounded_iff _ _) Bx1) as [Cx1 Ux1].
  pose proof (proj1 (bounded_iff _ _) By1) as [Cy1 Uy1].
  pose proof (proj1 (bounded_iff _ _) Bx2) as [Cx2 Ux2].
  pose proof (proj1 (bounded_iff _ _) By2) as [Cy2 Uy2].
  pose proof (canonical_range _ _ Cx1) as (_ & Hex1 & _).
  pose proof (canonical_range _ _ Cy1) as (_ & Hey1 & _).
  pose proof (canonical_range _ _ Cx2) as (_ & Hex2 & _).
  pose proof (canonical_range _ _ Cy2) as (_ & Hey2 & _).
  apply (leb_pos_scaled (-3222)) in Lx; try assumption; try lia.
  apply (leb_pos_scaled (-1074)) in Ly; try assumption.
  unfold div, leb. cbn [SFdiv xorb].
  destruct (div_core_rne mx1 ex1 my1 ey1) as (N1 & e1 & -> & EN1 & U1 & L1 & Hd1).
  destruct (div_core_rne mx2 ex2 my2 ey2) as (N2 & e2 & -> & EN2 & U2 & L2 & Hd2).
  pose proof (pow2_pos (ex1 - ey1 - e1) ltac:(lia)) as HS1.
  pose proof (pow2_pos (ex2 - ey2 - e2) ltac:(lia)) as HS2.
  apply (round_aux_le (-2148)); try assumption; try lia.
  pose proof (pow2_pos (ey1 - -1074) ltac:(lia)) as HY1.
  pose proof (pow2_pos (ey2 - -1074) ltac:(lia)) as HY2.
  assert (E1 : 2 ^ (ex1 - ey1 - e1) * 2 ^ (e1 - -2148) * 2 ^ (ey1 - -1074)
               = 2 ^ (ex1 - -3222)).
  { rewrite <- !pow2_split by lia. f_equal. lia. }
  assert (E2 : 2 ^ (ex2 - ey2 - e2) * 2 ^ (e2 - -2148) * 2 ^ (ey2 - -1074)
               = 2 ^ (ex2 - -3222)).
  { rewrite <- !pow2_split by lia. f_equal. lia. }
  unfold scaled in Lx, Ly. subst N1 N2.
  set (S1 := 2 ^ (ex1 - ey1 - e1)) in *. set (S2 := 2 ^ (ex2 - ey2 - e2)) in *.
  set (A1 := 2 ^ (e1 - -2148)) in *. set (A2 := 2 ^ (e2 - -2148)) in *.
  set (Y1 := 2 ^ (ey1 - -1074)) in *. set (Y2 := 2 ^ (ey2 - -1074)) in *.
  set (X1 := 2 ^ (ex1 - -3222)) in *. set (X2 := 2 ^ (ex2 - -3222)) in *.
  apply (Z.mul_le_mono_pos_r _ _ (Y1 * Y2)); [nia|].
  replace (Zpos mx1 * S1 * Zpos my2 * A1 * (Y1 * Y2))
    with (Zpos mx1 * (S1 * A1 * Y1) * (Zpos my2 * Y2)) by ring.
  replace (Zpos mx2 * S2 * Zpos my1 * A2 * (Y1 * Y2))
    with (Zpos mx2 * (S2 * A2 * Y2) * (Zpos my1 * Y1)) by ring.
  rewrite E1, E2.
  apply Z.mul_le_mono_nonneg; nia.
Qed.

End Monotone.

Section MonotoneFeatures.

Lemma of_int_le z1 z2 :
  0 <= z1 <= z2 -> leb (of_int z1) (of_int z2) = true.
Proof.
  intros H. unfold of_int.
  destruct z1 as [|p1|p1]; try lia; destruct z2 as [|p2|p2]; try lia;
    cbn [binary_normalize]; try reflexivity.
  - destruct (binary_round_aligned false p2 0) as (mz & ez & -> & _ & _ & Hd).
    apply round_aux_nonneg; [lia | exact Hd].
  - apply (binary_round_le (-1074)); try lia.
    unfold scaled. pose proof (pow2_pos (0 - -1074) ltac:(lia)). nia.
Qed.

Lemma unit_nonneg_finite y :
  valid y = true -> geb y zero = true -> leb y one = true ->
  nonneg_finite y = true.
Proof.
  intros Hv Hge Hle. unfold nonneg_finite. rewrite Hv, Hge.
  destruct y as [s | [|] | | s m e]; try discriminate; reflexivity.
Qed.

End MonotoneFeatures.

(** X16. Among valid profiles, more songs played and a lower skip rate never
    give a lower satisfaction score. *)
Theorem satisfaction_score_monotone (p q : RawUserProfile) :
  valid_profile p = true -> valid_profile q = true ->
  songs_played p <= songs_played q ->
  leb (skip_rate q) (skip_rate p) = true ->
  exists dfp dfq sp sq,
    feature_deriver p = Ok dfp /\ feature_deriver q = Ok dfq
    /\ float_column dfp "satisfaction_score" = Some sp
    /\ float_column dfq "satisfaction_score" = Some sq
    /\ leb sp sq = true.
Proof.
  intros Hp Hq Hs Hk.
  apply valid_profile_fields in Hp as (_ & Sp & Vp & Gp & Lp & _).
  apply valid_profile_fields in Hq as (_ & Sq & Vq & Gq & Lq & _).
  unfold max_safe_integer in Sp, Sq.
  pose proof (unit_nonneg_finite _ Vp Gp Lp) as Np.
  pose proof (unit_nonneg_finite _ Vq Gq Lq) as Nq.
  do 4 eexists.
  split; [apply feature_deriver_columns|].
  split; [apply feature_deriver_columns|].
  split; [reflexivity|]. split; [reflexivity|].
  apply mul_le.
  - apply of_int_nonneg; lia.
  - apply (one_minus_range _ Vp Gp Lp).
  - apply of_int_nonneg; lia.
  - apply (one_minus_range _ Vq Gq Lq).
  - apply of_int_le; lia.
  - apply one_minus_le; assumption.
Qed.

Lemma satisfaction_score_monotone_witness :
  exists dfp dfq sp sq,
    feature_deriver scenario_2 = Ok dfp /\ feature_deriver scenario_1 = Ok dfq
    /\ float_column dfp "satisfaction_score" = Some sp
    /\ float_column dfq "satisfaction_score" = Some sq
    /\ leb sp sq = true.
Proof.
  apply (satisfaction_score_monotone scenario_2 scenario_1);
    [reflexivity | reflexivity | vm_compute; discriminate | reflexivity].
Defined.

(** X17. Among valid profiles, more ads and a shorter listening time never
    give a lower ad burden. *)
Theorem ad_burden_monotone (p q : RawUserProfile) :
  valid_profile p = true -> valid_profile q = true ->
  ads_listened p <= ads_listened q ->
  leb (listening_time q) (listening_time p) = true ->
  exists dfp dfq ap aq,
    feature_deriver p = Ok dfp /\ feature_deriver q = Ok dfq
    /\ float_column dfp "ad_burden" = Some ap
    /\ float_column dfq "ad_burden" = Some aq
    /\ leb ap aq = true.
Proof.
  intros Hp Hq Ha Hl.
  apply valid_profile_fields in Hp as (Np & _ & _ & _ & _ & Ap).
  apply valid_profile_fields in Hq as (Nq & _ & _ & _ & _ & Aq).
  unfold max_safe_integer in Ap, Aq.
  destruct (add_one_range _ Np) as (mp & ep & Ep & Bp & L1p).
  destruct (add_one_range _ Nq) as (mq & eq & Eq & Bq & L1q).
  do 4 eexists.
  split; [apply feature_deriver_columns|].
  split; [apply feature_deriver_columns|].
  split; [reflexivity|]. split; [reflexivity|].
  apply div_le.
  - apply of_int_nonneg; lia.
  - rewrite Ep. apply nonneg_finite_pos. exact Bp.
  - apply of_int_nonneg; lia.
  - rewrite Eq. apply nonneg_finite_pos. exact Bq.
  - exact L1q.
  - apply of_int_le; lia.
  - apply add_one_le; assumption.
Qed.

Lemma ad_burden_monotone_witness :
  exists dfp dfq ap aq,
    feature_deriver scenario_1 = Ok dfp /\ feature_deriver scenario_2 = Ok dfq
    /\ float_column dfp "ad_burden" = Some ap
    /\ float_column dfq "ad_burden" = Some aq
    /\ leb ap aq = true.
Proof.
  apply (ad_burden_monotone scenario_1 scenario_2);
    [reflexivity | reflexivity | vm_compute; discriminate | reflexivity].
Defined.

(** X18. Among valid profiles, a longer listening time and fewer songs
    never give a lower time per song. *)
Theorem time_per_song_monotone (p q : RawUserProfile) :
  valid_profile p = true -> valid_profile q = true ->
  leb (listening_time p) (listening_time q) = true ->
  songs_played q <= songs_played p ->
  exists dfp dfq tp tq,
    feature_deriver p = Ok dfp /\ feature_deriver q = Ok dfq
    /\ float_column dfp "time_per_song" = Some tp
    /\ float_column dfq "time_per_song" = Some tq
    /\ leb tp tq = true.
Proof.
  intros Hp Hq Hl Hs.
  apply valid_profile_fields in Hp as (Np & Sp & _).
  apply valid_profile_fields in Hq as (Nq & Sq & _).
  unfold max_safe_integer in Sp, Sq.
  destruct (of_int_range (songs_played q + 1) ltac:(lia)) as (m & e & E & B & L1).
  exists (make_input_data p ++ derived_columns (derived_formulas p)),
         (make_input_data q ++ derived_columns (derived_formulas q)),
         (div (listening_time p) (of_int (songs_played p + 1))),
         (div (listening_time q) (of_int (songs_played q + 1))).
  split; [apply feature_deriver_formulas; lia|].
  split; [apply feature_deriver_formulas; lia|].
  split; [reflexivity|]. split; [reflexivity|].
  apply div_le; try assumption.
  - apply of_int_nonneg; lia.
  - apply of_int_nonneg; lia.
  - apply of_int_le; lia.
Qed.

Lemma time_per_song_monotone_witness :
  let q := {| age := 30; gender := "Male"; country := "US";
              subscription_type := "Free"; device_type := "Mobile";
              listening_time := of_int 120; songs_played := 10;
              skip_rate := lit 3 1; ads_listened := 5;
              offline_listening := 0 |} in
  exists dfp dfq tp tq,
    feature_deriver scenario_1 = Ok dfp /\ feature_deriver q = Ok dfq
    /\ float_column dfp "time_per_song" = Some tp
    /\ float_column dfq "time_per_song" = Some tq
    /\ leb tp tq = true.
Proof.
  intros q. apply (time_per_song_monotone scenario_1 q);
    [reflexivity | reflexivity | reflexivity | vm_compute; discriminate].
Defined.

Section Labels.

Lemma risk_label_in_render c df :
  In (st_error high_risk_message) (render_result c df)
  <-> geb c threshold = true.
Proof.
  unfold render_result, prediction. rewrite is_churn_risk_geb.
  destruct (geb c threshold); cbn [app In].
  - split; [reflexivity | auto 10].
  - split; [|discriminate]. intros H.
    repeat (destruct H as [H | H]; [discriminate|]). contradiction.
Qed.

Lemma loyal_label_in_render c df :
  In (st_success loyal_message) (render_result c df)
  <-> geb c threshold = false.
Proof.
  unfold render_result, prediction. rewrite is_churn_risk_geb.
  destruct (geb c threshold); cbn [app In].
  - split; [|discriminate]. intros H.
    repeat (destruct H as [H | H]; [discriminate|]). contradiction.
  - split; [reflexivity | auto 10].
Qed.

(** Below the threshold means at most its predecessor among the binary64
    values. *)
Lemma below_threshold c :
  nonneg_finite c = true -> geb c threshold = false ->
  leb c (S754_finite false 6305039478318693 (-54)) = true.
Proof.
  intros Hc Hlt. rewrite (proj1 threshold_value) in Hlt. unfold geb in Hlt.
  destruct (nonneg_finite_cases c Hc) as [[s ->] | (m & e & -> & B)];
    [destruct s; reflexivity|].
  apply bounded_iff in B as [C _].
  pose proof (canonical_range _ _ C) as (_ & He & _).
  assert (Ct : canonical_mantissa prec emax 6305039478318694 (-54) = true)
    by reflexivity.
  assert (Cp : canonical_mantissa prec emax 6305039478318693 (-54) = true)
    by reflexivity.
  apply (leb_pos_scaled (-1074)); try assumption; try lia.
  assert (Hn : ~ scaled (-1074) 6305039478318694 (-54) <= scaled (-1074) (Zpos m) e).
  { intros H. apply (leb_pos_scaled (-1074)) in H; try assumption; try lia.
    unfold leb in Hlt. congruence. }
  destruct (Z.lt_total e (-54)) as [Hl | [-> | Hg]].
  - pose proof (canonical_exp_lt (-1074) m e 6305039478318693 (-54) C Cp He Hl).
    lia.
  - apply scaled_same_exp; [lia|].
    destruct (Z_le_gt_dec 6305039478318694 (Zpos m)) as [Hge|]; [|lia].
    exfalso. apply Hn. apply scaled_same_exp; lia.
  - pose proof (canonical_exp_lt (-1074) 6305039478318694 (-54) m e Ct C
                  ltac:(lia) Hg).
    lia.
Qed.

(** The tenths that the text of a float shows, against 35.0. *)
Lemma tenths_against_35 m e :
  bounded prec emax m e = true ->
  (leb (of_int 35) (S754_finite false m e) = true ->
   350 <= scaled_decimal 1 (S754_finite false m e))
  /\ (leb (of_int 35) (S754_finite false m e) = false ->
      scaled_decimal 1 (S754_finite false m e) <= 350).
Proof.
  intros B. apply bounded_iff in B as [C _].
  pose proof (canonical_range _ _ C) as (_ & He & _).
  assert (C35 : canonical_mantissa prec emax 4925812092436480 (-47) = true)
    by reflexivity.
  change (of_int 35) with (S754_finite false 4925812092436480 (-47)).
  assert (E350 : rne 350 1 = 350) by reflexivity.
  cbn [scaled_decimal]. change (10 ^ Z.of_nat 1) with 10.
  set (N := Zpos m * 10 * 2 ^ Z.max e 0). set (M := 2 ^ Z.max (- e) 0).
  assert (HM : 0 < M) by (apply pow2_pos; lia).
  pose proof (leb_pos_scaled (Z.min e (-47)) 4925812092436480 (-47) m e
                C35 C ltac:(lia) ltac:(lia)) as Hiff.
  unfold leb.
  assert (Hval : scaled (Z.min e (-47)) 4925812092436480 (-47)
                 <= scaled (Z.min e (-47)) (Zpos m) e
                 <-> 350 * M <= N).
  { unfold scaled. subst N M.
    change 4925812092436480 with (35 * 2 ^ 47).
    destruct (Z_le_gt_dec 0 e) as [Hpos | Hneg].
    - replace (Z.min e (-47)) with (-47) by lia.
      replace (Z.max e 0) with e by lia. replace (Z.max (- e) 0) with 0 by lia.
      replace (-47 - -47) with 0 by lia. replace (e - -47) with (e + 47) by lia.
      rewrite pow2_split by lia.
      pose proof (pow2_pos e Hpos). pose proof (pow2_pos 47 ltac:(lia)).
      set (E := 2 ^ e) in *. set (T := 2 ^ 47) in *.
      rewrite Z.pow_0_r. nia.
    - replace (Z.max e 0) with 0 by lia. replace (Z.max (- e) 0) with (- e) by lia.
      rewrite Z.pow_0_r.
      destruct (Z_le_gt_dec (-47) e) as [Hhi | Hlo].
      + replace (Z.min e (-47)) with (-47) by lia.
        replace (-47 - -47) with 0 by lia. rewrite Z.pow_0_r.
        assert (Ep : 2 ^ 47 = 2 ^ (e - -47) * 2 ^ (- e))
          by (rewrite <- pow2_split by lia; f_equal; lia).
        pose proof (pow2_pos (e - -47) ltac:(lia)).
        pose proof (pow2_pos (- e) ltac:(lia)).
        set (A := 2 ^ (e - -47)) in *. set (B := 2 ^ (- e)) in *.
        rewrite Ep. nia.
      + replace (Z.min e (-47)) with e by lia.
        rewrite Z.sub_diag, Z.pow_0_r.
        assert (Ep : 2 ^ (- e) = 2 ^ 47 * 2 ^ (-47 - e))
          by (rewrite <- pow2_split by lia; f_equal; lia).
        pose proof (pow2_pos (-47 - e) ltac:(lia)).
        pose proof (pow2_pos 47 ltac:(lia)).
        set (A := 2 ^ (-47 - e)) in *. set (T := 2 ^ 47) in *.
        rewrite Ep. nia. }
  split; intros H.
  - rewrite <- E350. apply rne_le; [lia | exact HM |].
    apply Hiff in H. apply Hval in H. lia.
  - rewrite <- E350. apply rne_le; [exact HM | lia |].
    assert (~ 350 * M <= N); [|lia].
    intros X. apply Hval in X. apply Hiff in X. congruence.
Qed.

End Labels.

(** X19. For a finite probability between 0.0 and 1.0, the label agrees
    with the float computed for the metric: the page shows the high-risk
    message exactly when [churn_proba * 100 >= 35.0] in float64, and the
    loyal-user message exactly when not.  The text of the metric shows this
    float rounded to one decimal, so text and label agree one way only: a
    high-risk page shows at least 35.0%, a loyal page at most 35.0%, and
    35.0% is shown with either label (for 0.35 and for 0.3499). *)
Theorem risk_label_matches_percentage
    (churn_proba : float64) (input_data : DataFrame)
    (label : string) (percent : float64) :
  nonneg_finite churn_proba = true ->
  leb churn_proba one = true ->
  In (st_metric label percent) (render_result churn_proba input_data) ->
  (In (st_error high_risk_message) (render_result churn_proba input_data)
   <-> geb percent (of_int 35) = true)
  /\ (In (st_success loyal_message) (render_result churn_proba input_data)
      <-> geb percent (of_int 35) = false)
  /\ (In (st_error high_risk_message) (render_result churn_proba input_data)
      -> 350 <= scaled_decimal 1 percent)
  /\ (In (st_success loyal_message) (render_result churn_proba input_data)
      -> scaled_decimal 1 percent <= 350)
  /\ (metric_text (mul (lit 35 2) (of_int 100)) = "35.0%"
      /\ metric_text (mul (lit 3499 4) (of_int 100)) = "35.0%"
      /\ geb (lit 35 2) threshold = true
      /\ geb (lit 3499 4) threshold = false).
Proof.
  intros Hc Hone Hin. apply metric_in_render in Hin. subst percent.
  rewrite risk_label_in_render, loyal_label_in_render.
  assert (H100 : nonneg_finite (of_int 100) = true) by reflexivity.
  assert (Hup : geb churn_proba threshold = true ->
                geb (mul churn_proba (of_int 100)) (of_int 35) = true).
  { intros H. change (of_int 35) with (mul threshold (of_int 100)).
    apply mul_le; try assumption; reflexivity. }
  assert (Hdown : geb churn_proba threshold = false ->
                  geb (mul churn_proba (of_int 100)) (of_int 35) = false).
  { intros H. pose proof (below_threshold _ Hc H) as Hb.
    pose proof (mul_le churn_proba (of_int 100)
                  (S754_finite false 6305039478318693 (-54)) (of_int 100)
                  Hc H100 eq_refl H100 Hb eq_refl) as Hm.
    destruct (geb (mul churn_proba (of_int 100)) (of_int 35)) eqn:E;
      [|reflexivity].
    pose proof (leb_trans _ _ _ E Hm) as Hbad.
    vm_compute in Hbad. discriminate. }
  assert (Hn : nonneg_finite (mul churn_proba (of_int 100)) = true).
  { rewrite mul_comm. apply (mul_fraction_range _ _ H100 Hc Hone). }
  assert (Htext :
            (geb (mul churn_proba (of_int 100)) (of_int 35) = true ->
             350 <= scaled_decimal 1 (mul churn_proba (of_int 100)))
            /\ (geb (mul churn_proba (of_int 100)) (of_int 35) = false ->
                scaled_decimal 1 (mul churn_proba (of_int 100)) <= 350)).
  { destruct (nonneg_finite_cases _ Hn) as [[s ->] | (m & e & -> & B)].
    - split; [destruct s; discriminate | intros _; cbn; lia].
    - apply (tenths_against_35 m e B). }
  destruct Htext as [Tup Tdown].
  destruct (geb churn_proba threshold) eqn:E.
  - rewrite (Hup eq_refl) in *.
    split; [tauto|]. split; [split; discriminate|].
    split; [intros _; apply Tup; reflexivity|].
    split; [discriminate|]. repeat split.
  - rewrite (Hdown eq_refl) in *.
    split; [split; discriminate|]. split; [tauto|].
    split; [discriminate|].
    split; [intros _; apply Tdown; reflexivity|]. repeat split.
Qed.

Lemma risk_label_matches_percentage_witness :
  (In (st_error high_risk_message) (render_result (lit 4 1) [])
   <-> geb (mul (lit 4 1) (of_int 100)) (of_int 35) = true)
  /\ (In (st_success loyal_message) (render_result (lit 4 1) [])
      <-> geb (mul (lit 4 1) (of_int 100)) (of_int 35) = false)
  /\ (In (st_error high_risk_message) (render_result (lit 4 1) [])
      -> 350 <= scaled_decimal 1 (mul (lit 4 1) (of_int 100)))
  /\ (In (st_success loyal_message) (render_result (lit 4 1) [])
      -> scaled_decimal 1 (mul (lit 4 1) (of_int 100)) <= 350)
  /\ (metric_text (mul (lit 35 2) (of_int 100)) = "35.0%"
      /\ metric_text (mul (lit 3499 4) (of_int 100)) = "35.0%"
      /\ geb (lit 35 2) threshold = true
      /\ geb (lit 3499 4) threshold = false).
Proof.
  apply (risk_label_matches_percentage (lit 4 1) []
           "이탈 확률 (Churn Probability)").
  - reflexivity.
  - reflexivity.
  - right. left. reflexivity.
Defined.
